(** * MONAD mint bot: wallet vault, transaction submission, history ledger

    A shallow embedding of [server2.js] (the encrypted wallet store, the
    retrying transaction sender, the bounded transaction history and the
    [/mint] command) and of [mintNFT] from the second bot variant, with the
    properties the design document states about them. The second half of
    the file covers more of the code: the text helpers, the [/history]
    command, the sequential [/mint] and the saved settings of the second
    variant, and what a call does whatever the node answers.

    Conventions.
    - Byte buffers ([Buffer]) are [list byte]; hex strings are [string].
    - A JavaScript exception is a value of [Error]; code that can throw
      returns [Error + A] ([inl] is the thrown error).
    - Library primitives whose code is not part of the repository (scrypt,
      AES-256-CBC, HMAC-SHA256, [JSON], web3, the remote node) are the
      fields of the classes [Crypto] and [Web3]; nothing is assumed about
      them except where a theorem states it as a hypothesis.
    - An [async] function is a finite tree of effects ([prog]); it is run
      either alone ([exec]) or interleaved with other calls at its [await]
      points ([run]). *)

From Stdlib Require Import ZArith Ascii String.
From Stdlib.Strings Require Import Byte.
From stdpp Require Import base option list strings pretty gmap.

Open Scope string_scope.
Open Scope list_scope.

(** ** JavaScript errors *)

(** The only errors the repository constructs itself are the integrity error
    of [decryptWallets] and the timeout of [sendMonadMintTx] (a [LibError]
    here); everything else is thrown by a library. *)
Inductive Error : Type :=
| IntegrityError
| TypeError (what : string)
| LibError (msg : string).

Definition integrity_message : string :=
  "Data integrity check failed. Possible tampering detected.".

(** [error.message] *)
Definition message (e : Error) : string :=
  match e with
  | IntegrityError => integrity_message
  | TypeError what => what
  | LibError msg => msg
  end.

#[global] Instance Error_eq_dec : EqDecision Error.
Proof. solve_decision. Defined.

(** ** Hex encoding of buffers: [buf.toString('hex')] and [Buffer.from(s, 'hex')] *)

Module Hex.

(** The digit of a nibble: character codes 48.. for 0-9 and 97.. for a-f. *)
Definition digit (n : N) : ascii :=
  ascii_of_N (if (n <? 10)%N then 48 + n else 87 + n)%N.

(** Node accepts both cases when decoding. *)
Definition value (c : ascii) : option N :=
  let code := N_of_ascii c in
  if ((48 <=? code) && (code <=? 57))%N then Some (code - 48)%N
  else if ((97 <=? code) && (code <=? 102))%N then Some (code - 87)%N
  else if ((65 <=? code) && (code <=? 70))%N then Some (code - 55)%N
  else None.

Definition byte_of_nibbles (hi lo : N) : byte :=
  default x00 (Byte.of_N (16 * hi + lo)).

(** [buf.toString('hex')]: two lower-case digits per byte. *)
Fixpoint encode (bs : list byte) : string :=
  match bs with
  | [] => EmptyString
  | b :: rest =>
      String (digit (Byte.to_N b / 16))
        (String (digit (Byte.to_N b mod 16)) (encode rest))
  end.

(** [Buffer.from(s, 'hex')]: decodes pairs of digits and stops, without an
    error, at the first pair that is not hexadecimal (or at a trailing odd
    character). *)
Fixpoint decode (s : string) : list byte :=
  match s with
  | String a (String b rest) =>
      match value a, value b with
      | Some hi, Some lo => byte_of_nibbles hi lo :: decode rest
      | _, _ => []
      end
  | _ => []
  end.

End Hex.

(** ** The encrypted wallet store *)

(** What [wallets.enc] holds once parsed. A property of a JavaScript object
    can be missing ([undefined]): each field is optional. *)
Record EncryptedVault : Type := mkVault {
  v_iv : option string;
  v_salt : option string;
  v_encryptedData : option string;
  v_hmac : option string
}.

Definition with_iv (iv : option string) (v : EncryptedVault) : EncryptedVault :=
  {| v_iv := iv; v_salt := v_salt v;
     v_encryptedData := v_encryptedData v; v_hmac := v_hmac v |}.

Definition with_encryptedData (ct : option string) (v : EncryptedVault) : EncryptedVault :=
  {| v_iv := v_iv v; v_salt := v_salt v; v_encryptedData := ct; v_hmac := v_hmac v |}.

Definition with_hmac (mac : option string) (v : EncryptedVault) : EncryptedVault :=
  {| v_iv := v_iv v; v_salt := v_salt v;
     v_encryptedData := v_encryptedData v; v_hmac := mac |}.

(** The primitive calls [decryptWallets] makes, in order; used to state that
    the MAC is checked before the cipher is touched. *)
Inductive CryptoCall : Type :=
| CallScrypt
| CallHmac
| CallDecipher
| CallJsonParse.

#[global] Instance CryptoCall_eq_dec : EqDecision CryptoCall.
Proof. solve_decision. Defined.

(** Log lines of the winston logger (level and text). *)
Inductive LogEntry : Type :=
| InfoLoaded (count : nat)            (* info  `Loaded ${wallets.length} wallets` *)
| WarnNoWallets                       (* warn  'No wallets found' *)
| ErrorLoadFailed (msg : string)      (* error `Failed to load wallets: ${error.message}` *)
| InfoSaved                           (* info  'Wallets saved successfully' *)
| ErrorHistorySave (msg : string)     (* error `Failed to save transaction history: ...` *)
| ErrorHistoryRead (msg : string).    (* error `Failed to retrieve transaction history: ...` *)

Definition is_error_level (l : LogEntry) : bool :=
  match l with
  | ErrorLoadFailed _ | ErrorHistorySave _ | ErrorHistoryRead _ => true
  | _ => false
  end.

(** A file of the data directory, as [JSON.parse(fs.readFileSync(path))] sees
    it: absent, present but unreadable as the expected JSON, or holding a
    value. Writing a file ([fs.writeFileSync]) is taken to succeed. *)
Inductive File (A : Type) : Type :=
| Missing
| Corrupt (e : Error)
| Holds (a : A).
Arguments Missing {A}.
Arguments Corrupt {A} e.
Arguments Holds {A} a.

(** The message of the [TypeError] of [Buffer.from(undefined, 'hex')]. *)
Definition invalid_arg_message : string :=
  "The first argument must be of type string or an instance of Buffer, ArrayBuffer, or Array or an Array-like Object. Received undefined".

(** The message of the [TypeError] of [hmac.update(undefined)] (Node puts
    the argument name in double quotes). *)
Definition invalid_data_message : string :=
  "The 'data' argument must be of type string or an instance of Buffer, TypedArray, or DataView. Received undefined".

(** The primitives of Node's [crypto] module and [JSON], for credentials of
    type [Cred] (the elements of the [wallets] array). *)
Class Crypto (Cred : Type) : Type := {
  (** [crypto.scryptSync(password, salt, 32)] *)
  scryptSync : string -> list byte -> list byte;
  (** [crypto.createHmac('sha256', key).update(data).digest()] *)
  hmac_sha256 : list byte -> string -> list byte;
  (** [createCipheriv('aes-256-cbc', key, iv)] applied to a UTF-8 string *)
  aes_256_cbc_encrypt : list byte -> list byte -> string -> list byte;
  (** [createDecipheriv('aes-256-cbc', key, iv)]: throws on a bad iv length
      or bad padding *)
  aes_256_cbc_decrypt : list byte -> list byte -> list byte -> Error + string;
  JSON_stringify : list Cred -> string;
  JSON_parse : string -> Error + list Cred
}.

(** The process state [loadWallets] touches: the [wallets] variable and the
    log. *)
Record Keyring (Cred : Type) : Type := mkKeyring {
  wallets : list Cred;
  logs : list LogEntry
}.
Arguments mkKeyring {Cred} _ _.
Arguments wallets {Cred} _.
Arguments logs {Cred} _.

Section Vault.

Context {Cred : Type} `{Crypto Cred}.

(** [encryptWallets(data, password)]; the two [crypto.randomBytes(16)]
    draws are the arguments [iv] and [salt]. *)
Definition encryptWallets (iv salt : list byte) (data : list Cred)
    (password : string) : EncryptedVault :=
  let key := scryptSync password salt in
  let encrypted := Hex.encode (aes_256_cbc_encrypt key iv (JSON_stringify data)) in
  let hmac := Hex.encode (hmac_sha256 key encrypted) in
  {| v_iv := Some (Hex.encode iv);
     v_salt := Some (Hex.encode salt);
     v_encryptedData := Some encrypted;
     v_hmac := Some hmac |}.

(** [decryptWallets(encryptedData, password)], with the primitive calls
    made on the way. [Buffer.from(undefined, 'hex')] and
    [hmac.update(undefined)] throw a [TypeError]. *)
Definition decryptWallets (v : EncryptedVault) (password : string)
    : list CryptoCall * (Error + list Cred) :=
  match v_iv v with
  | None => ([], inl (TypeError invalid_arg_message))
  | Some iv_hex =>
      let iv := Hex.decode iv_hex in
      match v_salt v with
      | None => ([], inl (TypeError invalid_arg_message))
      | Some salt_hex =>
          let salt := Hex.decode salt_hex in
          let key := scryptSync password salt in
          match v_encryptedData v with
          | None => ([CallScrypt], inl (TypeError invalid_data_message))
          | Some encrypted =>
              let hmac := Hex.encode (hmac_sha256 key encrypted) in
              if bool_decide (Some hmac = v_hmac v) then
                match aes_256_cbc_decrypt key iv (Hex.decode encrypted) with
                | inl e => ([CallScrypt; CallHmac; CallDecipher], inl e)
                | inr decrypted =>
                    ([CallScrypt; CallHmac; CallDecipher; CallJsonParse],
                     JSON_parse decrypted)
                end
              else ([CallScrypt; CallHmac], inl IntegrityError)
          end
      end
  end.

(** [loadWallets()]: [file] is [wallets.enc]. *)
Definition loadWallets (password : string) (file : File EncryptedVault)
    (st : Keyring Cred) : Keyring Cred :=
  let attempt : Error + option (list Cred) :=
    match file with
    | Missing => inr None
    | Corrupt e => inl e
    | Holds encryptedData =>
        match snd (decryptWallets encryptedData password) with
        | inl e => inl e
        | inr ws => inr (Some ws)
        end
    end in
  match attempt with
  | inr (Some ws) =>
      {| wallets := ws; logs := logs st ++ [InfoLoaded (length ws)] |}
  | inr None =>
      {| wallets := wallets st; logs := logs st ++ [WarnNoWallets] |}
  | inl error =>
      {| wallets := []; logs := logs st ++ [ErrorLoadFailed (message error)] |}
  end.

(** [saveWallets()] returns the new content of [wallets.enc]. *)
Definition saveWallets (iv salt : list byte) (password : string)
    (st : Keyring Cred) : File EncryptedVault * Keyring Cred :=
  (Holds (encryptWallets iv salt (wallets st) password),
   {| wallets := wallets st; logs := logs st ++ [InfoSaved] |}).

(** The tag [decryptWallets] recomputes for a ciphertext. *)
Definition expected_hmac (password salt_hex encrypted : string) : string :=
  Hex.encode (hmac_sha256 (scryptSync password (Hex.decode salt_hex)) encrypted).

(** The stored tag is the one [decryptWallets] recomputes. *)
Definition tag_matches (password : string) (v : EncryptedVault) : Prop :=
  exists salt_hex encrypted,
    v_salt v = Some salt_hex /\ v_encryptedData v = Some encrypted /\
    v_hmac v = Some (expected_hmac password salt_hex encrypted).

End Vault.

(** ** The transaction history ledger ([transactions.json]) *)

Inductive Status : Type := success | failed.

#[global] Instance Status_eq_dec : EqDecision Status.
Proof. solve_decision. Defined.

(** The object handed to [saveTxHistory]. *)
Record TxRecord : Type := mkTxRecord {
  tx_address : string;
  tx_txHash : option string;
  tx_error : option string;
  tx_status : Status
}.

(** [{ ...tx, timestamp: Date.now() }] *)
Record HistoryEntry : Type := mkEntry {
  h_tx : TxRecord;
  h_timestamp : Z
}.

(** The part of the process state the ledger functions touch. *)
Record Store : Type := mkStore {
  txHistoryFile : File (list HistoryEntry);
  logged : list LogEntry
}.

(** [arr.slice(start)]: a negative [start] counts from the end, and anything
    out of range is clamped. *)
Definition js_slice {A : Type} (start : Z) (arr : list A) : list A :=
  let len := Z.of_nat (length arr) in
  let k := if (start <? 0)%Z then Z.max (len + start) 0 else Z.min start len in
  drop (Z.to_nat k) arr.

(** [saveTxHistory(tx)]; [now] is what [Date.now()] returns. A file that
    exists but does not parse to an array makes the [try] block throw: the
    error is logged and nothing is written. *)
Definition saveTxHistory (tx : TxRecord) (now : Z) (st : Store) : Store :=
  let loaded : Error + list HistoryEntry :=
    match txHistoryFile st with
    | Missing => inr []
    | Corrupt e => inl e
    | Holds stored => inr stored
    end in
  match loaded with
  | inr history =>
      let history := history ++ [mkEntry tx now] in
      let history :=
        if bool_decide (100 < length history) then js_slice (-100) history
        else history in
      {| txHistoryFile := Holds history; logged := logged st |}
  | inl error =>
      {| txHistoryFile := txHistoryFile st;
         logged := logged st ++ [ErrorHistorySave (message error)] |}
  end.

(** [getTxHistory(limit = 10)] *)
Definition getTxHistory (limit : Z) (st : Store) : list HistoryEntry * Store :=
  match txHistoryFile st with
  | Holds history => (reverse (js_slice (- limit) history), st)
  | Missing => ([], st)
  | Corrupt error =>
      ([], {| txHistoryFile := txHistoryFile st;
              logged := logged st ++ [ErrorHistoryRead (message error)] |})
  end.

(** Appending a run of results, oldest first. *)
Definition saveAll (txs : list (TxRecord * Z)) (st : Store) : Store :=
  foldl (fun s r => saveTxHistory (fst r) (snd r) s) st txs.

(** The entries a run of results becomes. *)
Definition entries (txs : list (TxRecord * Z)) : list HistoryEntry :=
  map (fun r => mkEntry r.1 r.2) txs.

(** The last [n] elements of a list. *)
Definition keep_last {A : Type} (n : nat) (l : list A) : list A :=
  drop (length l - n) l.

Definition stored_history (st : Store) : list HistoryEntry :=
  match txHistoryFile st with
  | Holds h => h
  | _ => []
  end.

Definition ledger_size (st : Store) : nat := length (stored_history st).

Definition readable (st : Store) : Prop :=
  forall e, txHistoryFile st <> Corrupt e.

(** ** web3, the remote node and the configuration *)

(** [web3.eth.accounts.privateKeyToAccount(key)]: only the address is used. *)
Record Account : Type := mkAccount { address : string }.

(** The transaction object of [sendMonadMintTx] and [mintNFT] ([mintNFT]
    sets no nonce). *)
Record Tx : Type := mkTx {
  tx_from : string;
  tx_to : string;
  tx_data : string;
  tx_gas : Z;
  tx_gasPrice : Z;
  tx_chainId : Z;
  tx_nonce : option Z
}.

(** [signedTx.rawTransaction]: the encoded transaction and who signed it. *)
Record SignedTx : Type := mkSigned {
  signed_by : string;
  rawTransaction : Tx
}.

Record Receipt : Type := mkReceipt { transactionHash : string }.

(** The Telegram message that triggered a command. *)
Record Message : Type := mkMessage { chat_id : Z; from_id : Z }.

(** The [CONFIG] object. [WALLETS] is read by the [/mint] handler; the
    object literal of [server2.js] has no such entry, the second variant
    fills it from the environment. *)
Record Config : Type := mkConfig {
  EXPLORER_URL : string;
  CHAIN_ID : Z;
  GAS_PRICE : Z;
  GAS_LIMIT : Z;
  ADMIN_ID : Z;
  CONTRACT_ADDRESS : string;
  WALLETS : option (list string)
}.

(** The [CONFIG] of [server2.js] ([toWei('1', 'gwei')] is 10^9). *)
Definition CONFIG : Config :=
  {| EXPLORER_URL := "https://testnet.monadexplorer.com/tx/";
     CHAIN_ID := 10143;
     GAS_PRICE := 1000000000;
     GAS_LIMIT := 500000;
     ADMIN_ID := 6668515216;
     CONTRACT_ADDRESS := "0x1aa689f843077dca043df7d0dc0b3f62dbc6180d";
     WALLETS := None |}.

Definition with_wallets (keys : list string) (cfg : Config) : Config :=
  {| EXPLORER_URL := EXPLORER_URL cfg; CHAIN_ID := CHAIN_ID cfg;
     GAS_PRICE := GAS_PRICE cfg; GAS_LIMIT := GAS_LIMIT cfg;
     ADMIN_ID := ADMIN_ID cfg; CONTRACT_ADDRESS := CONTRACT_ADDRESS cfg;
     WALLETS := Some keys |}.

(** The library and the node behind it. The node is a state machine of its
    own: every request may change it, and a submission reports after how
    many milliseconds its promise settles. *)
Class Web3 : Type := {
  Remote : Type;
  privateKeyToAccount : string -> Error + Account;
  sign_failure : Account -> Tx -> option Error;
  eth_getTransactionCount : Remote -> string -> Remote * (Error + Z);
  eth_getBalance : Remote -> string -> Remote * (Error + Z);
  eth_sendSignedTransaction : Remote -> SignedTx -> Remote * Z * (Error + Receipt)
}.

(** Texts passed to [bot.sendMessage]. *)
Inductive Notification : Type :=
| MintSuccessful (explorer hash : string)   (* server2: 'Mint successful!' + link *)
| Retrying (n : nat)                        (* server2: `Retrying (${n}/2)...` *)
| FinalAttemptFailed (msg : string)         (* server2: `Final attempt failed: ${msg}` *)
| BatchComplete                             (* server2: 'Batch mint complete!' *)
| SomeMintsFailed                           (* server2: 'Some mints failed, check logs' *)
| ContractNotInitialized                    (* mintNFT *)
| InsufficientBalance (addr : string) (has needs : Z)
| MintingFrom (addr : string)
| MintSuccessfulFrom (addr explorer hash : string)
| MintFailed (msg : string).

(** What the process asked of the node, in the order the node answered. *)
Inductive RemoteCall : Type :=
| FetchedNonce (addr : string) (answer : Error + Z)
| FetchedBalance (addr : string) (answer : Error + Z)
| Submitted (s : SignedTx) (outcome : Error + Receipt).

(** The effects of the two mint functions. *)
Inductive Event : Type -> Type :=
| ReadConfig : Event Config
| ReadContract : Event (option string)
| PrivateKeyToAccount (key : string) : Event Account
| EncodeMint : Event string                     (* [contract.methods.mint().encodeABI()] *)
| GetTransactionCount (addr : string) : Event Z (* [getTransactionCount(addr, block)] *)
| GetBalance (addr : string) : Event Z
| SignTransaction (acct : Account) (tx : Tx) : Event SignedTx
    (* the signature itself; for a transaction without nonce see [signTransaction] *)
| SendSignedTransaction (s : SignedTx) (timeout : option Z) : Event Receipt
| SendMessage (chat : Z) (text : Notification) : Event unit
| SaveTxHistory (tx : TxRecord) : Event unit.

(** ** Asynchronous functions as trees of effects

    [Call] is an effect carried out on the spot; [Await] suspends the
    function until the event loop resumes it with the answer. The
    continuation receives either the value or the error thrown. *)
Inductive prog (A : Type) : Type :=
| Ret (a : A)
| Throw (e : Error)
| Call {X : Type} (ev : Event X) (k : Error + X -> prog A)
| Await {X : Type} (ev : Event X) (k : Error + X -> prog A).
Arguments Ret {A} a.
Arguments Throw {A} e.
Arguments Call {A X} ev k.
Arguments Await {A X} ev k.

Fixpoint bind {A B : Type} (p : prog A) (f : A -> prog B) : prog B :=
  match p with
  | Ret a => f a
  | Throw e => Throw e
  | Call ev k => Call ev (fun r => bind (k r) f)
  | Await ev k => Await ev (fun r => bind (k r) f)
  end.

(** [try { p } catch (error) { h error }] *)
Fixpoint try_catch {A : Type} (p : prog A) (h : Error -> prog A) : prog A :=
  match p with
  | Ret a => Ret a
  | Throw e => h e
  | Call ev k => Call ev (fun r => try_catch (k r) h)
  | Await ev k => Await ev (fun r => try_catch (k r) h)
  end.

Definition settle_result {A : Type} (r : Error + A) : prog A :=
  match r with
  | inl e => Throw e
  | inr a => Ret a
  end.

Definition call {X : Type} (ev : Event X) : prog X := Call ev settle_result.
Definition await {X : Type} (ev : Event X) : prog X := Await ev settle_result.

#[global] Instance prog_ret : MRet prog := fun _ a => Ret a.
#[global] Instance prog_bind : MBind prog := fun _ _ f p => bind p f.

(** The state of a promise: pending, rejected or fulfilled. *)
Definition settled {A : Type} (p : prog A) : option (Error + A) :=
  match p with
  | Ret a => Some (inr a)
  | Throw e => Some (inl e)
  | _ => None
  end.

(** Every effect of a call satisfies [P]. *)
Fixpoint only_events {A : Type} (P : forall X, Event X -> Prop) (p : prog A) : Prop :=
  match p with
  | Ret _ | Throw _ => True
  | Call ev k | Await ev k => P _ ev /\ forall r, only_events P (k r)
  end.

Definition not_a_balance_request (X : Type) (ev : Event X) : Prop :=
  match ev with
  | GetBalance _ => False
  | _ => True
  end.

(** ** The two mint functions *)

(** The body of the [try] block of [sendMonadMintTx]. *)
Definition attempt (walletKey : string) (msg : Message) : prog Receipt :=
  account ← call (PrivateKeyToAccount walletKey);
  nonce ← await (GetTransactionCount (address account));
  cfg ← call ReadConfig;
  data ← call EncodeMint;
  let tx := {| tx_from := address account;
               tx_to := CONTRACT_ADDRESS cfg;
               tx_data := data;
               tx_gas := GAS_LIMIT cfg;
               tx_gasPrice := GAS_PRICE cfg;
               tx_chainId := CHAIN_ID cfg;
               tx_nonce := Some nonce |} in
  signedTx ← await (SignTransaction account tx);
  receipt ← await (SendSignedTransaction signedTx (Some 60000%Z));
  call (SendMessage (chat_id msg)
          (MintSuccessful (EXPLORER_URL cfg) (transactionHash receipt)));;
  call (SaveTxHistory {| tx_address := address account;
                         tx_txHash := Some (transactionHash receipt);
                         tx_error := None;
                         tx_status := success |});;
  Ret receipt.

(** The last part of the [catch] block: the final message and the failed
    history entry, whose address is computed from the key once more. *)
Definition final_failure (walletKey : string) (msg : Message) (error : Error)
    : prog (option Receipt) :=
  call (SendMessage (chat_id msg) (FinalAttemptFailed (message error)));;
  account ← call (PrivateKeyToAccount walletKey);
  call (SaveTxHistory {| tx_address := address account;
                         tx_txHash := None;
                         tx_error := Some (message error);
                         tx_status := failed |});;
  Ret None.

(** [sendMonadMintTx(walletKey, msg, retryCount)]. The recursion of the
    source is on [retryCount] growing to 2; [budget] is the number of
    recursive calls still possible, [2 - retryCount] (see
    [sendMonadMintTx_unfold] for the equation of the source). *)
Fixpoint sendMonadMintTx_from (budget : nat) (walletKey : string) (msg : Message)
    (retryCount : nat) : prog (option Receipt) :=
  try_catch
    (receipt ← attempt walletKey msg; Ret (Some receipt))
    (fun error =>
       if (retryCount <? 2)%nat then
         call (SendMessage (chat_id msg) (Retrying (retryCount + 1)));;
         match budget with
         | S budget' => sendMonadMintTx_from budget' walletKey msg (retryCount + 1)
         | O => Throw error
         end
       else final_failure walletKey msg error).

Definition sendMonadMintTx (walletKey : string) (msg : Message)
    (retryCount : nat) : prog (option Receipt) :=
  sendMonadMintTx_from (2 - retryCount) walletKey msg retryCount.

(** [errorMsg] of [mintNFT]: cut to 100 characters. *)
Definition shorten (errorMsg : string) : string :=
  if bool_decide (100 < String.length errorMsg)
  then (substring 0 100 errorMsg ++ "...")%string
  else errorMsg.

Definition normalize_key (walletKey : string) : string :=
  if String.prefix "0x" walletKey then walletKey else ("0x" ++ walletKey)%string.

(** [account.signTransaction(tx)]. A transaction that comes without a
    nonce is completed by the library first: it asks the node for the
    transaction count of the sender (at the library's default block; the
    node of this file has one transaction count per address) and signs the
    transaction with that nonce. *)
Definition signTransaction (account : Account) (tx : Tx) : prog SignedTx :=
  match tx_nonce tx with
  | Some _ => await (SignTransaction account tx)
  | None =>
      nonce ← await (GetTransactionCount (address account));
      await (SignTransaction account
               {| tx_from := tx_from tx; tx_to := tx_to tx; tx_data := tx_data tx;
                  tx_gas := tx_gas tx; tx_gasPrice := tx_gasPrice tx;
                  tx_chainId := tx_chainId tx; tx_nonce := Some nonce |})
  end.

(** [mintNFT(walletKey, chatId)] of the second bot variant. Its [sendMessage]
    helper is awaited and catches its own errors: [SendMessage] stands for
    one call of the helper with a text for the chat. *)
Definition mintNFT (walletKey : string) (chatId : Z) : prog unit :=
  c ← call ReadContract;
  match c with
  | None => await (SendMessage chatId ContractNotInitialized)
  | Some _ =>
      try_catch
        (account ← call (PrivateKeyToAccount (normalize_key walletKey));
         balance ← await (GetBalance (address account));
         cfg ← call ReadConfig;
         let gasCost := (GAS_LIMIT cfg * GAS_PRICE cfg)%Z in
         if (balance <? gasCost)%Z then
           await (SendMessage chatId
                    (InsufficientBalance (address account) balance gasCost))
         else
           data ← call EncodeMint;
           let tx := {| tx_from := address account;
                        tx_to := CONTRACT_ADDRESS cfg;
                        tx_data := data;
                        tx_gas := GAS_LIMIT cfg;
                        tx_gasPrice := GAS_PRICE cfg;
                        tx_chainId := CHAIN_ID cfg;
                        tx_nonce := None |} in
           await (SendMessage chatId (MintingFrom (address account)));;
           signedTx ← signTransaction account tx;
           receipt ← await (SendSignedTransaction signedTx None);
           await (SendMessage chatId
                    (MintSuccessfulFrom (address account) (EXPLORER_URL cfg)
                       (transactionHash receipt))))
        (fun error => await (SendMessage chatId (MintFailed (shorten (message error)))))
  end.

(** The calldata of [mint()]. *)
Definition mint_selector : string := "0x1249c58b".

(** The transaction [sendMonadMintTx] builds for a nonce. *)
Definition mint_tx (cfg : Config) (from : string) (nonce : option Z) : Tx :=
  {| tx_from := from;
     tx_to := CONTRACT_ADDRESS cfg;
     tx_data := mint_selector;
     tx_gas := GAS_LIMIT cfg;
     tx_gasPrice := GAS_PRICE cfg;
     tx_chainId := CHAIN_ID cfg;
     tx_nonce := nonce |}.

Definition signed_mint (cfg : Config) (from : string) (nonce : Z) : SignedTx :=
  mkSigned from (mint_tx cfg from (Some nonce)).

Definition success_record (addr : string) (receipt : Receipt) : TxRecord :=
  {| tx_address := addr; tx_txHash := Some (transactionHash receipt);
     tx_error := None; tx_status := success |}.

Definition failure_record (addr : string) (error : Error) : TxRecord :=
  {| tx_address := addr; tx_txHash := None;
     tx_error := Some (message error); tx_status := failed |}.

(** ** Reading the trace of node requests *)

(** The nonces the node handed out for [addr], in the order it answered. *)
Definition fetched_nonces (addr : string) (cs : list RemoteCall) : list Z :=
  omap (fun c =>
          match c with
          | FetchedNonce a (inr n) => if decide (a = addr) then Some n else None
          | _ => None
          end) cs.

(** The nonces of the transactions submitted for [addr], in submission
    order. *)
Definition submitted_nonces (addr : string) (cs : list RemoteCall) : list Z :=
  omap (fun c =>
          match c with
          | Submitted s _ =>
              if decide (signed_by s = addr) then tx_nonce (rawTransaction s) else None
          | _ => None
          end) cs.

(** The addresses whose balance was asked for. *)
Definition balance_requests (cs : list RemoteCall) : list string :=
  omap (fun c => match c with FetchedBalance a _ => Some a | _ => None end) cs.

Fixpoint strictly_increasing (l : list Z) : Prop :=
  match l with
  | [] => True
  | x :: rest => Forall (fun y => (x < y)%Z) rest /\ strictly_increasing rest
  end.

Fixpoint non_decreasing (l : list Z) : Prop :=
  match l with
  | [] => True
  | x :: rest => Forall (fun y => (x <= y)%Z) rest /\ non_decreasing rest
  end.

(** Every submission in the trace carries a nonce the node handed out for
    its sender earlier in the trace ([seen] is what came before [cs]). *)
Fixpoint nonces_fetched_first (seen cs : list RemoteCall) : Prop :=
  match cs with
  | [] => True
  | c :: rest =>
      match c with
      | Submitted s _ =>
          exists n, tx_nonce (rawTransaction s) = Some n /\
                    FetchedNonce (signed_by s) (inr n) ∈ seen
      | _ => True
      end /\ nonces_fetched_first (seen ++ [c]) rest
  end.

(** The nonce a call holds: the one of its latest successful
    [getTransactionCount]. *)
Definition Held : Type := option (string * Z).

Definition held_in (own : Held) (cs : list RemoteCall) : Prop :=
  match own with
  | Some (a, n) => FetchedNonce a (inr n) ∈ cs
  | None => True
  end.

Definition submits_held {X : Type} (own : Held) (ev : Event X) : Prop :=
  match ev with
  | SendSignedTransaction s _ =>
      exists n, tx_nonce (rawTransaction s) = Some n /\ own = Some (signed_by s, n)
  | _ => True
  end.

Definition next_held {X : Type} (own : Held) (ev : Event X) : Error + X -> Held :=
  match ev in Event X return Error + X -> Held with
  | GetTransactionCount a =>
      fun r => match r with inr n => Some (a, n) | inl _ => own end
  | _ => fun _ => own
  end.

(** ** The process and its world *)

(** The error of the 60 s timer of [sendMonadMintTx]. *)
Definition timed_out : Error := LibError "Transaction timed out".

(** [Promise.race([send, timer])]: the timer wins when the send has not
    settled before it fires. The request itself is not withdrawn: the node
    keeps whatever state the submission left it in. *)
Definition race (timeout : option Z) (latency : Z) (outcome : Error + Receipt)
    : Error + Receipt :=
  match timeout with
  | Some ms => if (latency <? ms)%Z then outcome else inl timed_out
  | None => outcome
  end.

(** [Promise.all(promises)] as seen at some moment: rejected once one of the
    promises is, fulfilled once all are, pending otherwise. *)
Fixpoint Promise_all {A : Type} (promises : list (option (Error + A)))
    : option (Error + list A) :=
  match promises with
  | [] => Some (inr [])
  | p :: rest =>
      match p, Promise_all rest with
      | Some (inl e), _ => Some (inl e)
      | _, Some (inl e) => Some (inl e)
      | Some (inr a), Some (inr others) => Some (inr (a :: others))
      | _, _ => None
      end
  end.

Section Process.

Context `{Web3}.

Record World : Type := mkWorld {
  remote : Remote;
  config : Config;
  contract : option string;          (* the global [contract], once initialised *)
  store : Store;                     (* [transactions.json] and the log *)
  outbox : list (Z * Notification);  (* [bot.sendMessage(chat, text)] *)
  calls : list RemoteCall;
  clock : Z                          (* [Date.now()] *)
}.

Definition with_remote (r : Remote) (c : RemoteCall) (w : World) : World :=
  {| remote := r; config := config w; contract := contract w; store := store w;
     outbox := outbox w; calls := calls w ++ [c]; clock := clock w |}.

Definition with_store (s : Store) (w : World) : World :=
  {| remote := remote w; config := config w; contract := contract w; store := s;
     outbox := outbox w; calls := calls w; clock := clock w |}.

Definition with_message (chat : Z) (text : Notification) (w : World) : World :=
  {| remote := remote w; config := config w; contract := contract w;
     store := store w; outbox := outbox w ++ [(chat, text)];
     calls := calls w; clock := clock w |}.

(** One effect, carried out against the world. *)
Definition handle {X : Type} (ev : Event X) (w : World) : World * (Error + X) :=
  match ev in Event X return World * (Error + X) with
  | ReadConfig => (w, inr (config w))
  | ReadContract => (w, inr (contract w))
  | PrivateKeyToAccount key => (w, privateKeyToAccount key)
  | EncodeMint =>
      match contract w with
      | Some _ => (w, inr mint_selector)
      | None =>
          (w, inl (TypeError "Cannot read properties of undefined (reading 'methods')"))
      end
  | GetTransactionCount addr =>
      let '(r, answer) := eth_getTransactionCount (remote w) addr in
      (with_remote r (FetchedNonce addr answer) w, answer)
  | GetBalance addr =>
      let '(r, answer) := eth_getBalance (remote w) addr in
      (with_remote r (FetchedBalance addr answer) w, answer)
  | SignTransaction acct tx =>
      match sign_failure acct tx with
      | Some e => (w, inl e)
      | None => (w, inr (mkSigned (address acct) tx))
      end
  | SendSignedTransaction s timeout =>
      let '(r, latency, outcome) := eth_sendSignedTransaction (remote w) s in
      let settled := race timeout latency outcome in
      (with_remote r (Submitted s settled) w, settled)
  | SendMessage chat text => (with_message chat text w, inr tt)
  | SaveTxHistory tx => (with_store (saveTxHistory tx (clock w) (store w)) w, inr tt)
  end.

(** *** One function call run to its end

    Every awaited promise is answered before anything else happens: the
    behaviour of a single call with the event loop otherwise idle. [inl]
    is a rejected promise, [inr] a fulfilled one. *)
Fixpoint exec {A : Type} (p : prog A) (w : World) : World * (Error + A) :=
  match p with
  | Ret a => (w, inr a)
  | Throw e => (w, inl e)
  | Call ev k => let '(w', r) := handle ev w in exec (k r) w'
  | Await ev k => let '(w', r) := handle ev w in exec (k r) w'
  end.

(** *** Several calls in flight

    A call runs without interruption up to its next [Await]
    (run-to-completion of the event loop); the schedule says which
    suspended call is resumed next. The node answers a request at the
    moment the call that made it is resumed. *)
Fixpoint settle {A : Type} (p : prog A) (w : World) : prog A * World :=
  match p with
  | Call ev k => let '(w', r) := handle ev w in settle (k r) w'
  | _ => (p, w)
  end.

Definition resume {A : Type} (p : prog A) (w : World) : prog A * World :=
  match p with
  | Await ev k => let '(w', r) := handle ev w in settle (k r) w'
  | _ => (p, w)
  end.

Definition Pool (A : Type) : Type := list (prog A) * World.

Definition step {A : Type} (st : Pool A) (i : nat) : Pool A :=
  match st.1 !! i with
  | Some p => let '(p', w') := resume p st.2 in (<[i:=p']> st.1, w')
  | None => st
  end.

Definition run {A : Type} (schedule : list nat) (st : Pool A) : Pool A :=
  foldl step st schedule.

(** [ps.map(start)]: the calls are started one after the other, each
    running up to its first [Await]. *)
Definition spawn_all {A : Type} (ps : list (prog A)) (w : World) : Pool A :=
  foldl (fun st p => let '(p', w') := settle p st.2 in (st.1 ++ [p'], w'))
    ([], w) ps.

(** [wallets.map(wallet => sendMonadMintTx(wallet, msg))] *)
Definition mint_batch (keys : list string) (msg : Message) (w : World)
    : Pool (option Receipt) :=
  spawn_all (map (fun wallet => sendMonadMintTx wallet msg 0) keys) w.

(** The [/mint] handler of [server2.js], up to the start of the calls:
    nothing for anyone but the admin, a [TypeError] when [CONFIG.WALLETS]
    is undefined. *)
Definition on_mint (msg : Message) (w : World) : Error + Pool (option Receipt) :=
  if bool_decide (from_id msg = ADMIN_ID (config w)) then
    match WALLETS (config w) with
    | Some keys => inr (mint_batch keys msg w)
    | None => inl (TypeError "Cannot read properties of undefined (reading 'map')")
    end
  else inr ([], w).

(** What the [.then] or [.catch] of the handler sends once [Promise.all]
    has settled. *)
Definition batch_notice {A : Type} (st : Pool A) : option Notification :=
  match Promise_all (map settled st.1) with
  | Some (inr _) => Some BatchComplete
  | Some (inl _) => Some SomeMintsFailed
  | None => None
  end.

(** [validatePrivateKey(key)] *)
Definition validatePrivateKey (key : string) : bool :=
  match privateKeyToAccount key with
  | inr account => negb (String.eqb (address account) "")
  | inl _ => false
  end.

(** A call is well behaved when, whatever the node answers, everything it
    submits carries the nonce it holds at that moment. *)
Fixpoint submits_own_nonce {A : Type} (own : Held) (p : prog A) : Prop :=
  match p with
  | Ret _ | Throw _ => True
  | Call ev k | Await ev k =>
      submits_held own ev /\
      forall w : World,
        submits_own_nonce (next_held own ev (handle ev w).2) (k (handle ev w).2)
  end.

Definition task_ok {A : Type} (cs : list RemoteCall) (p : prog A) : Prop :=
  exists own, submits_own_nonce own p /\ held_in own cs.

(** *** Invariants of a run *)

(** Every submission so far carried a nonce fetched for its sender before,
    and every call in flight is well behaved. *)
Definition pool_held {A : Type} (st : Pool A) : Prop :=
  nonces_fetched_first [] (calls st.2) /\ Forall (task_ok (calls st.2)) st.1.

(** For a node with a pending count per address: the nonces handed out for
    an address never went down, and none exceeds the count. *)
Variable pending_count : Remote -> string -> Z.

(** What is asked of such a node: no request makes the pending count of
    an address smaller, and the answer to [getTransactionCount] lies
    between the count before and the count after the request. *)
Definition count_never_decreases : Prop :=
  (forall r a r' n,
     eth_getTransactionCount r a = (r', inr n) ->
     (pending_count r a <= n <= pending_count r' a)%Z) /\
  (forall r a r' answer b,
     eth_getTransactionCount r a = (r', answer) ->
     (pending_count r b <= pending_count r' b)%Z) /\
  (forall r a r' answer b,
     eth_getBalance r a = (r', answer) ->
     (pending_count r b <= pending_count r' b)%Z) /\
  (forall r s r' latency outcome b,
     eth_sendSignedTransaction r s = (r', latency, outcome) ->
     (pending_count r b <= pending_count r' b)%Z).

Definition counts_ok (w : World) : Prop :=
  forall a,
    non_decreasing (fetched_nonces a (calls w)) /\
    Forall (fun n => (n <= pending_count (remote w) a)%Z) (fetched_nonces a (calls w)).

End Process.

(** ** A small node to run the functions against

    A node that keeps a pending transaction count and a balance per address.
    It accepts a submission whose sender can pay [gas * gasPrice] and whose
    nonce, when the transaction has one, is the sender's pending count, and
    rejects any other. [delays] gives the time each of the next submissions
    takes to settle (none when the list is exhausted); a submission that
    outlasts the caller's timer is still processed. *)
Module TestNet.

Record Node : Type := mkNode {
  pending : gmap string Z;
  balances : gmap string Z;
  delays : list Z
}.

Definition pending_of (n : Node) (addr : string) : Z := default 0%Z (pending n !! addr).
Definition balance_of (n : Node) (addr : string) : Z := default 0%Z (balances n !! addr).

Definition key_error : Error := LibError "Private key must be 32 bytes long".
Definition funds_error : Error := LibError "insufficient funds for gas * price + value".
Definition nonce_error : Error := LibError "nonce too low".

(** A key is 32 bytes in hex, with or without the [0x] prefix; the address
    stands for the one derived from it. *)
Definition account_of (key : string) : Error + Account :=
  let k := normalize_key key in
  if bool_decide (String.length k = 66)
  then inr (mkAccount ("0x" ++ substring 26 40 k)%string)
  else inl key_error.

Definition submit (n : Node) (s : SignedTx) : Node * Z * (Error + Receipt) :=
  let delay := default 0%Z (head (delays n)) in
  let rest := tail (delays n) in
  let sender := signed_by s in
  let tx := rawTransaction s in
  let cost := (tx_gas tx * tx_gasPrice tx)%Z in
  let count := pending_of n sender in
  if (balance_of n sender <? cost)%Z then
    (mkNode (pending n) (balances n) rest, delay, inl funds_error)
  else if bool_decide (default count (tx_nonce tx) = count) then
    (mkNode (<[sender := (count + 1)%Z]> (pending n))
            (<[sender := (balance_of n sender - cost)%Z]> (balances n)) rest,
     delay,
     inr (mkReceipt ("0xtx:" ++ sender ++ ":" ++ pretty count)%string))
  else
    (mkNode (pending n) (balances n) rest, delay, inl nonce_error).

Definition web3 : Web3 :=
  {| Remote := Node;
     privateKeyToAccount := account_of;
     sign_failure := fun _ _ => None;
     eth_getTransactionCount := fun n addr => (n, inr (pending_of n addr));
     eth_getBalance := fun n addr => (n, inr (balance_of n addr));
     eth_sendSignedTransaction := submit |}.

Definition alice_key : string :=
  "0x00000000000000000000000000000000000000000000000000000000000a11ce".
Definition alice : string := "0x00000000000000000000000000000000000a11ce".

Definition bob_key : string :=
  "0000000000000000000000000000000000000000000000000000000000000b0b".
Definition bob : string := "0x0000000000000000000000000000000000000b0b".

(** A key that is not 32 bytes long. *)
Definition bad_key : string := "not-a-private-key".

(** [/mint] sent by the admin. *)
Definition msg : Message := {| chat_id := 7; from_id := 6668515216 |}.

(** A started bot: contract initialised, no history file yet. *)
Definition world (n : Node) : @World web3 :=
  {| remote := n : @Remote web3;
     config := CONFIG;
     contract := Some (CONTRACT_ADDRESS CONFIG);
     store := {| txHistoryFile := Missing; logged := [] |};
     outbox := [];
     calls := [];
     clock := 1700000000000 |}.

(** The same bot with [CONFIG.WALLETS] set. *)
Definition world_with (keys : list string) (n : Node) : @World web3 :=
  {| remote := n : @Remote web3;
     config := with_wallets keys CONFIG;
     contract := Some (CONTRACT_ADDRESS CONFIG);
     store := {| txHistoryFile := Missing; logged := [] |};
     outbox := [];
     calls := [];
     clock := 1700000000000 |}.

Definition funded (addrs : list string) (delays : list Z) : Node :=
  {| pending := ∅;
     balances := list_to_map (map (fun a => (a, 1000000000000000000%Z)) addrs);
     delays := delays |}.

Definition unfunded (delays : list Z) : Node :=
  {| pending := ∅; balances := ∅; delays := delays |}.

(** Two submissions outlast the 60 s timer (the node processes them all the
    same), the third settles in time. *)
Definition slow_node : Node := funded [alice] [60000; 70000; 5]%Z.

(** [/mint] with the same wallet listed twice, each call resumed in turn
    until both are done. *)
Definition double_mint : Pool (option Receipt) :=
  run [0; 1; 0; 1; 0; 1; 1; 1; 1]
    (mint_batch [alice_key; alice_key] msg (world (funded [alice] []))).

(** [/mint] with a key the library refuses and a good one: the batch as it
    stands once the calls are started, and after the second call has been
    resumed to its end. *)
Definition mixed_batch_started : Pool (option Receipt) :=
  mint_batch [bad_key; bob_key] msg (world (funded [bob] [])).

Definition mixed_batch_done : Pool (option Receipt) :=
  run [1; 1; 1] mixed_batch_started.

(** 150 results, told apart by their message and time. *)
Definition sample_results : list (TxRecord * Z) :=
  map (fun i => (failure_record alice (LibError (pretty i)), 1700000000000 + Z.of_nat i)%Z)
    (seq 0 150).

Definition fresh_store : Store := {| txHistoryFile := Missing; logged := [] |}.

End TestNet.

(** ** Stand-ins for the crypto primitives

    Enough structure to run the vault functions on concrete data: the key is
    the password followed by the salt, the tag is the key followed by the
    data, the cipher XORs the iv into the first 16 bytes (as CBC does before
    the block cipher, which is the identity here), and a credential list is
    written one credential per line. None of this is cryptography. *)
Module Standin.

Definition xor_byte (a b : byte) : byte :=
  default x00 (Byte.of_N (N.lxor (Byte.to_N a) (Byte.to_N b))).

Fixpoint xor_prefix (mask bs : list byte) : list byte :=
  match mask, bs with
  | m :: mask', b :: bs' => xor_byte m b :: xor_prefix mask' bs'
  | _, _ => bs
  end.

Fixpoint lines (s acc : string) : list string :=
  match s with
  | EmptyString => []
  | String c rest =>
      if Ascii.eqb c "010"%char then String.rev acc :: lines rest EmptyString
      else lines rest (String c acc)
  end.

Definition crypto : Crypto string :=
  {| scryptSync := fun password salt => list_byte_of_string password ++ salt;
     hmac_sha256 := fun key data => key ++ list_byte_of_string data;
     aes_256_cbc_encrypt := fun _ iv text => xor_prefix iv (list_byte_of_string text);
     aes_256_cbc_decrypt := fun _ iv bytes =>
       if bool_decide (length iv = 16)
       then inr (string_of_list_byte (xor_prefix iv bytes))
       else inl (LibError "Invalid initialization vector");
     JSON_stringify := fun creds =>
       String.concat "" (map (fun c => c ++ String "010" "")%string creds);
     JSON_parse := fun s => inr (lines s EmptyString) |}.

Definition iv : list byte :=
  [x01; x02; x03; x04; x05; x06; x07; x08; x09; x0a; x0b; x0c; x0d; x0e; x0f; x10].
Definition salt : list byte :=
  [xa0; xa1; xa2; xa3; xa4; xa5; xa6; xa7; xa8; xa9; xaa; xab; xac; xad; xae; xaf].
Definition password : string := "your-strong-password".
Definition creds : list string :=
  ["0x00000000000000000000000000000000000000000000000000000000000a11ce";
   "0x0000000000000000000000000000000000000000000000000000000000000b0b"].

Definition vault : EncryptedVault := @encryptWallets string crypto iv salt creds password.

Definition vault_without_iv : EncryptedVault := with_iv None vault.

Definition empty_keyring : Keyring string := mkKeyring [] [].

End Standin.

(** ** Text helpers

    A JavaScript string is taken as its sequence of code units, one [ascii]
    each; what follows is exact for strings whose code units are all below
    256. *)

Definition chars (s : string) : list ascii := list_ascii_of_string s.
Definition text (cs : list ascii) : string := string_of_list_ascii cs.

(** The code units that [.] in a regular expression does not match. *)
Definition is_line_terminator (c : ascii) : bool :=
  let n := N_of_ascii c in ((n =? 10) || (n =? 13))%N.

(** The code units that [String.prototype.trim] removes: tab, line feed,
    vertical tab, form feed, carriage return, space, no-break space. *)
Definition is_white_space (c : ascii) : bool :=
  let n := N_of_ascii c in
  ((9 <=? n) && (n <=? 13) || (n =? 32) || (n =? 160))%N.

Fixpoint trim_start (cs : list ascii) : list ascii :=
  match cs with
  | c :: rest => if is_white_space c then trim_start rest else cs
  | [] => []
  end.

Definition trim_end (cs : list ascii) : list ascii :=
  reverse (trim_start (reverse cs)).

(** [s.trim()] *)
Definition trim (s : string) : string := text (trim_end (trim_start (chars s))).

(** [key.replace(/^(.{6}).+(.{4})$/, '$1...$2')]: the pattern matches a
    string of at least 11 code units on a single line, and then all of it;
    any other string is left as it is. *)
Definition mask (key : string) : string :=
  let cs := chars key in
  if bool_decide (11 <= length cs) && forallb (fun c => negb (is_line_terminator c)) cs
  then text (take 6 cs ++ chars "..." ++ drop (length cs - 4) cs)
  else key.

(** [maskSensitiveData]: what becomes of the [privateKey] field of a log
    record ([None] when the record has none; the empty string is falsy). *)
Definition maskSensitiveData (privateKey : option string) : option string :=
  match privateKey with
  | Some key => if String.eqb key "" then Some key else Some (mask key)
  | None => None
  end.

(** [sanitizeInput(input)] *)
Definition sanitizeInput (input : string) : string :=
  let no_angle :=
    List.filter (fun c => negb (Ascii.eqb c "<" || Ascii.eqb c ">")) (chars input) in
  let no_tick :=
    map (fun c => if Ascii.eqb c "`" then "'"%char else c) no_angle in
  trim (text no_tick).

(** ** The [/history] command of [server2.js] *)

(** One numbered block of the reply. The date is kept as the timestamp
    ([toLocaleString] depends on the locale of the host). *)
Record HistoryLine : Type := mkLine {
  line_number : nat;
  line_ok : bool;          (* the check mark or the cross *)
  line_date : Z;
  line_detail : string     (* after [TX: ] or [Error: ] *)
}.

Inductive HistoryReply : Type :=
| NoHistoryFound
| RecentTransactions (lines : list HistoryLine).

(** A value inside a template literal. *)
Definition js_text (v : option string) : string := default "undefined" v.

Definition history_line (cfg : Config) (index : nat) (tx : HistoryEntry) : HistoryLine :=
  {| line_number := index + 1;
     line_ok := bool_decide (tx_status (h_tx tx) = success);
     line_date := h_timestamp tx;
     line_detail :=
       if bool_decide (tx_status (h_tx tx) = success)
       then (EXPLORER_URL cfg ++ js_text (tx_txHash (h_tx tx)))%string
       else js_text (tx_error (h_tx tx)) |}.

(** The handler: what is sent to which chat, and the store afterwards. *)
Definition on_history (msg : Message) (cfg : Config) (st : Store)
    : list (Z * HistoryReply) * Store :=
  if bool_decide (from_id msg = ADMIN_ID cfg) then
    let '(history, st') := getTxHistory 10 st in
    if bool_decide (length history = 0)
    then ([(chat_id msg, NoHistoryFound)], st')
    else ([(chat_id msg, RecentTransactions (imap (history_line cfg) history))], st')
  else ([], st).

(** ** Reading more of the trace and of the outbox *)

Definition is_submission (c : RemoteCall) : bool :=
  match c with Submitted _ _ => true | _ => false end.

Definition is_nonce_request (c : RemoteCall) : bool :=
  match c with FetchedNonce _ _ => true | _ => false end.

(** The message that ends a [sendMonadMintTx] call. *)
Definition is_final_notice (n : Notification) : bool :=
  match n with
  | MintSuccessful _ _ | FinalAttemptFailed _ => true
  | _ => false
  end.

(** [Retrying (first/2)...] up to [Retrying (first + count - 1)/2...]. *)
Definition retry_notices (chat : Z) (first count : nat) : list (Z * Notification) :=
  map (fun n => (chat, Retrying n)) (seq first count).

(** What one attempt of [sendMonadMintTx] may ask of the node: nothing, the
    pending count only, or the pending count and then one submission that
    carries the count as its nonce. *)
Definition attempt_requests (cs : list RemoteCall) : Prop :=
  cs = [] \/
  (exists a answer, cs = [FetchedNonce a answer]) \/
  (exists a n s outcome,
     cs = [FetchedNonce a (inr n); Submitted s outcome] /\
     signed_by s = a /\ tx_nonce (rawTransaction s) = Some n).

(** The requests of at most [n] attempts, one attempt after the other. *)
Fixpoint requests_of (n : nat) (cs : list RemoteCall) : Prop :=
  match n with
  | O => cs = []
  | S m =>
      exists first rest,
        cs = first ++ rest /\ attempt_requests first /\ requests_of m rest
  end.

(** The message that ends a [mintNFT] call. *)
Definition is_mint_verdict (n : Notification) : bool :=
  match n with
  | ContractNotInitialized | InsufficientBalance _ _ _
  | MintSuccessfulFrom _ _ _ | MintFailed _ => true
  | _ => false
  end.

(** What one [mintNFT] call may ask of the node: nothing; the balance
    only; the balance and then the transaction count, which the library
    asks for while it signs; or these two and then one submission, which
    carries that count as its nonce. Past the balance request it goes only
    for a balance that covers [needed]. *)
Definition mint_requests (needed : Z) (cs : list RemoteCall) : Prop :=
  cs = [] \/
  (exists a answer, cs = [FetchedBalance a answer]) \/
  (exists a balance answer,
     cs = [FetchedBalance a (inr balance); FetchedNonce a answer] /\
     (needed <= balance)%Z) \/
  (exists a balance n s outcome,
     cs = [FetchedBalance a (inr balance); FetchedNonce a (inr n); Submitted s outcome] /\
     signed_by s = a /\ tx_nonce (rawTransaction s) = Some n /\
     (needed <= balance)%Z).

(** The error an attempt of [sendMonadMintTx] with a valid key ended with,
    read off the last request of the call: the node's answer when the node
    refused the count or the submission, otherwise what stopped the attempt
    between the two (no contract, or the signature). *)
Definition last_error (contract : option string) (cfg : Config) (sign : Tx -> option Error)
    (cs : list RemoteCall) (error : Error) : Prop :=
  match last cs with
  | Some (Submitted _ outcome) => outcome = inl error
  | Some (FetchedNonce _ (inl e)) => error = e
  | Some (FetchedNonce a (inr n)) =>
      match contract with
      | None => error = TypeError "Cannot read properties of undefined (reading 'methods')"
      | Some _ => sign (mint_tx cfg a (Some n)) = Some error
      end
  | _ => False
  end.

Section Liveness.

Context `{Web3}.


(** Whatever the node answers, the call suspends at most [n] more times. *)
Fixpoint awaits_at_most {A : Type} (n : nat) (p : prog A) : Prop :=
  match p with
  | Ret _ | Throw _ => True
  | Call ev k => forall w : World, awaits_at_most n (k (handle ev w).2)
  | Await ev k =>
      match n with
      | S m => forall w : World, awaits_at_most m (k (handle ev w).2)
      | O => False
      end
  end.

(** A call in the pool is suspended or settled: it never stops in front of
    a synchronous effect. *)
Definition at_rest {A : Type} (p : prog A) : Prop :=
  match p with
  | Call _ _ => False
  | _ => True
  end.

(** How often the schedule resumes call [i]. *)
Definition resumptions (i : nat) (schedule : list nat) : nat :=
  length (List.filter (Nat.eqb i) schedule).

End Liveness.

(** ** The second bot variant: settings, [/mint] and [/setchannel] *)

Module Bot.

(** The entries of [CONFIG] the commands read or change. *)
Record Settings : Type := mkSettings {
  ADMIN_IDS : list Z;
  CHANNEL_ID : string;
  CONTRACT_ADDRESS : string;
  WALLETS : list string
}.

(** [s.split(sep)] for a separator of one code unit. *)
Fixpoint split (sep : ascii) (cs : list ascii) : list (list ascii) :=
  match cs with
  | [] => [[]]
  | c :: rest =>
      if Ascii.eqb c sep then [] :: split sep rest
      else
        match split sep rest with
        | piece :: pieces => (c :: piece) :: pieces
        | [] => [[c]]
        end
  end.

(** [keys.join(sep)] *)
Fixpoint join (sep : ascii) (pieces : list (list ascii)) : list ascii :=
  match pieces with
  | [] => []
  | [piece] => piece
  | piece :: rest => piece ++ sep :: join sep rest
  end.

(** [process.env.WALLETS ? process.env.WALLETS.split(',').filter(key =>
    key.trim() !== '') : []] *)
Definition WALLETS_of_env (env : option string) : list string :=
  match env with
  | Some s =>
      if String.eqb s "" then []
      else List.filter (fun key => negb (String.eqb (trim key) ""))
             (map text (split "," (chars s)))
  | None => []
  end.

(** [isAdmin(userId)] *)
Definition isAdmin (cfg : Settings) (userId : Z) : bool :=
  bool_decide (userId ∈ ADMIN_IDS cfg).

(** [config.json] as [JSON.parse] returns it: either field may be absent. *)
Record SavedConfig : Type := mkSaved {
  contractAddress : option string;
  channelId : option string
}.

Inductive Console : Type :=
| ConfigLoaded
| ErrorLoadingConfig (msg : string)
| UsingDefaultConfig
| ConfigSaved
| ErrorSavingConfig (msg : string)
| ErrorSendingMessage (msg : string)
| FailedErrorNotification (msg : string).

(** [saved || current] for a string that may be absent: the empty string
    is falsy. *)
Definition or_else (saved : option string) (current : string) : string :=
  match saved with
  | Some s => if String.eqb s "" then current else s
  | None => current
  end.

(** [loadConfig()] *)
Definition loadConfig (file : File SavedConfig) (cfg : Settings)
    : Settings * list Console :=
  match file with
  | Missing => (cfg, [])
  | Holds savedConfig =>
      ({| ADMIN_IDS := ADMIN_IDS cfg;
          CHANNEL_ID := or_else (channelId savedConfig) (CHANNEL_ID cfg);
          CONTRACT_ADDRESS := or_else (contractAddress savedConfig) (CONTRACT_ADDRESS cfg);
          WALLETS := WALLETS cfg |},
       [ConfigLoaded])
  | Corrupt e => (cfg, [ErrorLoadingConfig (message e); UsingDefaultConfig])
  end.

(** [saveConfig()]; [write_error] is the error [writeFileSync] throws, if
    it does. *)
Definition saveConfig (write_error : option Error) (cfg : Settings)
    (file : File SavedConfig) : File SavedConfig * list Console :=
  match write_error with
  | None =>
      (Holds {| contractAddress := Some (CONTRACT_ADDRESS cfg);
                channelId := Some (CHANNEL_ID cfg) |},
       [ConfigSaved])
  | Some e => (file, [ErrorSavingConfig (message e)])
  end.

(** The texts the command handlers send. *)
Inductive Reply : Type :=
| NotAuthorized
| NoWalletsConfigured
| StartingMint (count : nat)
| InvalidChannel
| ChannelUpdated (channel : string)
| ChannelFailed (msg : string).   (* [Failed to send notification to channel: ${msg}] *)

(** Where [bot.sendMessage] sends to: a chat id or [CONFIG.CHANNEL_ID]. *)
Inductive Target : Type :=
| ToChat (chatId : Z)
| ToChannel (channel : string).

(** One call of [bot.sendMessage] and the error it was rejected with, if
    it was. *)
Record Sent : Type := mkSent {
  sent_to : Target;
  sent_text : Reply;
  sent_error : option Error
}.

(** What a command handler leaves behind; [result] is how its promise
    settles. *)
Record Outcome : Type := mkOutcome {
  settings : Settings;
  config_file : File SavedConfig;
  sent : list Sent;
  console : list Console;
  result : Error + unit
}.

(** [s.startsWith('@') || s.startsWith('-')] *)
Definition is_channel (s : string) : bool :=
  String.prefix "@" s || String.prefix "-" s.

(** [haystack.includes(needle)] *)
Definition includes (needle haystack : string) : bool :=
  bool_decide (is_Some (index 0 needle haystack)).

(** The loop of the [/mint] handler: one wallet after the other. The pause
    of two seconds between two wallets touches nothing. *)
Definition mint_each (wallets : list string) (chatId : Z) : prog unit :=
  foldr (fun wallet rest => mintNFT wallet chatId;; rest) (Ret tt) wallets.

Section Handlers.

(** Telegram: the error a [bot.sendMessage] to a target is rejected with,
    if it is. *)
Variable deliver : Target -> Reply -> option Error.

(** [bot.sendMessage(target, text)], not wrapped in anything: the sends
    made, and how the promise settles. *)
Definition raw_send (target : Target) (body : Reply) : list Sent * (Error + unit) :=
  ([mkSent target body (deliver target body)],
   match deliver target body with
   | Some e => inl e
   | None => inr tt
   end).

(** The condition under which the helper repeats a text to the channel. *)
Definition repeats_to_channel (cfg : Settings) (chatId : Z) : bool :=
  negb (String.eqb (CHANNEL_ID cfg) "") && is_channel (CHANNEL_ID cfg)
  && negb (String.eqb (CHANNEL_ID cfg) (pretty chatId)).

(** The [try] block of the [sendMessage] helper: the sends made and the
    error that ended it, if one did. *)
Definition sendMessage_try (cfg : Settings) (chatId : Z) (body : Reply)
    : list Sent * option Error :=
  match deliver (ToChat chatId) body with
  | Some e => ([mkSent (ToChat chatId) body (Some e)], Some e)
  | None =>
      if repeats_to_channel cfg chatId then
        ([mkSent (ToChat chatId) body None;
          mkSent (ToChannel (CHANNEL_ID cfg)) body
            (deliver (ToChannel (CHANNEL_ID cfg)) body)],
         deliver (ToChannel (CHANNEL_ID cfg)) body)
      else ([mkSent (ToChat chatId) body None], None)
  end.

(** The [sendMessage(chatId, message)] helper: it never throws. *)
Definition sendMessage (cfg : Settings) (chatId : Z) (body : Reply)
    : list Sent * list Console :=
  let '(tried, thrown) := sendMessage_try cfg chatId body in
  match thrown with
  | None => (tried, [])
  | Some error =>
      if includes (CHANNEL_ID cfg) (message error) then
        let warning := ChannelFailed (message error) in
        match deliver (ToChat chatId) warning with
        | None =>
            (tried ++ [mkSent (ToChat chatId) warning None],
             [ErrorSendingMessage (message error)])
        | Some e =>
            (tried ++ [mkSent (ToChat chatId) warning (Some e)],
             [ErrorSendingMessage (message error); FailedErrorNotification (message e)])
        end
      else (tried, [ErrorSendingMessage (message error)])
  end.

(** The [/setchannel] handler; [arg] is [match[1]], [write_error] the error
    [writeFileSync] throws, if it does. *)
Definition on_setchannel (write_error : option Error) (msg : Message) (arg : string)
    (cfg : Settings) (file : File SavedConfig) : Outcome :=
  if isAdmin cfg (from_id msg) then
    let newChannel := trim arg in
    if negb (String.prefix "@" newChannel) && negb (String.prefix "-" newChannel) then
      let '(sends, settled) := raw_send (ToChat (chat_id msg)) InvalidChannel in
      mkOutcome cfg file sends [] settled
    else
      let cfg' := {| ADMIN_IDS := ADMIN_IDS cfg; CHANNEL_ID := newChannel;
                     CONTRACT_ADDRESS := CONTRACT_ADDRESS cfg;
                     WALLETS := WALLETS cfg |} in
      let '(file', saved) := saveConfig write_error cfg' file in
      let '(sends, logged) :=
        sendMessage cfg' (chat_id msg) (ChannelUpdated newChannel) in
      mkOutcome cfg' file' sends (saved ++ logged) (inr tt)
  else
    let '(sends, settled) := raw_send (ToChat (chat_id msg)) NotAuthorized in
    mkOutcome cfg file sends [] settled.

Context `{Web3}.

(** The [/mint] handler: the sends it makes itself, the world afterwards
    and how its promise settles. The first message is awaited outside any
    [try]: when it is rejected the handler is, before the loop starts. *)
Definition on_mint (cfg : Settings) (msg : Message) (w : World)
    : list Sent * (World * (Error + unit)) :=
  if isAdmin cfg (from_id msg) then
    if bool_decide (length (WALLETS cfg) = 0) then
      let '(sends, settled) := raw_send (ToChat (chat_id msg)) NoWalletsConfigured in
      (sends, (w, settled))
    else
      let '(sends, settled) :=
        raw_send (ToChat (chat_id msg)) (StartingMint (length (WALLETS cfg))) in
      match settled with
      | inl e => (sends, (w, inl e))
      | inr _ => (sends, exec (mint_each (WALLETS cfg) (chat_id msg)) w)
      end
  else
    let '(sends, settled) := raw_send (ToChat (chat_id msg)) NotAuthorized in
    (sends, (w, settled)).

End Handlers.

End Bot.

(** ** More sample data *)

Module Samples.

Import TestNet.

(** A world whose contract was never initialised. *)
Definition world_without_contract (n : Node) : @World web3 :=
  {| remote := n : @Remote web3; config := CONFIG; contract := None;
     store := fresh_store; outbox := []; calls := []; clock := 1700000000000 |}.

Definition settings : Bot.Settings :=
  {| Bot.ADMIN_IDS := [6668515216%Z]; Bot.CHANNEL_ID := "@your_channel";
     Bot.CONTRACT_ADDRESS := ""; Bot.WALLETS := [alice_key; bad_key; bob_key] |}.

(** A history file that does not parse. *)
Definition parse_error : Error := LibError "Unexpected end of JSON input".
Definition broken_store : Store :=
  {| txHistoryFile := Corrupt parse_error; logged := [] |}.

(** Keys as they may stand in the environment variable. *)
Definition spaced_keys : list string := ["abc"; " def "].

(** A keyring that holds the stand-in credentials. *)
Definition loaded_keyring : Keyring string := mkKeyring Standin.creds [].

(** Telegram delivering everything, and Telegram refusing every send to
    a channel with an error that names it. *)
Definition delivered : Bot.Target -> Bot.Reply -> option Error := fun _ _ => None.
Definition channel_gone : Bot.Target -> Bot.Reply -> option Error :=
  fun target _ =>
    match target with
    | Bot.ToChannel channel => Some (LibError ("chat not found: " ++ channel)%string)
    | Bot.ToChat _ => None
    end.

(** Three calls for one wallet: the first two fetch their nonce, the first
    one submits, the third fetches and submits, the second submits last. *)
Definition triple_mint : Pool (option Receipt) :=
  run [0; 1; 0; 0; 2; 2; 2; 1; 1]
    (mint_batch [alice_key; alice_key; alice_key] msg (world (funded [alice] []))).

Definition entry (n : Z) : TxRecord * Z :=
  ({| tx_address := "0xa11ce"; tx_txHash := Some "0xfeed"; tx_error := None;
      tx_status := success |}, n).

End Samples.

(** * Properties *)

(** ** Hex encoding *)

Lemma hex_nibbles (b : byte) :
  Hex.value (Hex.digit (Byte.to_N b / 16)) = Some (Byte.to_N b / 16)%N /\
  Hex.value (Hex.digit (Byte.to_N b mod 16)) = Some (Byte.to_N b mod 16)%N /\
  Hex.byte_of_nibbles (Byte.to_N b / 16) (Byte.to_N b mod 16) = b.
Proof. destruct b; vm_compute; auto. Qed.

(** [Buffer.from(buf.toString('hex'), 'hex')] gives the buffer back. *)
Lemma hex_decode_encode (bs : list byte) : Hex.decode (Hex.encode bs) = bs.
Proof.
  induction bs as [|b bs IH]; [reflexivity|].
  cbn [Hex.encode Hex.decode].
  destruct (hex_nibbles b) as (-> & -> & ->).
  by rewrite IH.
Qed.

Lemma hex_encode_inj (a b : list byte) : Hex.encode a = Hex.encode b -> a = b.
Proof.
  intros E. rewrite <- (hex_decode_encode a), <- (hex_decode_encode b).
  by rewrite E.
Qed.

(** ** The history ledger *)

Lemma js_slice_negative {A : Type} (n : nat) (l : list A) :
  js_slice (- Z.of_nat (S n)) l = keep_last (S n) l.
Proof.
  unfold js_slice, keep_last.
  replace (- Z.of_nat (S n) <? 0)%Z with true by (symmetry; apply Z.ltb_lt; lia).
  f_equal. lia.
Qed.

Lemma js_slice_zero {A : Type} (l : list A) : js_slice (- 0) l = l.
Proof. unfold js_slice. simpl. rewrite Z.min_l by lia. reflexivity. Qed.

Lemma keep_last_length {A : Type} (n : nat) (l : list A) :
  length (keep_last n l) = Nat.min n (length l).
Proof. unfold keep_last. rewrite length_drop. lia. Qed.

Lemma keep_last_short {A : Type} (n : nat) (l : list A) :
  length l <= n -> keep_last n l = l.
Proof. intros. unfold keep_last. by replace (length l - n) with 0 by lia. Qed.

Lemma keep_last_snoc {A : Type} (n : nat) (l : list A) (x : A) :
  keep_last (S n) (keep_last (S n) l ++ [x]) = keep_last (S n) (l ++ [x]).
Proof.
  unfold keep_last.
  rewrite !length_app, length_drop. cbn [length].
  rewrite <- (drop_app_le l [x]) by lia.
  rewrite drop_drop. f_equal. lia.
Qed.

(** Once 100 entries or more were appended, what was there before is gone. *)
Lemma keep_last_app_long {A : Type} (n : nat) (old new : list A) :
  n <= length new -> keep_last n (old ++ new) = keep_last n new.
Proof.
  intros Hlen. unfold keep_last. rewrite length_app.
  replace (length old + length new - n) with (length old + (length new - n)) by lia.
  by rewrite drop_app_add.
Qed.

(** One append to a readable ledger: the new entry goes last and only the
    last 100 entries are kept. *)
Lemma saveTxHistory_readable (tx : TxRecord) (now : Z) (st : Store) :
  readable st ->
  saveTxHistory tx now st =
    {| txHistoryFile := Holds (keep_last 100 (stored_history st ++ [mkEntry tx now]));
       logged := logged st |}.
Proof.
  intros Hf. unfold saveTxHistory, stored_history.
  destruct (txHistoryFile st) as [|e|h] eqn:E.
  - reflexivity.
  - by destruct (Hf e).
  - cbv zeta. case_bool_decide as Hlen.
    + by rewrite (js_slice_negative 99).
    + by rewrite keep_last_short by lia.
Qed.

Lemma saveTxHistory_keeps_readable (tx : TxRecord) (now : Z) (st : Store) :
  readable st -> readable (saveTxHistory tx now st).
Proof. intros Hf. rewrite saveTxHistory_readable by done. intros e. done. Qed.

Lemma saveAll_snoc (txs : list (TxRecord * Z)) (r : TxRecord * Z) (st : Store) :
  saveAll (txs ++ [r]) st = saveTxHistory r.1 r.2 (saveAll txs st).
Proof. unfold saveAll. by rewrite foldl_app. Qed.

(** A run of appends to a readable ledger keeps the last 100 entries of the
    old content followed by the new entries, in insertion order. *)
Lemma saveAll_readable (txs : list (TxRecord * Z)) (st : Store) :
  txs <> [] ->
  readable st ->
  saveAll txs st =
    {| txHistoryFile := Holds (keep_last 100 (stored_history st ++ entries txs));
       logged := logged st |}.
Proof.
  intros Hne Hst. induction txs as [|r txs IH] using rev_ind; [done|].
  rewrite saveAll_snoc. unfold entries. rewrite map_app. cbn [map].
  destruct (decide (txs = [])) as [-> | Hne'].
  - cbn. by rewrite saveTxHistory_readable.
  - rewrite (IH Hne').
    rewrite saveTxHistory_readable by (intros e; done).
    unfold stored_history at 1. cbn [txHistoryFile logged].
    by rewrite keep_last_snoc, app_assoc.
Qed.

(** After an append the ledger never holds more than 100 entries (nothing is
    written when the file cannot be read; its size then counts as 0). *)
Lemma saveTxHistory_bound (tx : TxRecord) (now : Z) (st : Store) :
  ledger_size (saveTxHistory tx now st) <= 100.
Proof.
  destruct (txHistoryFile st) as [|e|h] eqn:Hf.
  - rewrite saveTxHistory_readable by (intros e; by rewrite Hf).
    unfold ledger_size, stored_history at 1. cbn [txHistoryFile].
    rewrite keep_last_length. lia.
  - unfold saveTxHistory, ledger_size, stored_history. rewrite Hf.
    cbn [txHistoryFile length]. lia.
  - rewrite saveTxHistory_readable by (intros e; by rewrite Hf).
    unfold ledger_size, stored_history at 1. cbn [txHistoryFile].
    rewrite keep_last_length. lia.
Qed.

(** C6: appending 150 results to a ledger (absent, empty or holding earlier
    entries) leaves exactly the last 100 of them, in insertion order: the
    oldest 50 and everything older are dropped from the front. The ledger
    holds at most 100 entries after every single append, and
    [getTxHistory 10] returns the last 10 entries, most recent first,
    leaving the store as it was. *)
Theorem ledger_keeps_last_100 (txs : list (TxRecord * Z)) (st : Store) :
  length txs = 150 ->
  readable st ->
  let final := saveAll txs st in
  txHistoryFile final = Holds (drop 50 (entries txs)) /\
  ledger_size final = 100 /\
  (forall k, ledger_size (saveAll (take (S k) txs) st) <= 100) /\
  getTxHistory 10 final = (reverse (drop 140 (entries txs)), final).
Proof.
  intros Hlen Hst final.
  assert (Hentries : length (entries txs) = 150).
  { unfold entries. by rewrite length_map. }
  assert (Hfinal : final =
    {| txHistoryFile := Holds (drop 50 (entries txs)); logged := logged st |}).
  { unfold final. rewrite saveAll_readable; [|by intros ->|done].
    rewrite keep_last_app_long by lia.
    unfold keep_last. by rewrite Hentries. }
  assert (Hsz : length (drop 50 (entries txs)) = 100).
  { rewrite length_drop. lia. }
  split_and!.
  - by rewrite Hfinal.
  - rewrite Hfinal. done.
  - intros k. destruct txs as [|r txs]; [done|].
    rewrite firstn_cons.
    destruct (take k txs) as [|r' pre] using rev_ind.
    + cbn. apply saveTxHistory_bound.
    + rewrite app_comm_cons, saveAll_snoc. apply saveTxHistory_bound.
  - unfold getTxHistory. rewrite Hfinal. cbn [txHistoryFile].
    rewrite (js_slice_negative 9). unfold keep_last.
    rewrite Hsz, drop_drop. reflexivity.
Qed.

(** C10: with [limit = 0] the whole stored history comes back, most recent
    first (it is empty only when the stored history is), and a missing file
    gives the empty sequence whatever the limit. *)
Theorem getTxHistory_zero_limit (h : list HistoryEntry) (ls : list LogEntry) (limit : Z) :
  (getTxHistory 0 {| txHistoryFile := Holds h; logged := ls |}).1 = reverse h /\
  ((getTxHistory 0 {| txHistoryFile := Holds h; logged := ls |}).1 = [] <-> h = []) /\
  (getTxHistory limit {| txHistoryFile := Missing; logged := ls |}).1 = [].
Proof.
  unfold getTxHistory. cbn [txHistoryFile fst].
  rewrite js_slice_zero.
  split_and!; [done| |done].
  split; [|by intros ->].
  intros E. apply (f_equal reverse) in E. by rewrite reverse_involutive in E.
Qed.

(** For comparison, a positive limit within the size of the history gives
    that many entries. *)
Lemma getTxHistory_positive_limit (h : list HistoryEntry) (ls : list LogEntry) (n : nat) :
  S n <= length h ->
  length (getTxHistory (Z.of_nat (S n)) {| txHistoryFile := Holds h; logged := ls |}).1
    = S n.
Proof.
  intros Hn. unfold getTxHistory. cbn [txHistoryFile fst].
  rewrite js_slice_negative, length_reverse, keep_last_length. lia.
Qed.

(** ** The wallet vault *)

Section VaultFacts.

Context {Cred : Type} `{Crypto Cred}.

(** The check itself: a tag that differs stops [decryptWallets] after the
    key derivation and the HMAC, before the decipher is created. *)
Lemma decryptWallets_mismatch (v : EncryptedVault) (password iv_hex salt_hex encrypted : string) :
  v_iv v = Some iv_hex ->
  v_salt v = Some salt_hex ->
  v_encryptedData v = Some encrypted ->
  Some (expected_hmac password salt_hex encrypted) <> v_hmac v ->
  decryptWallets v password = ([CallScrypt; CallHmac], inl IntegrityError).
Proof.
  intros Hiv Hsalt Hct Hmac. unfold decryptWallets.
  rewrite Hiv, Hsalt, Hct. cbv zeta.
  fold (expected_hmac password salt_hex encrypted).
  by rewrite bool_decide_eq_false_2.
Qed.

Lemma decryptWallets_match (v : EncryptedVault) (password iv_hex salt_hex encrypted : string) :
  v_iv v = Some iv_hex ->
  v_salt v = Some salt_hex ->
  v_encryptedData v = Some encrypted ->
  v_hmac v = Some (expected_hmac password salt_hex encrypted) ->
  (decryptWallets v password).2 =
    match aes_256_cbc_decrypt (scryptSync password (Hex.decode salt_hex))
            (Hex.decode iv_hex) (Hex.decode encrypted) with
    | inl e => inl e
    | inr decrypted => JSON_parse decrypted
    end.
Proof.
  intros Hiv Hsalt Hct Hmac. unfold decryptWallets.
  rewrite Hiv, Hsalt, Hct. cbv zeta.
  fold (expected_hmac password salt_hex encrypted).
  rewrite bool_decide_eq_true_2 by done.
  by destruct aes_256_cbc_decrypt.
Qed.

(** What [decryptWallets] makes of a vault of [encryptWallets] opened with
    the same password: the tag matches, so the outcome is that of the
    decipher and of [JSON.parse]. *)
Lemma decryptWallets_encryptWallets (data : list Cred) (password : string)
    (iv salt : list byte) :
  let key := scryptSync password salt in
  (decryptWallets (encryptWallets iv salt data password) password).2 =
    match aes_256_cbc_decrypt key iv (aes_256_cbc_encrypt key iv (JSON_stringify data)) with
    | inl e => inl e
    | inr decrypted => JSON_parse decrypted
    end.
Proof.
  intros key.
  rewrite (decryptWallets_match _ password (Hex.encode iv) (Hex.encode salt)
             (Hex.encode (aes_256_cbc_encrypt key iv (JSON_stringify data))));
    try reflexivity.
  - by rewrite !hex_decode_encode.
  - unfold encryptWallets, expected_hmac. cbn [v_hmac].
    by rewrite hex_decode_encode.
Qed.

(** C1: decrypting what [encryptWallets] produced, with the same password,
    gives the credentials back, whatever the random iv and salt were,
    provided the decipher inverts the cipher and [JSON.parse] inverts
    [JSON.stringify] on the data at hand. *)
Theorem vault_round_trip (data : list Cred) (password : string) (iv salt : list byte) :
  let key := scryptSync password salt in
  aes_256_cbc_decrypt key iv (aes_256_cbc_encrypt key iv (JSON_stringify data))
    = inr (JSON_stringify data) ->
  JSON_parse (JSON_stringify data) = inr data ->
  (decryptWallets (encryptWallets iv salt data password) password).2 = inr data.
Proof.
  intros key Hcipher Hjson.
  rewrite decryptWallets_encryptWallets. fold key. by rewrite Hcipher.
Qed.

(** The same at the level of the file: what [saveWallets] wrote,
    [loadWallets] reads back. *)
Lemma load_after_save (password : string) (iv salt : list byte) (st st' : Keyring Cred) :
  let key := scryptSync password salt in
  aes_256_cbc_decrypt key iv (aes_256_cbc_encrypt key iv (JSON_stringify (wallets st)))
    = inr (JSON_stringify (wallets st)) ->
  JSON_parse (JSON_stringify (wallets st)) = inr (wallets st) ->
  wallets (loadWallets password (saveWallets iv salt password st).1 st') = wallets st.
Proof.
  intros key Hcipher Hjson. unfold loadWallets, saveWallets. cbn [fst].
  rewrite decryptWallets_encryptWallets. fold key. by rewrite Hcipher, Hjson.
Qed.

(** C2: whenever the recomputed tag differs from the stored one,
    [decryptWallets] throws the integrity error having called only scrypt and
    HMAC: the decipher is never reached. In particular this is the outcome
    for a vault of [encryptWallets] whose [hmac] field was changed in any
    way, whose ciphertext was changed so that its tag differs, or which is
    opened with a password whose tag differs. *)
Theorem decrypt_verifies_before_decrypting (password : string) :
  (forall v iv_hex salt_hex encrypted,
      v_iv v = Some iv_hex ->
      v_salt v = Some salt_hex ->
      v_encryptedData v = Some encrypted ->
      Some (expected_hmac password salt_hex encrypted) <> v_hmac v ->
      (decryptWallets v password).2 = inl IntegrityError /\
      CallDecipher ∉ (decryptWallets v password).1) /\
  (forall iv salt data mac',
      let v := encryptWallets iv salt data password in
      mac' <> v_hmac v ->
      decryptWallets (with_hmac mac' v) password
        = ([CallScrypt; CallHmac], inl IntegrityError)) /\
  (forall iv salt data ct ct',
      let v := encryptWallets iv salt data password in
      v_encryptedData v = Some ct ->
      hmac_sha256 (scryptSync password salt) ct'
        <> hmac_sha256 (scryptSync password salt) ct ->
      decryptWallets (with_encryptedData (Some ct') v) password
        = ([CallScrypt; CallHmac], inl IntegrityError)) /\
  (forall iv salt data ct password',
      let v := encryptWallets iv salt data password' in
      v_encryptedData v = Some ct ->
      hmac_sha256 (scryptSync password salt) ct
        <> hmac_sha256 (scryptSync password' salt) ct ->
      decryptWallets v password = ([CallScrypt; CallHmac], inl IntegrityError)).
Proof.
  split_and!.
  - intros v iv_hex salt_hex encrypted Hiv Hsalt Hct Hmac.
    rewrite (decryptWallets_mismatch v password iv_hex salt_hex encrypted) by done.
    split; [done|]. cbn [fst]. rewrite !elem_of_cons, elem_of_nil.
    intros [?|[?|?]]; done.
  - intros iv salt data mac' v Hmac.
    eapply decryptWallets_mismatch; try reflexivity.
    cbn [with_hmac v_hmac v_salt v_encryptedData v encryptWallets].
    intros E. apply Hmac. rewrite <- E. cbn [v encryptWallets v_hmac].
    unfold expected_hmac. by rewrite hex_decode_encode.
  - intros iv salt data ct ct' v Hct Hne.
    eapply decryptWallets_mismatch; try reflexivity.
    cbn [with_encryptedData v_hmac v_salt v encryptWallets].
    unfold expected_hmac. rewrite hex_decode_encode.
    intros [= E]. apply hex_encode_inj in E. apply Hne. rewrite E.
    cbn [v encryptWallets v_encryptedData] in Hct. by injection Hct as <-.
  - intros iv salt data ct password' v Hct Hne.
    eapply decryptWallets_mismatch; try reflexivity.
    cbn [v_hmac v_salt v encryptWallets].
    unfold expected_hmac. rewrite hex_decode_encode.
    intros [= E]. apply hex_encode_inj in E. apply Hne.
    cbn [v encryptWallets v_encryptedData] in Hct. injection Hct as <-. exact E.
Qed.

(** The tag is computed from the password, the salt and the ciphertext
    only: whether the decipher is reached does not depend on the iv (as
    long as there is one). *)
Lemma integrity_check_ignores_iv (v : EncryptedVault) (password iv1 iv2 : string) :
  CallDecipher ∈ (decryptWallets (with_iv (Some iv1) v) password).1 <->
  CallDecipher ∈ (decryptWallets (with_iv (Some iv2) v) password).1.
Proof.
  unfold decryptWallets. cbn [with_iv v_iv v_salt v_encryptedData v_hmac].
  destruct (v_salt v); [|done].
  destruct (v_encryptedData v); [|done].
  cbv zeta. case_bool_decide.
  - do 2 destruct aes_256_cbc_decrypt; cbn [fst];
      split; intros _; rewrite !elem_of_cons; auto.
  - done.
Qed.

(** What a load that throws leaves behind. *)
Lemma loadWallets_failed (password : string) (v : EncryptedVault) (e : Error)
    (st : Keyring Cred) :
  (decryptWallets v password).2 = inl e ->
  loadWallets password (Holds v) st =
    {| wallets := []; logs := logs st ++ [ErrorLoadFailed (message e)] |}.
Proof. intros E. unfold loadWallets. by rewrite E. Qed.

(** C7 (as amended): a load that cannot go through never crashes and is
    never silent. When the file is unreadable, or [decryptWallets] throws for
    whatever reason, the error is caught, one error-level line carrying its
    message is logged and the credential set is empty. [decryptWallets] does
    throw when a field of the vault is lost or the stored tag does not
    match: the integrity error when iv, salt and ciphertext are there and
    the tag differs (a lost [hmac] included), a [TypeError] when the iv, the
    salt or the ciphertext is lost. *)
Theorem loadWallets_failure_recovery (password : string) (st : Keyring Cred) :
  (forall e,
      loadWallets password (Corrupt e) st =
        {| wallets := []; logs := logs st ++ [ErrorLoadFailed (message e)] |}) /\
  (forall v e,
      (decryptWallets v password).2 = inl e ->
      loadWallets password (Holds v) st =
        {| wallets := []; logs := logs st ++ [ErrorLoadFailed (message e)] |} /\
      is_error_level (ErrorLoadFailed (message e)) = true) /\
  (forall v,
      v_iv v = None \/ v_salt v = None \/ v_encryptedData v = None \/
      ~ tag_matches password v ->
      exists e,
        (decryptWallets v password).2 = inl e /\
        (is_Some (v_iv v) /\ is_Some (v_salt v) /\ is_Some (v_encryptedData v) ->
         e = IntegrityError) /\
        (v_iv v = None \/ v_salt v = None \/ v_encryptedData v = None ->
         exists what, e = TypeError what)).
Proof.
  split_and!; [done| |].
  { intros v e E. split; [by apply loadWallets_failed|done]. }
  intros v Hbad. unfold decryptWallets.
  destruct (v_iv v) as [iv_hex|] eqn:Hiv.
  2: { eexists. split_and!; [done| |by eauto]. intros ([? [=]] & _). }
  destruct (v_salt v) as [salt_hex|] eqn:Hsalt.
  2: { eexists. split_and!; [done| |by eauto]. intros (_ & [? [=]] & _). }
  destruct (v_encryptedData v) as [encrypted|] eqn:Hct.
  2: { eexists. split_and!; [done| |by eauto]. intros (_ & _ & [? [=]]). }
  cbv zeta. fold (expected_hmac password salt_hex encrypted).
  rewrite bool_decide_eq_false_2.
  - exists IntegrityError. split_and!; [done|done|].
    intros [?|[?|?]]; done.
  - intros E. destruct Hbad as [?|[?|[?|Hno]]]; try done.
    apply Hno. exists salt_hex, encrypted. by rewrite Hsalt, Hct, <- E.
Qed.

End VaultFacts.

(** ** Running a single call *)

Section ExecFacts.

Context `{Web3}.

Lemma exec_bind {A B : Type} (p : prog A) (f : A -> prog B) (w : World) :
  exec (p ≫= f) w =
    match exec p w with
    | (w', inr a) => exec (f a) w'
    | (w', inl e) => (w', inl e)
    end.
Proof.
  revert w. induction p as [a|e|X ev k IH|X ev k IH]; intros w; try reflexivity.
  - cbn. destruct (handle ev w) as [w' r]. apply IH.
  - cbn. destruct (handle ev w) as [w' r]. apply IH.
Qed.

Lemma exec_try_catch {A : Type} (p : prog A) (h : Error -> prog A) (w : World) :
  exec (try_catch p h) w =
    match exec p w with
    | (w', inr a) => (w', inr a)
    | (w', inl e) => exec (h e) w'
    end.
Proof.
  revert w. induction p as [a|e|X ev k IH|X ev k IH]; intros w; try reflexivity.
  - cbn. destruct (handle ev w) as [w' r]. apply IH.
  - cbn. destruct (handle ev w) as [w' r]. apply IH.
Qed.

Lemma exec_call {X : Type} (ev : Event X) (w : World) : exec (call ev) w = handle ev w.
Proof. cbn. by destruct (handle ev w) as [w' [e|x]]. Qed.

Lemma exec_await {X : Type} (ev : Event X) (w : World) : exec (await ev) w = handle ev w.
Proof. cbn. by destruct (handle ev w) as [w' [e|x]]. Qed.

(** An attempt with a key the library refuses throws before any request. *)
Lemma exec_attempt_bad_key (key : string) (msg : Message) (w : World) (e : Error) :
  privateKeyToAccount key = inl e ->
  exec (attempt key msg) w = (w, inl e).
Proof. intros Hkey. unfold attempt. rewrite exec_bind, exec_call. cbn. by rewrite Hkey. Qed.

(** An attempt that gets as far as the submission: the nonce is the node's
    answer, and the outcome is that of the race. *)
Lemma exec_attempt_submitted (key : string) (msg : Message) (w : World)
    (acct : Account) (c : string) (r1 r2 : Remote) (n latency : Z)
    (outcome : Error + Receipt) :
  privateKeyToAccount key = inr acct ->
  contract w = Some c ->
  (forall tx, sign_failure acct tx = None) ->
  eth_getTransactionCount (remote w) (address acct) = (r1, inr n) ->
  eth_sendSignedTransaction r1 (signed_mint (config w) (address acct) n)
    = (r2, latency, outcome) ->
  let s := signed_mint (config w) (address acct) n in
  let settled := race (Some 60000%Z) latency outcome in
  let w2 := with_remote r2 (Submitted s settled)
              (with_remote r1 (FetchedNonce (address acct) (inr n)) w) in
  exec (attempt key msg) w =
    match settled with
    | inl e => (w2, inl e)
    | inr receipt =>
        (with_store (saveTxHistory (success_record (address acct) receipt)
                       (clock w) (store w))
           (with_message (chat_id msg)
              (MintSuccessful (EXPLORER_URL (config w)) (transactionHash receipt)) w2),
         inr receipt)
    end.
Proof.
  intros Hkey Hc Hsign Hcount Hsend s settled w2.
  unfold attempt.
  rewrite exec_bind, exec_call. cbn [handle]. rewrite Hkey.
  rewrite exec_bind, exec_await. cbn [handle]. rewrite Hcount.
  rewrite exec_bind, exec_call. cbn [handle].
  rewrite exec_bind, exec_call. cbn [handle with_remote contract]. rewrite Hc.
  rewrite exec_bind, exec_await. cbn [handle]. rewrite Hsign.
  rewrite exec_bind, exec_await. cbn [handle with_remote remote config].
  unfold signed_mint, mint_tx in Hsend. rewrite Hsend. fold settled.
  destruct settled as [e|receipt]; [reflexivity|].
  rewrite exec_bind, exec_call. cbn [handle].
  rewrite exec_bind, exec_call. cbn [handle].
  reflexivity.
Qed.

Lemma exec_final_failure_bad_key (key : string) (msg : Message) (error e : Error)
    (w : World) :
  privateKeyToAccount key = inl e ->
  exec (final_failure key msg error) w =
    (with_message (chat_id msg) (FinalAttemptFailed (message error)) w, inl e).
Proof.
  intros Hkey. unfold final_failure.
  rewrite exec_bind, exec_call. cbn [handle].
  rewrite exec_bind, exec_call. cbn [handle]. by rewrite Hkey.
Qed.

Lemma exec_final_failure (key : string) (msg : Message) (error : Error)
    (acct : Account) (w : World) :
  privateKeyToAccount key = inr acct ->
  exec (final_failure key msg error) w =
    (with_store (saveTxHistory (failure_record (address acct) error)
                   (clock w) (store w))
       (with_message (chat_id msg) (FinalAttemptFailed (message error)) w),
     inr None).
Proof.
  intros Hkey. unfold final_failure.
  rewrite exec_bind, exec_call. cbn [handle].
  rewrite exec_bind, exec_call. cbn [handle]. rewrite Hkey.
  rewrite exec_bind, exec_call. cbn [handle]. reflexivity.
Qed.

(** The recursion of the source: a call with [retryCount < 2] that fails
    calls itself with [retryCount + 1]. *)
Lemma sendMonadMintTx_unfold (key : string) (msg : Message) (retryCount : nat) :
  sendMonadMintTx key msg retryCount =
    try_catch
      (receipt ← attempt key msg; Ret (Some receipt))
      (fun error =>
         if (retryCount <? 2)%nat then
           call (SendMessage (chat_id msg) (Retrying (retryCount + 1)));;
           sendMonadMintTx key msg (retryCount + 1)
         else final_failure key msg error).
Proof. destruct retryCount as [|[|n]]; reflexivity. Qed.

Lemma exec_sendMonadMintTx (key : string) (msg : Message) (retryCount : nat) (w : World) :
  exec (sendMonadMintTx key msg retryCount) w =
    match exec (attempt key msg) w with
    | (w', inr receipt) => (w', inr (Some receipt))
    | (w', inl error) =>
        if (retryCount <? 2)%nat then
          exec (sendMonadMintTx key msg (retryCount + 1))
            (with_message (chat_id msg) (Retrying (retryCount + 1)) w')
        else exec (final_failure key msg error) w'
    end.
Proof.
  rewrite sendMonadMintTx_unfold at 1.
  rewrite exec_try_catch, exec_bind.
  destruct (exec (attempt key msg) w) as [w' [error|receipt]]; [|reflexivity].
  destruct (retryCount <? 2)%nat; [|reflexivity].
  rewrite exec_bind, exec_call. reflexivity.
Qed.

End ExecFacts.

(** ** The retrying sender *)

Section SenderFacts.

Context `{Web3}.

(** With a key the library refuses, each of the three attempts throws at
    once, and so does the [catch] block of the last one when it computes
    the address for the history entry: the promise is rejected and nothing
    is written to the history. *)
Lemma sendMonadMintTx_bad_key (key : string) (msg : Message) (w : World) (e : Error) :
  privateKeyToAccount key = inl e ->
  exec (sendMonadMintTx key msg 0) w =
    (with_message (chat_id msg) (FinalAttemptFailed (message e))
       (with_message (chat_id msg) (Retrying 2)
          (with_message (chat_id msg) (Retrying 1) w)),
     inl e).
Proof.
  intros Hkey.
  rewrite exec_sendMonadMintTx, (exec_attempt_bad_key _ _ _ e Hkey). cbn [Nat.ltb Nat.leb].
  rewrite exec_sendMonadMintTx, (exec_attempt_bad_key _ _ _ e Hkey). cbn [Nat.ltb Nat.leb Nat.add].
  rewrite exec_sendMonadMintTx, (exec_attempt_bad_key _ _ _ e Hkey). cbn [Nat.ltb Nat.leb Nat.add].
  by apply exec_final_failure_bad_key.
Qed.

(** With a key the library accepts, the promise is always fulfilled,
    whatever the node does. *)
Lemma sendMonadMintTx_valid_key_resolves (key : string) (msg : Message) (acct : Account) :
  privateKeyToAccount key = inr acct ->
  forall retryCount w, exists w' result,
    exec (sendMonadMintTx key msg retryCount) w = (w', inr result).
Proof.
  intros Hkey retryCount.
  remember (2 - retryCount) as budget eqn:Hb.
  revert retryCount Hb.
  induction budget as [|budget IH]; intros retryCount Hb w;
    rewrite exec_sendMonadMintTx;
    destruct (exec (attempt key msg) w) as [w' [error|receipt]]; eauto;
    destruct (retryCount <? 2)%nat eqn:Hlt;
    try (rewrite (exec_final_failure _ _ _ acct) by done; eauto).
  - apply Nat.ltb_lt in Hlt. lia.
  - apply IH. apply Nat.ltb_lt in Hlt. lia.
Qed.

(** The keys [validatePrivateKey] accepts are among them. *)
Lemma validated_key_resolves (key : string) (msg : Message) :
  validatePrivateKey key = true ->
  forall retryCount w, exists w' result,
    exec (sendMonadMintTx key msg retryCount) w = (w', inr result).
Proof.
  unfold validatePrivateKey.
  destruct (privateKeyToAccount key) as [e|acct] eqn:Hkey; [done|].
  intros _. by apply (sendMonadMintTx_valid_key_resolves key msg acct).
Qed.

(** C4: a request whose three submissions are answered as given. Each
    attempt asks the node for the pending count and submits a transaction
    with exactly that nonce; after two failed submissions (a rejection or
    the 60 s timer) the third one is the last. If it fails too, the promise
    is fulfilled with no value after two retry notices, one final failure
    notice and one [failed] history entry; if it succeeds, the promise is
    fulfilled with its receipt, and the history entry is a [success] for the
    transaction that carried the third nonce. *)
Theorem retry_bound (key : string) (msg : Message) (w : World) (acct : Account)
    (c : string) (r1 r2 r3 r4 r5 r6 : Remote) (n1 n2 n3 l1 l2 l3 : Z)
    (o1 o2 o3 : Error + Receipt) (e1 e2 : Error) :
  let a := address acct in
  let tx := signed_mint (config w) a in
  let third := race (Some 60000%Z) l3 o3 in
  privateKeyToAccount key = inr acct ->
  contract w = Some c ->
  (forall t, sign_failure acct t = None) ->
  readable (store w) ->
  eth_getTransactionCount (remote w) a = (r1, inr n1) ->
  eth_sendSignedTransaction r1 (tx n1) = (r2, l1, o1) ->
  race (Some 60000%Z) l1 o1 = inl e1 ->
  eth_getTransactionCount r2 a = (r3, inr n2) ->
  eth_sendSignedTransaction r3 (tx n2) = (r4, l2, o2) ->
  race (Some 60000%Z) l2 o2 = inl e2 ->
  eth_getTransactionCount r4 a = (r5, inr n3) ->
  eth_sendSignedTransaction r5 (tx n3) = (r6, l3, o3) ->
  exists w',
    exec (sendMonadMintTx key msg 0) w =
      (w', match third with inl _ => inr None | inr receipt => inr (Some receipt) end) /\
    calls w' = calls w ++
      [FetchedNonce a (inr n1); Submitted (tx n1) (inl e1);
       FetchedNonce a (inr n2); Submitted (tx n2) (inl e2);
       FetchedNonce a (inr n3); Submitted (tx n3) third] /\
    outbox w' = outbox w ++
      [(chat_id msg, Retrying 1); (chat_id msg, Retrying 2);
       (chat_id msg,
        match third with
        | inl e3 => FinalAttemptFailed (message e3)
        | inr receipt =>
            MintSuccessful (EXPLORER_URL (config w)) (transactionHash receipt)
        end)] /\
    let record :=
      match third with
      | inl e3 => failure_record a e3
      | inr receipt => success_record a receipt
      end in
    store w' = saveTxHistory record (clock w) (store w) /\
    txHistoryFile (store w') =
      Holds (keep_last 100 (stored_history (store w) ++ [mkEntry record (clock w)])).
Proof.
  intros a tx third Hkey Hc Hsign Hfile Hc1 Hs1 He1 Hc2 Hs2 He2 Hc3 Hs3.
  assert (Hsaved : forall record,
    txHistoryFile (saveTxHistory record (clock w) (store w)) =
      Holds (keep_last 100 (stored_history (store w) ++ [mkEntry record (clock w)]))).
  { intros record. by rewrite saveTxHistory_readable. }
  rewrite exec_sendMonadMintTx.
  rewrite (exec_attempt_submitted key msg w acct c r1 r2 n1 l1 o1) by done.
  cbv zeta. rewrite He1. cbn [Nat.ltb Nat.leb Nat.add].
  rewrite exec_sendMonadMintTx.
  rewrite (exec_attempt_submitted key msg _ acct c r3 r4 n2 l2 o2) by done.
  cbv zeta. rewrite He2. cbn [Nat.ltb Nat.leb Nat.add].
  rewrite exec_sendMonadMintTx.
  rewrite (exec_attempt_submitted key msg _ acct c r5 r6 n3 l3 o3) by done.
  cbv zeta. cbn [with_message with_remote config]. fold a tx third.
  destruct third as [e3|receipt].
  - cbn [Nat.ltb Nat.leb]. rewrite (exec_final_failure _ _ _ acct) by done.
    eexists. split; [reflexivity|].
    cbn [calls outbox store clock with_store with_message with_remote].
    rewrite <- !app_assoc. split_and!; try done; apply Hsaved.
  - eexists. split; [reflexivity|].
    cbn [calls outbox store clock with_store with_message with_remote].
    rewrite <- !app_assoc. split_and!; try done; apply Hsaved.
Qed.

End SenderFacts.

(** ** The balance check *)

Section BalanceFacts.

Context `{Web3}.

Lemma only_events_bind {A B : Type} (P : forall X, Event X -> Prop)
    (p : prog A) (f : A -> prog B) :
  only_events P p -> (forall a, only_events P (f a)) -> only_events P (p ≫= f).
Proof.
  intros Hp Hf. induction p as [a|e|X ev k IH|X ev k IH]; cbn in *; auto.
  - destruct Hp as [? Hk]. split; [done|]. intros r. apply IH, Hk.
  - destruct Hp as [? Hk]. split; [done|]. intros r. apply IH, Hk.
Qed.

Lemma only_events_try_catch {A : Type} (P : forall X, Event X -> Prop)
    (p : prog A) (h : Error -> prog A) :
  only_events P p -> (forall e, only_events P (h e)) -> only_events P (try_catch p h).
Proof.
  intros Hp Hh. induction p as [a|e|X ev k IH|X ev k IH]; cbn in *; auto.
  - destruct Hp as [? Hk]. split; [done|]. intros r. apply IH, Hk.
  - destruct Hp as [? Hk]. split; [done|]. intros r. apply IH, Hk.
Qed.

Lemma only_events_call {X : Type} (P : forall X, Event X -> Prop) (ev : Event X) :
  P X ev -> only_events P (call ev).
Proof. intros. cbn. split; [done|]. by intros [e|x]. Qed.

Lemma only_events_await {X : Type} (P : forall X, Event X -> Prop) (ev : Event X) :
  P X ev -> only_events P (await ev).
Proof. intros. cbn. split; [done|]. by intros [e|x]. Qed.

(** No effect of [sendMonadMintTx] is a balance request. *)
Lemma sendMonadMintTx_asks_no_balance (key : string) (msg : Message) (retryCount : nat) :
  only_events not_a_balance_request (sendMonadMintTx key msg retryCount).
Proof.
  assert (Hattempt : only_events not_a_balance_request (attempt key msg)).
  { unfold attempt.
    repeat (first
      [ apply only_events_bind; [|intros ?]
      | by apply only_events_call
      | by apply only_events_await
      | done ]). }
  assert (Hfinal : forall error,
    only_events not_a_balance_request (final_failure key msg error)).
  { intros error. unfold final_failure.
    repeat (first
      [ apply only_events_bind; [|intros ?]
      | by apply only_events_call
      | done ]). }
  unfold sendMonadMintTx. generalize (2 - retryCount) as budget.
  intros budget. revert retryCount.
  induction budget as [|budget IH]; intros retryCount; cbn [sendMonadMintTx_from];
    (apply only_events_try_catch;
     [ apply only_events_bind; [exact Hattempt | done]
     | intros e; destruct (retryCount <? 2)%nat;
       [ apply only_events_bind; [by apply only_events_call|]
       | apply Hfinal ] ]).
  - done.
  - intros _. apply IH.
Qed.

Lemma handle_other_keeps_balance_requests {X : Type} (ev : Event X) (w : World) :
  not_a_balance_request X ev ->
  balance_requests (calls (handle ev w).1) = balance_requests (calls w).
Proof.
  destruct ev as [| |key| |addr|addr|acct tx|s timeout|chat text|record];
    cbn [handle not_a_balance_request]; try done.
  - by destruct (contract w).
  - intros _. destruct (eth_getTransactionCount (remote w) addr) as [r answer].
    cbn. unfold balance_requests. rewrite omap_app. cbn. by rewrite app_nil_r.
  - by destruct (sign_failure acct tx).
  - intros _. destruct (eth_sendSignedTransaction (remote w) s) as [[r latency] outcome].
    cbn. unfold balance_requests. rewrite omap_app. cbn. by rewrite app_nil_r.
Qed.

Lemma exec_asks_no_balance {A : Type} (p : prog A) (w : World) :
  only_events not_a_balance_request p ->
  balance_requests (calls (exec p w).1) = balance_requests (calls w).
Proof.
  revert w. induction p as [a|e|X ev k IH|X ev k IH]; intros w Hp; cbn in *; try done.
  - destruct Hp as [Hev Hk].
    pose proof (handle_other_keeps_balance_requests ev w Hev) as E.
    destruct (handle ev w) as [w' r]. rewrite IH by done. exact E.
  - destruct Hp as [Hev Hk].
    pose proof (handle_other_keeps_balance_requests ev w Hev) as E.
    destruct (handle ev w) as [w' r]. rewrite IH by done. exact E.
Qed.

(** Whatever the balance of the wallet, [sendMonadMintTx] runs to its end
    without asking the node for it. *)
Lemma sendMonadMintTx_never_reads_balance (key : string) (msg : Message)
    (retryCount : nat) (w : World) :
  balance_requests (calls (exec (sendMonadMintTx key msg retryCount) w).1)
    = balance_requests (calls w).
Proof. apply exec_asks_no_balance, sendMonadMintTx_asks_no_balance. Qed.

(** [mintNFT] does make the check: with a balance below
    [GAS_LIMIT * GAS_PRICE] it reports the shortfall and returns, having
    asked the node for the balance and nothing else. *)
Lemma mintNFT_insufficient_balance (key : string) (chatId : Z) (w : World)
    (c : string) (acct : Account) (r : Remote) (balance : Z) :
  contract w = Some c ->
  privateKeyToAccount (normalize_key key) = inr acct ->
  eth_getBalance (remote w) (address acct) = (r, inr balance) ->
  (balance < GAS_LIMIT (config w) * GAS_PRICE (config w))%Z ->
  exec (mintNFT key chatId) w =
    (with_message chatId
       (InsufficientBalance (address acct) balance
          (GAS_LIMIT (config w) * GAS_PRICE (config w)))
       (with_remote r (FetchedBalance (address acct) (inr balance)) w),
     inr tt).
Proof.
  intros Hc Hkey Hbal Hlt. unfold mintNFT.
  rewrite exec_bind, exec_call. cbn [handle]. rewrite Hc.
  rewrite exec_try_catch.
  rewrite exec_bind, exec_call. cbn [handle]. rewrite Hkey.
  rewrite exec_bind, exec_await. cbn [handle]. rewrite Hbal.
  rewrite exec_bind, exec_call. cbn [handle with_remote config].
  apply Z.ltb_lt in Hlt. rewrite Hlt.
  rewrite exec_await. reflexivity.
Qed.

End BalanceFacts.

(** ** Nonces under concurrent calls *)

Lemma fetched_nonces_snoc (a : string) (cs : list RemoteCall) (c : RemoteCall) :
  fetched_nonces a (cs ++ [c]) =
    fetched_nonces a cs ++
      match c with
      | FetchedNonce b (inr n) => if decide (b = a) then [n] else []
      | _ => []
      end.
Proof.
  unfold fetched_nonces. rewrite omap_app. f_equal. cbn.
  destruct c as [b [e|n]| |]; try done. by destruct (decide (b = a)).
Qed.

Lemma non_decreasing_snoc (l : list Z) (x : Z) :
  non_decreasing l -> Forall (fun y => (y <= x)%Z) l -> non_decreasing (l ++ [x]).
Proof.
  induction l as [|y l IH]; cbn; [by auto|].
  intros [Hy Hl] Hx. apply Forall_cons in Hx as [Hyx Hx]. split.
  - apply Forall_app. split; [done|]. by apply Forall_singleton.
  - by apply IH.
Qed.

Lemma nonces_fetched_first_snoc (seen cs : list RemoteCall) (c : RemoteCall) :
  nonces_fetched_first seen cs ->
  match c with
  | Submitted s _ =>
      exists n, tx_nonce (rawTransaction s) = Some n /\
                FetchedNonce (signed_by s) (inr n) ∈ seen ++ cs
  | _ => True
  end ->
  nonces_fetched_first seen (cs ++ [c]).
Proof.
  revert seen. induction cs as [|c' cs IH]; intros seen Hcs Hc; cbn in *.
  - rewrite app_nil_r in Hc. done.
  - destruct Hcs as [Hc' Hcs]. split; [done|]. apply IH; [done|].
    by rewrite <- app_assoc.
Qed.

(** The same property, read off a position of the trace. *)
Lemma nonces_fetched_first_at (seen cs pre post : list RemoteCall) (s : SignedTx)
    (o : Error + Receipt) :
  nonces_fetched_first seen cs ->
  cs = pre ++ Submitted s o :: post ->
  exists n, tx_nonce (rawTransaction s) = Some n /\
            FetchedNonce (signed_by s) (inr n) ∈ seen ++ pre.
Proof.
  revert seen cs. induction pre as [|c pre IH]; intros seen cs Hcs ->; cbn in *.
  - rewrite app_nil_r. by destruct Hcs.
  - destruct Hcs as [_ Hcs]. destruct (IH _ _ Hcs eq_refl) as (n & Hn & Hin).
    exists n. split; [done|]. by rewrite <- app_assoc in Hin.
Qed.

Section NonceFacts.

Context `{Web3}.

Lemma submits_own_nonce_bind {A B : Type} (p : prog A) (f : A -> prog B) (own : Held) :
  submits_own_nonce own p ->
  (forall own' a, submits_own_nonce own' (f a)) ->
  submits_own_nonce own (p ≫= f).
Proof.
  intros Hp Hf. revert own Hp.
  induction p as [a|e|X ev k IH|X ev k IH]; intros own Hp; cbn in *; auto.
  - destruct Hp as [? Hk]. split; [done|]. intros w. apply IH, Hk.
  - destruct Hp as [? Hk]. split; [done|]. intros w. apply IH, Hk.
Qed.

Lemma submits_own_nonce_try_catch {A : Type} (p : prog A) (h : Error -> prog A)
    (own : Held) :
  submits_own_nonce own p ->
  (forall own' e, submits_own_nonce own' (h e)) ->
  submits_own_nonce own (try_catch p h).
Proof.
  intros Hp Hh. revert own Hp.
  induction p as [a|e|X ev k IH|X ev k IH]; intros own Hp; cbn in *; auto.
  - destruct Hp as [? Hk]. split; [done|]. intros w. apply IH, Hk.
  - destruct Hp as [? Hk]. split; [done|]. intros w. apply IH, Hk.
Qed.

Lemma submits_own_nonce_call {X : Type} (ev : Event X) (own : Held) :
  submits_held own ev -> submits_own_nonce own (call ev).
Proof. intros. cbn. split; [done|]. intros w. by destruct (handle ev w).2. Qed.

(** An attempt submits the nonce it was just given. *)
Lemma attempt_submits_own_nonce (key : string) (msg : Message) (own : Held) :
  submits_own_nonce own (attempt key msg).
Proof.
  unfold attempt. cbn. split; [done|]. intros w0.
  destruct (privateKeyToAccount key) as [e|acct]; cbn; [done|].
  split; [done|]. intros w1.
  destruct (eth_getTransactionCount (remote w1) (address acct)) as [r1 [e|n]];
    cbn; [done|].
  split; [done|]. intros w2. split; [done|]. intros w3.
  destruct (contract w3); cbn; [|done].
  split; [done|]. intros w4.
  destruct (sign_failure acct _); cbn; [done|].
  split; [by exists n|]. intros w5.
  destruct (eth_sendSignedTransaction _ _) as [[r2 latency] outcome]. cbn.
  destruct (if (latency <? 60000)%Z then outcome else inl timed_out); cbn; [done|].
  split; [done|]. intros w6. split; [done|]. intros w7. done.
Qed.

Lemma final_failure_submits_own_nonce (key : string) (msg : Message) (error : Error)
    (own : Held) :
  submits_own_nonce own (final_failure key msg error).
Proof.
  unfold final_failure. cbn. split; [done|]. intros w0. split; [done|]. intros w1.
  destruct (privateKeyToAccount key); cbn; [done|].
  split; [done|]. intros w2. done.
Qed.

Lemma sendMonadMintTx_submits_own_nonce (key : string) (msg : Message)
    (retryCount : nat) (own : Held) :
  submits_own_nonce own (sendMonadMintTx key msg retryCount).
Proof.
  unfold sendMonadMintTx. generalize (2 - retryCount) as budget.
  intros budget. revert retryCount own.
  induction budget as [|budget IH]; intros retryCount own; cbn [sendMonadMintTx_from];
    (apply submits_own_nonce_try_catch;
     [ apply submits_own_nonce_bind; [apply attempt_submits_own_nonce | done]
     | intros own' e; destruct (retryCount <? 2)%nat;
       [ apply submits_own_nonce_bind; [by apply submits_own_nonce_call|]
       | apply final_failure_submits_own_nonce ] ]).
  - done.
  - intros. apply IH.
Qed.

Lemma held_in_mono (own : Held) (cs cs' : list RemoteCall) :
  cs `prefix_of` cs' -> held_in own cs -> held_in own cs'.
Proof.
  intros [k ->]. destruct own as [[a n]|]; cbn; [|done].
  intros. apply elem_of_app. by left.
Qed.

Lemma task_ok_mono {A : Type} (cs cs' : list RemoteCall) (p : prog A) :
  cs `prefix_of` cs' -> task_ok cs p -> task_ok cs' p.
Proof. intros Hpre (own & ? & ?). exists own. eauto using held_in_mono. Qed.

End NonceFacts.

Section NonceHeld.

Context `{Web3}.

(** One effect of a well behaved call keeps the trace well formed, whatever
    the node is. *)
Lemma handle_held {X : Type} (ev : Event X) (w : World) (own : Held) :
  nonces_fetched_first [] (calls w) ->
  submits_held own ev ->
  held_in own (calls w) ->
  nonces_fetched_first [] (calls (handle ev w).1) /\
  held_in (next_held own ev (handle ev w).2) (calls (handle ev w).1) /\
  calls w `prefix_of` calls (handle ev w).1.
Proof.
  intros Hfirst Hev Hown.
  destruct ev as [| |key| |addr|addr|acct tx|s timeout|chat text|record];
    cbn [handle next_held].
  - done.
  - done.
  - done.
  - by destruct (contract w).
  - destruct (eth_getTransactionCount (remote w) addr) as [r answer] eqn:Hq.
    cbn [fst snd with_remote calls]. split_and!.
    + by apply nonces_fetched_first_snoc.
    + destruct answer as [e|n].
      * eapply held_in_mono; [|exact Hown]. by apply prefix_app_r.
      * cbn. apply elem_of_app. right. by apply list_elem_of_singleton.
    + by apply prefix_app_r.
  - destruct (eth_getBalance (remote w) addr) as [r answer] eqn:Hq.
    cbn [fst snd with_remote calls]. split_and!.
    + by apply nonces_fetched_first_snoc.
    + eapply held_in_mono; [|exact Hown]. by apply prefix_app_r.
    + by apply prefix_app_r.
  - by destruct (sign_failure acct tx).
  - destruct (eth_sendSignedTransaction (remote w) s) as [[r latency] outcome] eqn:Hq.
    cbn [fst snd with_remote calls]. split_and!.
    + apply nonces_fetched_first_snoc; [done|].
      destruct Hev as (n & Hn & ->). exists n. split; [done|]. exact Hown.
    + eapply held_in_mono; [|exact Hown]. by apply prefix_app_r.
    + by apply prefix_app_r.
  - done.
  - done.
Qed.

Lemma settle_held {A : Type} (p : prog A) (own : Held) (w : World) :
  nonces_fetched_first [] (calls w) ->
  submits_own_nonce own p ->
  held_in own (calls w) ->
  nonces_fetched_first [] (calls (settle p w).2) /\
  task_ok (calls (settle p w).2) (settle p w).1 /\
  calls w `prefix_of` calls (settle p w).2.
Proof.
  revert own w. induction p as [a|e|X ev k IH|X ev k IH]; intros own w Hw Hp Hown;
    cbn [settle fst snd]; try (split_and!; [done|by exists own|done]).
  destruct Hp as [Hev Hk].
  destruct (handle_held ev w own Hw Hev Hown) as (Hw' & Hown' & Hpre).
  specialize (Hk w).
  destruct (handle ev w) as [w' r]. cbn [fst snd] in *.
  destruct (IH r _ w' Hw' Hk Hown') as (? & ? & ?).
  split_and!; try done. by etrans.
Qed.

Lemma resume_held {A : Type} (p : prog A) (w : World) :
  nonces_fetched_first [] (calls w) ->
  task_ok (calls w) p ->
  nonces_fetched_first [] (calls (resume p w).2) /\
  task_ok (calls (resume p w).2) (resume p w).1 /\
  calls w `prefix_of` calls (resume p w).2.
Proof.
  intros Hw (own & Hp & Hown).
  destruct p as [a|e|X ev k|X ev k]; cbn [resume fst snd];
    try (split_and!; [done|by exists own|done]).
  destruct Hp as [Hev Hk].
  destruct (handle_held ev w own Hw Hev Hown) as (Hw' & Hown' & Hpre).
  specialize (Hk w).
  destruct (handle ev w) as [w' r]. cbn [fst snd] in *.
  destruct (settle_held (k r) _ w' Hw' Hk Hown') as (? & ? & ?).
  split_and!; try done. by etrans.
Qed.

Lemma step_held {A : Type} (st : Pool A) (i : nat) :
  pool_held st -> pool_held (step st i).
Proof.
  intros [Hw Hpool]. unfold step.
  destruct (st.1 !! i) as [p|] eqn:Hi; [|done].
  assert (Hp : task_ok (calls st.2) p).
  { eapply Forall_lookup_1; eauto. }
  destruct (resume_held p st.2 Hw Hp) as (Hw' & Hp' & Hpre).
  destruct (resume p st.2) as [p' w']. cbn [fst snd] in *.
  split; [done|]. cbn [fst snd].
  apply Forall_insert; [|done].
  eapply Forall_impl; [exact Hpool|]. intros q. by apply task_ok_mono.
Qed.

Lemma run_held {A : Type} (schedule : list nat) (st : Pool A) :
  pool_held st -> pool_held (run schedule st).
Proof.
  revert st. induction schedule as [|i schedule IH]; intros st Hst; [done|].
  cbn. apply IH. by apply step_held.
Qed.

Lemma spawn_all_held {A : Type} (ps : list (prog A)) (w : World) :
  nonces_fetched_first [] (calls w) ->
  Forall (submits_own_nonce None) ps ->
  pool_held (spawn_all ps w).
Proof.
  intros Hw Hps. unfold spawn_all.
  assert (Hstart : pool_held (([], w) : Pool A))
    by (split; [done|by constructor]).
  revert Hstart. generalize (([], w) : Pool A) as st.
  induction Hps as [|p ps Hp _ IH]; intros st Hst; [done|].
  cbn [foldl]. apply IH.
  destruct Hst as [Hw' Hpool].
  destruct (settle_held p None st.2 Hw' Hp I) as (? & ? & ?).
  destruct (settle p st.2) as [p' w']. cbn [fst snd] in *.
  split; [done|]. cbn [fst snd]. apply Forall_app. split.
  - eapply Forall_impl; [exact Hpool|]. intros q. by apply task_ok_mono.
  - by apply Forall_singleton.
Qed.

(** A nonce that was submitted for an address was handed out for it. *)
Lemma submitted_were_fetched (cs : list RemoteCall) (a : string) (n : Z) :
  nonces_fetched_first [] cs ->
  n ∈ submitted_nonces a cs -> n ∈ fetched_nonces a cs.
Proof.
  intros Hcs Hn. unfold submitted_nonces in Hn.
  apply list_elem_of_omap in Hn as (c & Hc & Hn).
  destruct c as [| |s o]; try done.
  destruct (decide (signed_by s = a)) as [<-|]; [|done].
  apply list_elem_of_split in Hc as (pre & post & ->).
  destruct (nonces_fetched_first_at [] _ pre post s o Hcs eq_refl) as (m & Hm & Hin).
  assert (m = n) as -> by congruence.
  unfold fetched_nonces. apply list_elem_of_omap.
  exists (FetchedNonce (signed_by s) (inr n)). split.
  - apply elem_of_app. by left.
  - by rewrite decide_True.
Qed.

End NonceHeld.

Section NonceOrder.

Context `{Web3}.

(** What is asked of the node: it has a pending count per address that no
    request makes smaller, and the answer to [getTransactionCount] lies
    between the count before and the count after the request. *)
Variable pending_count : Remote -> string -> Z.

Hypothesis count_answer : forall r a r' n,
  eth_getTransactionCount r a = (r', inr n) ->
  (pending_count r a <= n <= pending_count r' a)%Z.
Hypothesis count_kept : forall r a r' answer b,
  eth_getTransactionCount r a = (r', answer) ->
  (pending_count r b <= pending_count r' b)%Z.
Hypothesis balance_kept : forall r a r' answer b,
  eth_getBalance r a = (r', answer) ->
  (pending_count r b <= pending_count r' b)%Z.
Hypothesis submit_kept : forall r s r' latency outcome b,
  eth_sendSignedTransaction r s = (r', latency, outcome) ->
  (pending_count r b <= pending_count r' b)%Z.

Lemma counts_ok_other (w : World) (r : Remote) (c : RemoteCall) :
  counts_ok pending_count w ->
  (forall b, (pending_count (remote w) b <= pending_count r b)%Z) ->
  (forall a answer, c <> FetchedNonce a (inr answer)) ->
  counts_ok pending_count (with_remote r c w).
Proof.
  intros Hw Hr Hc a. destruct (Hw a) as [Hsorted Hbound].
  cbn [with_remote calls remote]. rewrite fetched_nonces_snoc.
  assert (match c with
          | FetchedNonce b (inr n) => if decide (b = a) then [n] else []
          | _ => []
          end = []) as ->.
  { destruct c as [b [e|n]| |]; try done. by destruct (Hc b n). }
  rewrite app_nil_r. split; [done|].
  eapply Forall_impl; [exact Hbound|]. intros n Hn. cbn in Hn. specialize (Hr a). lia.
Qed.

(** The answers of such a node stay in order, whoever asks. *)
Lemma handle_counts {X : Type} (ev : Event X) (w : World) :
  counts_ok pending_count w -> counts_ok pending_count (handle ev w).1.
Proof.
  intros Hcounts.
  destruct ev as [| |key| |addr|addr|acct tx|s timeout|chat text|record];
    cbn [handle]; try done.
  - by destruct (contract w).
  - destruct (eth_getTransactionCount (remote w) addr) as [r answer] eqn:Hq.
    cbn [fst]. intros a. destruct (Hcounts a) as [Hsorted Hbound].
    cbn [with_remote calls remote]. rewrite fetched_nonces_snoc.
    pose proof (count_kept _ _ _ _ a Hq) as Hmono.
    assert (Hold : Forall (fun n => (n <= pending_count r a)%Z)
                     (fetched_nonces a (calls w))).
    { eapply Forall_impl; [exact Hbound|]. intros n Hn. cbn in Hn. lia. }
    destruct answer as [e|n]; [by rewrite app_nil_r|].
    destruct (decide (addr = a)) as [->|]; [|by rewrite app_nil_r].
    destruct (count_answer _ _ _ _ Hq) as [Hlo Hhi]. split.
    + apply non_decreasing_snoc; [done|].
      eapply Forall_impl; [exact Hbound|]. intros m Hm. cbn in Hm. lia.
    + apply Forall_app. split; [done|]. by apply Forall_singleton.
  - destruct (eth_getBalance (remote w) addr) as [r answer] eqn:Hq.
    cbn [fst]. apply counts_ok_other; [done| |done]. intros b. by eapply balance_kept.
  - by destruct (sign_failure acct tx).
  - destruct (eth_sendSignedTransaction (remote w) s) as [[r latency] outcome] eqn:Hq.
    cbn [fst]. apply counts_ok_other; [done| |done]. intros b. by eapply submit_kept.
Qed.

Lemma exec_counts {A : Type} (p : prog A) (w : World) :
  counts_ok pending_count w -> counts_ok pending_count (exec p w).1.
Proof.
  revert w. induction p as [a|e|X ev k IH|X ev k IH]; intros w Hw; try done.
  - cbn [exec]. pose proof (handle_counts ev w Hw) as Hw'.
    destruct (handle ev w) as [w' r]. by apply IH.
  - cbn [exec]. pose proof (handle_counts ev w Hw) as Hw'.
    destruct (handle ev w) as [w' r]. by apply IH.
Qed.

Lemma settle_counts {A : Type} (p : prog A) (w : World) :
  counts_ok pending_count w -> counts_ok pending_count (settle p w).2.
Proof.
  revert w. induction p as [a|e|X ev k IH|X ev k IH]; intros w Hw; try done.
  cbn [settle]. pose proof (handle_counts ev w Hw) as Hw'.
  destruct (handle ev w) as [w' r]. by apply IH.
Qed.

Lemma resume_counts {A : Type} (p : prog A) (w : World) :
  counts_ok pending_count w -> counts_ok pending_count (resume p w).2.
Proof.
  destruct p as [a|e|X ev k|X ev k]; intros Hw; try done.
  cbn [resume]. pose proof (handle_counts ev w Hw) as Hw'.
  destruct (handle ev w) as [w' r]. by apply settle_counts.
Qed.

Lemma run_counts {A : Type} (schedule : list nat) (st : Pool A) :
  counts_ok pending_count st.2 -> counts_ok pending_count (run schedule st).2.
Proof.
  revert st. induction schedule as [|i schedule IH]; intros st Hst; [done|].
  cbn. apply IH. unfold step. destruct (st.1 !! i) as [p|]; [|done].
  pose proof (resume_counts p st.2 Hst) as Hres.
  by destruct (resume p st.2) as [p' w'].
Qed.

Lemma spawn_all_counts {A : Type} (ps : list (prog A)) (w : World) :
  counts_ok pending_count w -> counts_ok pending_count (spawn_all ps w).2.
Proof.
  intros Hw. unfold spawn_all.
  assert (Hstart : counts_ok pending_count (([], w) : Pool A).2) by done.
  revert Hstart. generalize (([], w) : Pool A) as st.
  induction ps as [|p ps IH]; intros st Hst; [done|].
  cbn [foldl]. apply IH.
  pose proof (settle_counts p st.2 Hst) as Hres.
  by destruct (settle p st.2) as [p' w'].
Qed.

End NonceOrder.

(** ** The functions at work on the small node *)

Module Scenarios.

Import TestNet.
#[local] Existing Instance web3.

(** *** The small node never lowers a pending count *)

Lemma submit_kept (r : Node) (s : SignedTx) (r' : Node) (latency : Z)
    (outcome : Error + Receipt) (b : string) :
  submit r s = (r', latency, outcome) -> (pending_of r b <= pending_of r' b)%Z.
Proof.
  unfold submit. intros E.
  destruct (balance_of r (signed_by s) <? _)%Z.
  { injection E as <- _ _. done. }
  case_bool_decide.
  - injection E as <- _ _. unfold pending_of at 2. cbn [pending].
    rewrite lookup_insert. case_decide as Hb; [|done].
    subst b. cbn. lia.
  - injection E as <- _ _. done.
Qed.

(** *** Nonces of one address *)

(** C3, counterexample. One request whose submissions the node rejects is
    handed nonce 0 on each of its three attempts. Two concurrent requests
    for one address are both handed nonce 0 and both submit a transaction
    with it; the second is rejected and retried with nonce 1. In neither run
    are the nonces obtained for the address strictly increasing. *)
Lemma nonces_are_handed_out_twice :
  fetched_nonces alice
    (calls (exec (sendMonadMintTx alice_key msg 0) (world (unfunded []))).1)
    = [0; 0; 0]%Z /\
  ~ strictly_increasing
      (fetched_nonces alice
         (calls (exec (sendMonadMintTx alice_key msg 0) (world (unfunded []))).1)) /\
  fetched_nonces alice (calls double_mint.2) = [0; 0; 1]%Z /\
  submitted_nonces alice (calls double_mint.2) = [0; 0; 1]%Z /\
  ~ strictly_increasing (fetched_nonces alice (calls double_mint.2)).
Proof.
  assert (E1 : fetched_nonces alice
                 (calls (exec (sendMonadMintTx alice_key msg 0) (world (unfunded []))).1)
               = [0; 0; 0]%Z) by (vm_compute; reflexivity).
  assert (E2 : fetched_nonces alice (calls double_mint.2) = [0; 0; 1]%Z)
    by (vm_compute; reflexivity).
  split_and!.
  - exact E1.
  - rewrite E1. cbn. intros [Hlt _]. apply Forall_cons in Hlt as [Hlt _]. lia.
  - exact E2.
  - vm_compute. reflexivity.
  - rewrite E2. cbn. intros [Hlt _]. apply Forall_cons in Hlt as [Hlt _]. lia.
Qed.

(** The batch of [double_mint] is what the [/mint] handler starts when
    [CONFIG.WALLETS] lists the wallet twice; with the [CONFIG] of
    [server2.js] as written the handler throws. *)
Example on_mint_starts_the_batch :
  on_mint msg (world (funded [alice] []))
    = inl (TypeError "Cannot read properties of undefined (reading 'map')") /\
  fetched_nonces alice
    (calls (run [0; 1; 0; 1; 0; 1; 1; 1; 1]
              (default ([], world (unfunded []))
                 (match on_mint msg (world_with [alice_key; alice_key] (funded [alice] [])) with
                  | inr st => Some st
                  | inl _ => None
                  end))).2)
    = [0; 0; 1]%Z.
Proof. split; [reflexivity|vm_compute; reflexivity]. Qed.


(** *** Retries *)

(** The retry bound at the slow node: two timeouts, then a receipt for the
    transaction with nonce 2. *)
Lemma retry_bound_witness :
  exists w',
    exec (sendMonadMintTx alice_key msg 0) (world slow_node) =
      (w', inr (Some (mkReceipt "0xtx:0x00000000000000000000000000000000000a11ce:2"))) /\
    fetched_nonces alice (calls w') = [0; 1; 2]%Z /\
    submitted_nonces alice (calls w') = [0; 1; 2]%Z /\
    outbox w' =
      [(7, Retrying 1); (7, Retrying 2);
       (7, MintSuccessful "https://testnet.monadexplorer.com/tx/"
             "0xtx:0x00000000000000000000000000000000000a11ce:2")]%Z /\
    ledger_size (store w') = 1.
Proof.
  edestruct (retry_bound (H := web3) alice_key msg (world slow_node)
               (mkAccount alice) (CONTRACT_ADDRESS CONFIG))
    as (w' & Hexec & Hcalls & Hout & Hstore & Hfile).
  - reflexivity.
  - reflexivity.
  - reflexivity.
  - intros e. discriminate.
  - reflexivity.
  - reflexivity.
  - reflexivity.
  - reflexivity.
  - reflexivity.
  - reflexivity.
  - reflexivity.
  - reflexivity.
  - exists w'. split_and!.
    + exact Hexec.
    + rewrite Hcalls. reflexivity.
    + rewrite Hcalls. reflexivity.
    + rewrite Hout. reflexivity.
    + unfold ledger_size, stored_history. rewrite Hfile. reflexivity.
Defined.

(** The same request against a node that rejects every submission: three
    attempts, then the promise is fulfilled with no value and one failed
    entry is in the history. *)
Example three_rejections :
  (exec (sendMonadMintTx alice_key msg 0) (world (unfunded []))).2 = inr None /\
  stored_history (store (exec (sendMonadMintTx alice_key msg 0) (world (unfunded []))).1)
    = [mkEntry (failure_record alice funds_error) 1700000000000].
Proof. split; vm_compute; reflexivity. Qed.

(** *** A wallet that cannot pay *)

(** C5, at the failing input: a wallet with balance 0, which is less than
    [GAS_LIMIT * GAS_PRICE]. [sendMonadMintTx] never asks for the balance:
    it fetches a nonce and submits three times, and reports the node's
    rejection after the retries. [mintNFT], on the same world, reports the
    insufficient balance at once and asks for no nonce. *)
Theorem sendMonadMintTx_has_no_balance_check :
  (balance_of (unfunded []) alice <? GAS_LIMIT CONFIG * GAS_PRICE CONFIG)%Z = true /\
  (exec (sendMonadMintTx alice_key msg 0) (world (unfunded []))).2 = inr None /\
  calls (exec (sendMonadMintTx alice_key msg 0) (world (unfunded []))).1 =
    [FetchedNonce alice (inr 0%Z);
     Submitted (signed_mint CONFIG alice 0) (inl funds_error);
     FetchedNonce alice (inr 0%Z);
     Submitted (signed_mint CONFIG alice 0) (inl funds_error);
     FetchedNonce alice (inr 0%Z);
     Submitted (signed_mint CONFIG alice 0) (inl funds_error)] /\
  outbox (exec (sendMonadMintTx alice_key msg 0) (world (unfunded []))).1 =
    [(7, Retrying 1); (7, Retrying 2);
     (7, FinalAttemptFailed (message funds_error))]%Z /\
  calls (exec (mintNFT alice_key 7) (world (unfunded []))).1 =
    [FetchedBalance alice (inr 0%Z)] /\
  outbox (exec (mintNFT alice_key 7) (world (unfunded []))).1 =
    [(7, InsufficientBalance alice 0 500000000000000)]%Z.
Proof. vm_compute. repeat split. Qed.

(** *** A key the library refuses *)

(** C9, at the failing input: with a key that is not 32 bytes long the
    promise is rejected. All three attempts throw, and the [catch] block of
    the last one throws again while computing the address for the history
    entry: no failed entry is written. In a batch with a good key,
    [Promise.all] is rejected as soon as the calls are started (the handler
    reports that some mints failed), while the other call goes on to its
    end. *)
Theorem sendMonadMintTx_rejects_on_bad_key :
  account_of bad_key = inl key_error /\
  (exec (sendMonadMintTx bad_key msg 0) (world (funded [alice] []))).2 = inl key_error /\
  store (exec (sendMonadMintTx bad_key msg 0) (world (funded [alice] []))).1 =
    store (world (funded [alice] [])) /\
  outbox (exec (sendMonadMintTx bad_key msg 0) (world (funded [alice] []))).1 =
    [(7, Retrying 1); (7, Retrying 2);
     (7, FinalAttemptFailed (message key_error))]%Z /\
  Promise_all (map settled mixed_batch_started.1) = Some (inl key_error) /\
  batch_notice mixed_batch_started = Some SomeMintsFailed /\
  map settled mixed_batch_done.1 =
    [Some (inl key_error);
     Some (inr (Some (mkReceipt "0xtx:0x0000000000000000000000000000000000000b0b:0")))] /\
  stored_history (store mixed_batch_done.2) =
    [mkEntry (success_record bob
                (mkReceipt "0xtx:0x0000000000000000000000000000000000000b0b:0"))
       1700000000000].
Proof.
  assert (Hkey : privateKeyToAccount bad_key = inl key_error) by reflexivity.
  rewrite (sendMonadMintTx_bad_key bad_key msg _ key_error Hkey).
  split_and!; try reflexivity; vm_compute; reflexivity.
Qed.

(** *** The ledger *)

(** The ledger bound on 150 sample results appended to a fresh store. *)
Lemma ledger_keeps_last_100_witness :
  length sample_results = 150 /\
  txHistoryFile (saveAll sample_results fresh_store)
    = Holds (drop 50 (entries sample_results)) /\
  ledger_size (saveAll sample_results fresh_store) = 100 /\
  (forall k, ledger_size (saveAll (take (S k) sample_results) fresh_store) <= 100) /\
  getTxHistory 10 (saveAll sample_results fresh_store)
    = (reverse (drop 140 (entries sample_results)), saveAll sample_results fresh_store).
Proof.
  split; [reflexivity|].
  apply (ledger_keeps_last_100 sample_results fresh_store); [reflexivity|].
  intros e. discriminate.
Defined.

(** The ten entries [getTxHistory 10] returns after the 150 appends are
    numbers 149 down to 140. *)
Example recent_ten :
  map (fun e => tx_error (h_tx e))
    (getTxHistory 10 (saveAll sample_results fresh_store)).1
    = map (fun i : nat => Some (pretty i)) [149; 148; 147; 146; 145; 144; 143; 142; 141; 140].
Proof. vm_compute. reflexivity. Qed.

(** *** The vault *)

(** The round trip of the stand-in vault. *)
Lemma vault_round_trip_witness :
  (@decryptWallets string Standin.crypto Standin.vault Standin.password).2
    = inr Standin.creds.
Proof.
  apply (vault_round_trip (H := Standin.crypto)
           Standin.creds Standin.password Standin.iv Standin.salt);
    vm_compute; reflexivity.
Defined.

(** The stand-in vault opened with another password. *)
Lemma decrypt_verifies_before_decrypting_witness :
  (@decryptWallets string Standin.crypto Standin.vault "guess").2 = inl IntegrityError /\
  CallDecipher ∉ (@decryptWallets string Standin.crypto Standin.vault "guess").1.
Proof.
  eapply (proj1 (decrypt_verifies_before_decrypting (H := Standin.crypto) "guess"));
    try reflexivity.
  vm_compute. discriminate.
Defined.

(** C7, counterexample: a vault whose [iv] field is lost. The load falls
    back to the empty credential set and logs an error, but the error is
    the [TypeError] of [Buffer.from], not the integrity error. *)
Lemma lost_iv_is_a_type_error :
  (@decryptWallets string Standin.crypto Standin.vault_without_iv Standin.password).2
    = inl (TypeError invalid_arg_message) /\
  @loadWallets string Standin.crypto Standin.password (Holds Standin.vault_without_iv)
      Standin.empty_keyring
    = {| wallets := []; logs := [ErrorLoadFailed invalid_arg_message] |} /\
  TypeError invalid_arg_message <> IntegrityError /\
  ErrorLoadFailed invalid_arg_message <> ErrorLoadFailed (message IntegrityError).
Proof. split_and!; [reflexivity|reflexivity|discriminate|discriminate]. Qed.

(** The recovery from the vault without iv. *)
Lemma loadWallets_failure_recovery_witness :
  exists e,
    (@decryptWallets string Standin.crypto Standin.vault_without_iv Standin.password).2
      = inl e /\
    (is_Some (v_iv Standin.vault_without_iv) /\
     is_Some (v_salt Standin.vault_without_iv) /\
     is_Some (v_encryptedData Standin.vault_without_iv) ->
     e = IntegrityError) /\
    (v_iv Standin.vault_without_iv = None \/
     v_salt Standin.vault_without_iv = None \/
     v_encryptedData Standin.vault_without_iv = None ->
     exists what, e = TypeError what).
Proof.
  apply (proj2 (proj2 (loadWallets_failure_recovery (H := Standin.crypto)
                         Standin.password Standin.empty_keyring))).
  left. reflexivity.
Defined.

(** The iv is not covered by the tag: with one bit of the stored iv flipped
    the stand-in vault still opens, to a different first credential. *)
Example flipped_iv_goes_unnoticed :
  (@decryptWallets string Standin.crypto
     (with_iv (Some "0102030405060708090a0b0c0d0e0f11") Standin.vault)
     Standin.password).2
    = inr ["0x00000000000001000000000000000000000000000000000000000000000a11ce";
           "0x0000000000000000000000000000000000000000000000000000000000000b0b"].
Proof. vm_compute. reflexivity. Qed.

End Scenarios.

(** * Further properties *)

(** ** The ledger over any run of appends *)

Lemma keep_last_S_snoc {A : Type} (n : nat) (l : list A) (x : A) :
  keep_last (S n) (l ++ [x]) = keep_last n l ++ [x].
Proof.
  unfold keep_last. rewrite length_app. cbn [length].
  replace (length l + 1 - S n) with (length l - n) by lia.
  rewrite drop_app_le by lia. reflexivity.
Qed.

Lemma keep_last_keep_last {A : Type} (n m : nat) (l : list A) :
  n <= m -> keep_last n (keep_last m l) = keep_last n l.
Proof.
  intros Hnm. unfold keep_last. rewrite length_drop, drop_drop. f_equal. lia.
Qed.

(** X1: whatever the number of results appended to a readable ledger, the
    file then holds the last 100 entries of what it held followed by the
    new entries, in insertion order; its size is the smaller of 100 and
    the total; the entry appended last is its last entry; nothing is
    logged. *)
Theorem ledger_holds_the_latest (txs : list (TxRecord * Z)) (r : TxRecord * Z)
    (st : Store) :
  readable st ->
  let final := saveAll (txs ++ [r]) st in
  txHistoryFile final =
    Holds (keep_last 100 (stored_history st ++ entries (txs ++ [r]))) /\
  ledger_size final = Nat.min 100 (ledger_size st + length txs + 1) /\
  last (stored_history final) = Some (mkEntry r.1 r.2) /\
  logged final = logged st.
Proof.
  intros Hst final.
  assert (E : final =
    {| txHistoryFile := Holds (keep_last 100 (stored_history st ++ entries (txs ++ [r])));
       logged := logged st |}).
  { unfold final. apply saveAll_readable; [|done]. by destruct txs. }
  rewrite E. unfold ledger_size, stored_history at 2 3. cbn [txHistoryFile logged].
  split_and!; try done.
  - rewrite keep_last_length, length_app. unfold entries.
    rewrite length_map, length_app. cbn [length]. lia.
  - unfold entries. rewrite map_app, app_assoc. cbn [map].
    rewrite keep_last_S_snoc. apply last_snoc.
Qed.

(** X2: a history file that does not parse is never repaired: every later
    result is dropped with one error line in the log, the file stays as it
    is, and reading the history gives the empty sequence (and one more
    error line) whatever the limit. *)
Theorem unreadable_ledger_loses_every_result (txs : list (TxRecord * Z)) (e : Error)
    (limit : Z) (st : Store) :
  txHistoryFile st = Corrupt e ->
  let final := saveAll txs st in
  txHistoryFile final = Corrupt e /\
  logged final = logged st ++ replicate (length txs) (ErrorHistorySave (message e)) /\
  (getTxHistory limit final).1 = [] /\
  txHistoryFile (getTxHistory limit final).2 = Corrupt e.
Proof.
  intros Hst final.
  assert (E : txHistoryFile final = Corrupt e /\
              logged final = logged st ++
                replicate (length txs) (ErrorHistorySave (message e))).
  { unfold final. clear final.
    induction txs as [|r txs IH] using rev_ind.
    - cbn. by rewrite app_nil_r.
    - rewrite saveAll_snoc. destruct IH as [IHf IHl].
      unfold saveTxHistory. rewrite IHf. cbn [txHistoryFile logged].
      split; [done|].
      rewrite IHl, length_app, <- app_assoc. cbn [length].
      replace (length txs + 1) with (S (length txs)) by lia.
      by rewrite replicate_S_end. }
  destruct E as [Ef El].
  unfold getTxHistory. rewrite Ef. cbn [fst snd txHistoryFile].
  done.
Qed.

(** X3: [getTxHistory] for any limit. A positive limit gives that many of
    the newest entries (all of them when there are fewer), newest first; a
    negative limit [-k] gives everything except the [k] oldest entries,
    newest first; the file is never changed and nothing is logged when it
    can be read. *)
Theorem getTxHistory_any_limit (h : list HistoryEntry) (ls : list LogEntry) (k : nat) :
  let st := {| txHistoryFile := Holds h; logged := ls |} in
  (getTxHistory (Z.of_nat (S k)) st).1 = reverse (keep_last (S k) h) /\
  length (getTxHistory (Z.of_nat (S k)) st).1 = Nat.min (S k) (length h) /\
  (getTxHistory (- Z.of_nat k) st).1 = reverse (drop k h) /\
  (forall limit, (getTxHistory limit st).2 = st).
Proof.
  intros st. unfold getTxHistory, st. cbn [txHistoryFile fst snd].
  rewrite js_slice_negative, length_reverse, keep_last_length.
  split_and!; try done.
  f_equal. unfold js_slice. rewrite Z.opp_involutive.
  destruct (Z.of_nat k <? 0)%Z eqn:E; [apply Z.ltb_lt in E; lia|].
  destruct (decide (k <= length h)).
  - f_equal. lia.
  - rewrite Z.min_r by lia. rewrite Nat2Z.id.
    by rewrite !drop_ge by lia.
Qed.

(** ** The [/history] command *)

(** X4: right after a result was saved to a readable ledger, the admin's
    [/history] gets one reply whose first block is that result, numbered 1,
    followed by at most nine older ones; the ledger is left as it is. Anyone
    else gets no reply. *)
Theorem history_shows_the_latest_first (msg : Message) (cfg : Config) (tx : TxRecord)
    (now : Z) (st : Store) :
  readable st ->
  let saved := saveTxHistory tx now st in
  (from_id msg = ADMIN_ID cfg ->
   exists older,
     on_history msg cfg saved =
       ([(chat_id msg,
          RecentTransactions (history_line cfg 0 (mkEntry tx now) :: older))], saved) /\
     length older <= 9) /\
  (from_id msg <> ADMIN_ID cfg -> on_history msg cfg saved = ([], saved)).
Proof.
  intros Hst saved. split; intros Hfrom; unfold on_history;
    [rewrite bool_decide_true by done | by rewrite bool_decide_false by done].
  unfold saved. rewrite saveTxHistory_readable by done.
  unfold getTxHistory. cbn [txHistoryFile].
  rewrite (js_slice_negative 9), keep_last_keep_last by lia.
  rewrite keep_last_S_snoc, reverse_snoc.
  cbn [length]. rewrite bool_decide_false by done.
  eexists. split; [reflexivity|].
  rewrite length_imap, length_reverse, keep_last_length. lia.
Qed.

(** ** Text helpers *)

Lemma chars_text (cs : list ascii) : chars (text cs) = cs.
Proof. apply list_ascii_of_string_of_list_ascii. Qed.

Lemma text_chars (s : string) : text (chars s) = s.
Proof. apply string_of_list_ascii_of_string. Qed.

Lemma length_chars (s : string) : length (chars s) = String.length s.
Proof. induction s as [|c s IH]; [done|]. cbn. by rewrite <- IH. Qed.

Lemma trim_start_suffix (cs : list ascii) : exists pre, cs = pre ++ trim_start cs.
Proof.
  induction cs as [|c cs [pre IH]]; [by exists []|]. cbn.
  destruct (is_white_space c).
  - exists (c :: pre). cbn. by rewrite <- IH.
  - by exists [].
Qed.

Lemma trim_end_prefix (cs : list ascii) : exists suf, cs = trim_end cs ++ suf.
Proof.
  unfold trim_end. destruct (trim_start_suffix (reverse cs)) as [pre E].
  exists (reverse pre).
  rewrite <- reverse_app, <- E. by rewrite reverse_involutive.
Qed.

Lemma trim_start_head (cs : list ascii) (c : ascii) (rest : list ascii) :
  trim_start cs = c :: rest -> is_white_space c = false.
Proof.
  induction cs as [|d cs IH]; [done|]. cbn.
  destruct (is_white_space d) eqn:E; [done|]. by intros [= <- _].
Qed.

Lemma trim_start_fixed (cs : list ascii) :
  match cs with c :: _ => is_white_space c = false | [] => True end ->
  trim_start cs = cs.
Proof. destruct cs as [|c cs]; [done|]. cbn. by intros ->. Qed.

Lemma trim_start_idemp (cs : list ascii) : trim_start (trim_start cs) = trim_start cs.
Proof.
  apply trim_start_fixed. destruct (trim_start cs) as [|c rest] eqn:E; [done|].
  by apply (trim_start_head cs c rest).
Qed.

(** Trimming twice changes nothing more. *)
Lemma trim_ends_idemp (cs : list ascii) :
  trim_end (trim_start (trim_end (trim_start cs))) = trim_end (trim_start cs).
Proof.
  assert (Hs : trim_start (trim_end (trim_start cs)) = trim_end (trim_start cs)).
  { apply trim_start_fixed.
    destruct (trim_end_prefix (trim_start cs)) as [suf E].
    destruct (trim_end (trim_start cs)) as [|c rest]; [done|].
    by apply (trim_start_head cs c (rest ++ suf)). }
  rewrite Hs. unfold trim_end at 1 2.
  by rewrite reverse_involutive, trim_start_idemp.
Qed.

Lemma trim_ends_Forall (P : ascii -> Prop) (cs : list ascii) :
  Forall P cs -> Forall P (trim_end (trim_start cs)).
Proof.
  intros Hcs.
  destruct (trim_start_suffix cs) as [pre E1].
  destruct (trim_end_prefix (trim_start cs)) as [suf E2].
  rewrite E1, E2 in Hcs. by apply Forall_app in Hcs as [_ [? _]%Forall_app].
Qed.

Lemma trim_ends_length (cs : list ascii) :
  length (trim_end (trim_start cs)) <= length cs.
Proof.
  destruct (trim_start_suffix cs) as [pre E1].
  destruct (trim_end_prefix (trim_start cs)) as [suf E2].
  rewrite E1 at 2. rewrite E2 at 2. rewrite !length_app. lia.
Qed.

Lemma filter_all {A : Type} (f : A -> bool) (l : list A) :
  Forall (fun x => f x = true) l -> List.filter f l = l.
Proof.
  induction 1 as [|x l Hx _ IH]; [done|]. cbn. by rewrite Hx, IH.
Qed.

Lemma map_fixed {A : Type} (f : A -> A) (l : list A) :
  Forall (fun x => f x = x) l -> map f l = l.
Proof. induction 1 as [|x l Hx _ IH]; [done|]. cbn. by rewrite Hx, IH. Qed.

(** X5: the output of [sanitizeInput] holds no angle bracket and no
    backtick, is no longer than the input, and is a fixed point: sanitising
    it again (or trimming it) changes nothing. *)
Theorem sanitizeInput_is_clean (input : string) :
  let out := sanitizeInput input in
  Forall (fun c => c <> "<"%char /\ c <> ">"%char /\ c <> "`"%char) (chars out) /\
  String.length out <= String.length input /\
  sanitizeInput out = out /\
  trim out = out.
Proof.
  intros out.
  set (keep := fun c => negb (Ascii.eqb c "<" || Ascii.eqb c ">")).
  set (quote := fun c : ascii => if Ascii.eqb c "`" then "'"%char else c).
  set (mid := map quote (List.filter keep (chars input))).
  assert (Hout : chars out = trim_end (trim_start mid)).
  { unfold out, sanitizeInput, trim. by rewrite !chars_text. }
  assert (Hmid : Forall (fun c => keep c = true /\ quote c = c) mid).
  { unfold mid. apply Forall_map, Forall_forall. intros c Hc.
    apply list_elem_of_In, List.filter_In in Hc as [_ Hc].
    unfold quote. destruct (Ascii.eqb_spec c "`") as [->|Hne]; [done|].
    rewrite Hc. split; [done|]. by destruct (Ascii.eqb_spec c "`"). }
  assert (Hclean : Forall (fun c => keep c = true /\ quote c = c) (chars out)).
  { rewrite Hout. by apply trim_ends_Forall. }
  assert (Htrim : trim out = out).
  { unfold trim. rewrite Hout, trim_ends_idemp, <- Hout. apply text_chars. }
  split_and!.
  - eapply Forall_impl; [exact Hclean|]. intros c [Hk Hq].
    unfold keep, quote in Hk, Hq.
    split_and!; intros ->; done.
  - rewrite <- !length_chars, Hout.
    etrans; [apply trim_ends_length|].
    unfold mid. rewrite length_map. apply List.filter_length_le.
  - unfold sanitizeInput. fold keep quote.
    rewrite filter_all by (eapply Forall_impl; [exact Hclean|]; by intros c [? _]).
    rewrite map_fixed by (eapply Forall_impl; [exact Hclean|]; by intros c [_ ?]).
    by rewrite text_chars.
  - exact Htrim.
Qed.

Lemma forallb_take_drop {A : Type} (f : A -> bool) (n : nat) (l : list A) :
  forallb f l = true -> forallb f (take n l) = true /\ forallb f (drop n l) = true.
Proof.
  intros Hl. rewrite <- (take_drop n l), forallb_app in Hl.
  by apply andb_true_iff in Hl.
Qed.

(** X6: [maskSensitiveData] on a key written on one line leaves at most 13
    code units, and for a key of more than 10 exactly 13: its first six,
    three dots and its last four. A key of at most 10 code units, and a
    key that holds a line terminator, is logged as it is. Masking twice is
    masking once. *)
Theorem mask_shows_ten_characters (key : string) :
  let cs := chars key in
  let one_line := forallb (fun c => negb (is_line_terminator c)) cs in
  maskSensitiveData (Some key) = Some (mask key) /\
  (one_line = true -> 10 < length cs ->
   chars (mask key) = take 6 cs ++ chars "..." ++ drop (length cs - 4) cs /\
   String.length (mask key) = 13) /\
  (one_line = true -> String.length (mask key) <= 13) /\
  (one_line = false \/ length cs <= 10 -> mask key = key) /\
  mask (mask key) = mask key.
Proof.
  intros cs one_line.
  assert (Hlong : one_line = true -> 10 < length cs ->
     chars (mask key) = take 6 cs ++ chars "..." ++ drop (length cs - 4) cs /\
     String.length (mask key) = 13).
  { intros H1 Hlen. unfold mask. fold cs. fold one_line.
    rewrite H1, bool_decide_true by lia. cbn [andb].
    rewrite chars_text. split; [done|].
    rewrite <- length_chars, chars_text, !length_app, length_take, length_drop.
    cbn [chars list_ascii_of_string length]. lia. }
  assert (Hshort : one_line = false \/ length cs <= 10 -> mask key = key).
  { intros Hc. unfold mask. fold cs. fold one_line.
    destruct Hc as [-> | Hlen]; [by rewrite andb_false_r|].
    by rewrite bool_decide_false by lia. }
  split_and!; [|exact Hlong| |exact Hshort|].
  - unfold maskSensitiveData. by destruct (String.eqb_spec key "") as [->|_].
  - intros H1. destruct (decide (10 < length cs)) as [Hlen|Hlen].
    + destruct (Hlong H1 Hlen) as [_ ->]. lia.
    + rewrite Hshort by (right; lia). rewrite <- length_chars. fold cs. lia.
  - destruct one_line eqn:H1; [|by rewrite !Hshort by (by left)].
    destruct (decide (10 < length cs)) as [Hlen|Hlen];
      [|by rewrite !Hshort by (right; lia)].
    destruct (Hlong eq_refl Hlen) as [Hm _].
    unfold mask at 1. rewrite Hm.
    assert (H6 : length (take 6 cs) = 6) by (rewrite length_take; lia).
    assert (H4 : length (drop (length cs - 4) cs) = 4) by (rewrite length_drop; lia).
    assert (Hall : forallb (fun c => negb (is_line_terminator c))
                     (take 6 cs ++ chars "..." ++ drop (length cs - 4) cs) = true).
    { rewrite !forallb_app.
      destruct (forallb_take_drop _ 6 cs H1) as [-> _].
      by destruct (forallb_take_drop _ (length cs - 4) cs H1) as [_ ->]. }
    rewrite Hall, bool_decide_true
      by (rewrite !length_app, H6, H4; cbn; lia).
    cbn [andb]. rewrite <- (text_chars (mask key)), Hm. f_equal.
    rewrite take_app_length' by done.
    rewrite !length_app, H6, H4. cbn [chars list_ascii_of_string length].
    replace (6 + (3 + 4) - 4) with (6 + 3) by lia.
    rewrite drop_app_add' by done.
    by rewrite (drop_app_length' [_; _; _]) by done.
Qed.

Lemma chars_app (a b : string) : chars (a ++ b)%string = chars a ++ chars b.
Proof. unfold chars. induction a as [|c a IH]; [done|]. simpl. by rewrite IH. Qed.

Lemma chars_substring_0 (n : nat) (s : string) : chars (substring 0 n s) = take n (chars s).
Proof.
  unfold chars. revert s. induction n as [|n IH]; intros [|c s]; try done.
  simpl. by rewrite IH.
Qed.

Lemma shorten_length (errorMsg : string) : String.length (shorten errorMsg) <= 103.
Proof.
  unfold shorten. case_bool_decide as Hlen; [|lia].
  rewrite <- length_chars, chars_app, chars_substring_0, length_app, length_take.
  change (length (chars "...")) with 3. lia.
Qed.

(** X7: the text of a [Mint failed] notice is never longer than 103 code
    units, starts with the first 100 code units of the error message, and
    is the error message itself when that has at most 100; a longer
    message always becomes 103 code units. *)
Theorem shorten_keeps_the_first_100 (errorMsg : string) :
  String.length (shorten errorMsg) <= 103 /\
  take 100 (chars (shorten errorMsg)) = take 100 (chars errorMsg) /\
  (String.length errorMsg <= 100 -> shorten errorMsg = errorMsg) /\
  (100 < String.length errorMsg -> String.length (shorten errorMsg) = 103).
Proof.
  split; [apply shorten_length|].
  unfold shorten. case_bool_decide as Hlen.
  - assert (H100 : length (take 100 (chars errorMsg)) = 100).
    { rewrite length_take, length_chars. lia. }
    split_and!.
    + rewrite chars_app, chars_substring_0.
      by rewrite take_app_length' by done.
    + lia.
    + intros _.
      rewrite <- length_chars, chars_app, chars_substring_0, length_app, H100.
      done.
  - split_and!; [done|done|lia].
Qed.

(** ** The wallet list of the second variant *)

Lemma split_no_sep (sep : ascii) (p : list ascii) :
  sep ∉ p -> Bot.split sep p = [p].
Proof.
  induction p as [|c p IH]; [done|]. intros Hp.
  apply not_elem_of_cons in Hp as [Hc Hp]. cbn.
  destruct (Ascii.eqb_spec c sep) as [->|_]; [done|]. by rewrite IH.
Qed.

Lemma split_app_sep (sep : ascii) (p l : list ascii) :
  sep ∉ p -> Bot.split sep (p ++ sep :: l) = p :: Bot.split sep l.
Proof.
  induction p as [|c p IH]; intros Hp.
  - cbn. by rewrite Ascii.eqb_refl.
  - apply not_elem_of_cons in Hp as [Hc Hp]. cbn.
    destruct (Ascii.eqb_spec c sep) as [->|_]; [done|]. by rewrite IH.
Qed.

Lemma split_join (sep : ascii) (pieces : list (list ascii)) :
  pieces <> [] ->
  Forall (fun p => sep ∉ p) pieces ->
  Bot.split sep (Bot.join sep pieces) = pieces.
Proof.
  intros Hne Hall. induction Hall as [|p rest Hp Hrest IH]; [done|].
  destruct rest as [|q rest].
  - cbn. by apply split_no_sep.
  - change (Bot.join sep (p :: q :: rest)) with (p ++ sep :: Bot.join sep (q :: rest)).
    rewrite split_app_sep by done. by rewrite IH.
Qed.

Lemma split_pieces (sep : ascii) (cs : list ascii) :
  Forall (fun p => sep ∉ p) (Bot.split sep cs).
Proof.
  induction cs as [|c cs IH]; [repeat constructor; by intros ?%elem_of_nil|].
  cbn. destruct (Ascii.eqb_spec c sep) as [->|Hc].
  - constructor; [by intros ?%elem_of_nil|done].
  - destruct (Bot.split sep cs) as [|piece pieces].
    + repeat constructor. by intros [?|?%elem_of_nil]%elem_of_cons.
    + apply Forall_cons in IH as [Hp Hps].
      constructor; [|done]. by intros [?|?]%elem_of_cons.
Qed.

Lemma trim_empty_text (cs : list ascii) : trim (text cs) <> "" -> cs <> [].
Proof. by intros Hne ->. Qed.

(** X8: [CONFIG.WALLETS] of the second variant. No key read from the
    environment variable is blank or holds a comma. Writing a list of keys
    that are not blank and hold no comma with commas in between and reading
    it gives exactly that list: nothing is trimmed, so a key written with a
    space before or after it keeps the space. A missing or empty variable
    gives no wallet. *)
Theorem WALLETS_of_env_round_trip (keys : list string) :
  Forall (fun key => (","%char ∉ chars key) /\ trim key <> "") keys ->
  Bot.WALLETS_of_env (Some (text (Bot.join "," (map chars keys)))) = keys /\
  (forall env,
     Forall (fun key => (","%char ∉ chars key) /\ trim key <> "") (Bot.WALLETS_of_env env)) /\
  Bot.WALLETS_of_env None = [] /\ Bot.WALLETS_of_env (Some "") = [].
Proof.
  intros Hkeys. split_and!; [|intros env|done|done].
  - destruct keys as [|k keys]; [done|].
    unfold Bot.WALLETS_of_env.
    set (joined := Bot.join "," (map chars (k :: keys))).
    assert (Hk : chars k <> []).
    { apply Forall_cons in Hkeys as [[_ Hk] _].
      apply trim_empty_text. by rewrite text_chars. }
    assert (Hjoined : String.eqb (text joined) "" = false).
    { apply String.eqb_neq. intros E. apply (f_equal chars) in E.
      rewrite chars_text in E. unfold joined in E. cbn [map] in E.
      destruct (chars k) as [|c cs]; [done|].
      destruct (map chars keys); done. }
    rewrite Hjoined, chars_text. unfold joined.
    rewrite split_join; [|done|].
    + rewrite <- list_fmap_compose.
      rewrite filter_all.
      * rewrite <- (list_fmap_id (k :: keys)) at 2.
        apply list_fmap_ext. intros _ key _. apply text_chars.
      * apply Forall_fmap. eapply Forall_impl; [exact Hkeys|].
        intros key [_ Hkey]. cbn. rewrite text_chars.
        apply negb_true_iff, String.eqb_neq. done.
    + apply Forall_fmap. eapply Forall_impl; [exact Hkeys|]. by intros key [? _].
  - unfold Bot.WALLETS_of_env. destruct env as [s|]; [|done].
    destruct (String.eqb s ""); [done|].
    apply Forall_forall. intros key Hkey.
    apply list_elem_of_In, List.filter_In in Hkey as [Hin Hkey].
    apply list_elem_of_In, list_elem_of_fmap in Hin as (piece & -> & Hin).
    split.
    + rewrite chars_text.
      exact (proj1 (Forall_forall _ _) (split_pieces "," (chars s)) piece Hin).
    + by apply negb_true_iff, String.eqb_neq in Hkey.
Qed.

(** ** The vault file *)

Section VaultMore.

Context {Cred : Type} `{Crypto Cred}.

(** X9: what [saveWallets] wrote, [loadWallets] reads back in a later run
    of the process, whatever its keyring held before: the wallets are the
    saved ones and the log gets the line [Loaded n wallets]; saving itself
    leaves the wallets alone and logs one line. The decipher has to invert
    the cipher and [JSON.parse] has to invert [JSON.stringify] on the
    wallets at hand. *)
Theorem saved_wallets_load_back (password : string) (iv salt : list byte)
    (st st' : Keyring Cred) :
  let key := scryptSync password salt in
  aes_256_cbc_decrypt key iv (aes_256_cbc_encrypt key iv (JSON_stringify (wallets st)))
    = inr (JSON_stringify (wallets st)) ->
  JSON_parse (JSON_stringify (wallets st)) = inr (wallets st) ->
  let saved := saveWallets iv salt password st in
  wallets saved.2 = wallets st /\
  logs saved.2 = logs st ++ [InfoSaved] /\
  loadWallets password saved.1 st' =
    {| wallets := wallets st; logs := logs st' ++ [InfoLoaded (length (wallets st))] |}.
Proof.
  intros key Hcipher Hjson saved. split_and!; [done|done|].
  unfold saved, loadWallets, saveWallets. cbn [fst].
  rewrite decryptWallets_encryptWallets. fold key. by rewrite Hcipher, Hjson.
Qed.

(** X10: the stored iv is not covered by the tag. Whatever is put in the
    [iv] field of a vault written by [encryptWallets], the integrity check
    passes with the right password: the decipher is called with the
    changed iv, and the outcome of [decryptWallets] is whatever the
    decipher and [JSON.parse] make of it. *)
Theorem stored_iv_is_not_authenticated (data : list Cred) (password iv_hex : string)
    (iv salt : list byte) :
  let key := scryptSync password salt in
  let v := with_iv (Some iv_hex) (encryptWallets iv salt data password) in
  CallDecipher ∈ (decryptWallets v password).1 /\
  (decryptWallets v password).2 =
    match aes_256_cbc_decrypt key (Hex.decode iv_hex)
            (aes_256_cbc_encrypt key iv (JSON_stringify data)) with
    | inl e => inl e
    | inr decrypted => JSON_parse decrypted
    end.
Proof.
  intros key v. unfold v, decryptWallets, encryptWallets.
  cbn [with_iv v_iv v_salt v_encryptedData v_hmac]. cbv zeta.
  rewrite !hex_decode_encode. fold key.
  rewrite bool_decide_eq_true_2 by done.
  destruct aes_256_cbc_decrypt; cbn [fst snd]; split; try done;
    rewrite !elem_of_cons; auto.
Qed.

End VaultMore.

(** ** One call of [sendMonadMintTx], whatever the node does *)

Section SenderMore.

Context `{Web3}.

Lemma last_error_app (deployed : option string) (cfg : Config) (sign : Tx -> option Error)
    (cs cs' : list RemoteCall) (error : Error) :
  last_error deployed cfg sign cs' error -> last_error deployed cfg sign (cs ++ cs') error.
Proof. unfold last_error. rewrite last_app. by destruct (last cs'). Qed.

(** One attempt: what it asks of the node, and what it leaves behind. *)
Lemma attempt_effect (key : string) (msg : Message) (w w' : World)
    (r : Error + Receipt) :
  exec (attempt key msg) w = (w', r) ->
  config w' = config w /\ contract w' = contract w /\ clock w' = clock w /\
  exists new,
    calls w' = calls w ++ new /\ attempt_requests new /\
    (contract w = None -> Forall (fun c => is_submission c = false) new) /\
    match r with
    | inl e =>
        outbox w' = outbox w /\ store w' = store w /\
        ((privateKeyToAccount key = inl e /\ new = []) \/
         (exists acct,
            privateKeyToAccount key = inr acct /\
            last_error (contract w) (config w) (sign_failure acct) new e))
    | inr receipt =>
        outbox w' = outbox w ++
          [(chat_id msg,
            MintSuccessful (EXPLORER_URL (config w)) (transactionHash receipt))] /\
        is_Some (contract w) /\
        (exists s, last new = Some (Submitted s (inr receipt))) /\
        exists acct,
          privateKeyToAccount key = inr acct /\
          store w' = saveTxHistory (success_record (address acct) receipt)
                       (clock w) (store w)
    end.
Proof.
  unfold attempt.
  rewrite exec_bind, exec_call. cbn [handle].
  destruct (privateKeyToAccount key) as [e|acct] eqn:Hkey.
  { intros [= <- <-]. split_and!; try done.
    exists []. rewrite app_nil_r. split_and!; try done; [by left|by left]. }
  rewrite exec_bind, exec_await. cbn [handle].
  destruct (eth_getTransactionCount (remote w) (address acct)) as [r1 [e|n]] eqn:Hcount.
  { intros [= <- <-]. split_and!; try done.
    exists [FetchedNonce (address acct) (inl e)].
    split_and!; try done;
      [right; left; eauto | intros _; by repeat constructor | right; by exists acct]. }
  rewrite exec_bind, exec_call. cbn [handle].
  rewrite exec_bind, exec_call. cbn [handle with_remote contract].
  destruct (contract w) as [c|] eqn:Hc.
  2: { intros [= <- <-]. cbn. rewrite Hc. split_and!; try done.
       exists [FetchedNonce (address acct) (inr n)].
       split_and!; try done;
         [right; left; eauto | intros _; by repeat constructor | right; by exists acct]. }
  rewrite exec_bind, exec_await. cbn [handle].
  destruct (sign_failure acct _) as [e|] eqn:Hsign.
  { intros [= <- <-]. cbn. rewrite Hc. split_and!; try done.
    exists [FetchedNonce (address acct) (inr n)].
    split_and!; try done; [right; left; eauto | right; by exists acct]. }
  rewrite exec_bind, exec_await. cbn [handle with_remote remote config].
  destruct (eth_sendSignedTransaction r1 _) as [[r2 latency] outcome] eqn:Hsend.
  destruct (race (Some 60000%Z) latency outcome) as [e|receipt] eqn:Hrace.
  { intros [= <- <-]. cbn. rewrite Hc. split_and!; try done.
    eexists [FetchedNonce (address acct) (inr n); Submitted _ (inl e)].
    rewrite <- app_assoc. split_and!; try done.
    - right; right. by eexists _, _, _, _.
    - right. by exists acct. }
  rewrite exec_bind, exec_call. cbn [handle].
  rewrite exec_bind, exec_call. cbn [handle].
  intros [= <- <-]. cbn. rewrite Hc. split_and!; try done.
  eexists [FetchedNonce (address acct) (inr n); Submitted _ (inr receipt)].
  rewrite <- app_assoc. split_and!; try done.
  - right; right. by eexists _, _, _, _.
  - by eexists.
  - by exists acct.
Qed.

Lemma retry_notices_cons (chat : Z) (first count : nat) :
  retry_notices chat first (S count) =
    (chat, Retrying first) :: retry_notices chat (S first) count.
Proof. reflexivity. Qed.

(** The whole call, started with any [retryCount] up to 2. *)
Lemma sendMonadMintTx_effect (key : string) (msg : Message) (budget : nat) :
  forall (retryCount : nat) (w w' : World) (result : Error + option Receipt),
  retryCount + budget = 2 ->
  exec (sendMonadMintTx key msg retryCount) w = (w', result) ->
  config w' = config w /\ contract w' = contract w /\ clock w' = clock w /\
  exists k verdict new,
    k <= budget /\
    outbox w' = outbox w ++ retry_notices (chat_id msg) (retryCount + 1) k
                  ++ [(chat_id msg, verdict)] /\
    calls w' = calls w ++ new /\ requests_of (S k) new /\
    (contract w = None -> Forall (fun c => is_submission c = false) new) /\
    match result with
    | inr (Some receipt) =>
        verdict = MintSuccessful (EXPLORER_URL (config w)) (transactionHash receipt) /\
        is_Some (contract w) /\
        (exists s, last new = Some (Submitted s (inr receipt))) /\
        exists acct,
          privateKeyToAccount key = inr acct /\
          store w' = saveTxHistory (success_record (address acct) receipt)
                       (clock w) (store w)
    | inr None =>
        k = budget /\
        exists error acct,
          verdict = FinalAttemptFailed (message error) /\
          privateKeyToAccount key = inr acct /\
          last_error (contract w) (config w) (sign_failure acct) new error /\
          store w' = saveTxHistory (failure_record (address acct) error)
                       (clock w) (store w)
    | inl e =>
        k = budget /\ privateKeyToAccount key = inl e /\ store w' = store w /\
        verdict = FinalAttemptFailed (message e) /\ new = []
    end.
Proof.
  induction budget as [|budget IH]; intros retryCount w w' result Hb;
    rewrite exec_sendMonadMintTx;
    destruct (exec (attempt key msg) w) as [w1 [error|receipt]] eqn:Hattempt;
    apply attempt_effect in Hattempt
      as (Hcfg & Hct & Hclk & new & Hcalls & Hnew & Hsub & Hrest).
  - (* the last attempt failed *)
    replace (retryCount <? 2)%nat with false by (symmetry; apply Nat.ltb_ge; lia).
    destruct Hrest as (Hout & Hstore & Hwhy).
    destruct (privateKeyToAccount key) as [e|acct] eqn:Hkey.
    + rewrite (exec_final_failure_bad_key _ _ _ e) by done.
      intros [= <- <-]. cbn. split_and!; try done.
      destruct Hwhy as [[[= <-] ->] | (acct & ? & _)]; [|done].
      exists 0, (FinalAttemptFailed (message e)), [].
      rewrite Hout. split_and!; eauto.
      exists [], []. split_and!; [done|by left|done].
    + rewrite (exec_final_failure _ _ _ acct) by done.
      intros [= <- <-]. cbn. split_and!; try done.
      destruct Hwhy as [[? _] | (acct' & [= <-] & Hwhy)]; [done|].
      exists 0, (FinalAttemptFailed (message error)), new.
      rewrite Hout, Hstore, Hclk. split_and!; eauto.
      * exists new, []. by rewrite app_nil_r.
      * exists error, acct. by split_and!.
  - (* the last attempt succeeded *)
    intros [= <- <-]. split_and!; try done.
    destruct Hrest as (Hout & Hsome & Hlast & Hstore).
    exists 0, (MintSuccessful (EXPLORER_URL (config w)) (transactionHash receipt)), new.
    split_and!; try done; try lia.
    exists new, []. by rewrite app_nil_r.
  - (* an earlier attempt failed: one notice, then the call starts over *)
    replace (retryCount <? 2)%nat with true by (symmetry; apply Nat.ltb_lt; lia).
    destruct Hrest as (Hout & Hstore & Hwhy).
    intros Hrec. apply IH in Hrec; [|lia].
    destruct Hrec as (Hcfg' & Hct' & Hclk' & k & verdict & new' & Hk & Hout' & Hcalls'
                      & Hnew' & Hsub' & Hres).
    cbn [with_message config contract clock outbox calls store] in *.
    split_and!; try congruence.
    exists (S k), verdict, (new ++ new').
    rewrite retry_notices_cons.
    replace (S (retryCount + 1)) with (retryCount + 1 + 1) by lia.
    split_and!.
    + lia.
    + rewrite Hout', Hout, <- !app_assoc. done.
    + rewrite Hcalls', Hcalls, <- app_assoc. done.
    + by exists new, new'.
    + intros Hnone. apply Forall_app. split; [by apply Hsub|].
      apply Hsub'. congruence.
    + rewrite Hcfg, Hclk, Hstore, Hct in Hres.
      destruct result as [e|[r|]].
      * destruct Hres as (-> & Hkey & ? & ? & ->).
        destruct Hwhy as [[_ ->] | (acct & ? & _)]; [|congruence].
        by split_and!.
      * destruct Hres as (? & ? & [s Hs] & ?). split_and!; try done.
        exists s. by rewrite last_app, Hs.
      * destruct Hres as (-> & e & acct & ? & ? & ? & ?). split; [done|].
        exists e, acct. split_and!; try done. by apply last_error_app.
  - (* an earlier attempt succeeded *)
    intros [= <- <-]. split_and!; try done.
    destruct Hrest as (Hout & Hsome & Hlast & Hstore).
    exists 0, (MintSuccessful (EXPLORER_URL (config w)) (transactionHash receipt)), new.
    split_and!; try done; try lia.
    exists new, []. by rewrite app_nil_r.
Qed.

Lemma requests_of_more (n : nat) (cs : list RemoteCall) :
  requests_of n cs -> requests_of (S n) cs.
Proof.
  revert cs. induction n as [|n IH]; intros cs.
  - intros ->. exists [], []. split_and!; [done|by left|done].
  - intros (first & rest & -> & Hfirst & Hrest).
    exists first, rest. split_and!; [done|done|by apply IH].
Qed.

Lemma requests_of_le (n m : nat) (cs : list RemoteCall) :
  n <= m -> requests_of n cs -> requests_of m cs.
Proof. induction 1; [done|]. intros. by apply requests_of_more, IHle. Qed.

(** What the requests of [n] attempts add up to. *)
Lemma requests_of_count (n : nat) (cs : list RemoteCall) :
  requests_of n cs ->
  length (List.filter is_nonce_request cs) <= n /\
  length (List.filter is_submission cs) <= n /\
  length (List.filter is_submission cs) <= length (List.filter is_nonce_request cs) /\
  balance_requests cs = [].
Proof.
  revert cs. induction n as [|n IH]; intros cs.
  - intros ->. cbn. split_and!; done.
  - intros (first & rest & -> & Hfirst & Hrest).
    destruct (IH rest Hrest) as (H1 & H2 & H3 & H4).
    unfold balance_requests in *. rewrite !List.filter_app, !length_app, omap_app, H4.
    destruct Hfirst as [-> | [(a & answer & ->) | (a & k & s & o & -> & _)]];
      cbn; split_and!; try done; lia.
Qed.

Lemma requests_without_submission (n : nat) (cs : list RemoteCall) :
  requests_of n cs ->
  Forall (fun c => is_submission c = false) cs ->
  length cs <= n.
Proof.
  revert cs. induction n as [|n IH]; intros cs.
  - by intros ->.
  - intros (first & rest & -> & Hfirst & Hrest) [Hf Hr]%Forall_app.
    specialize (IH rest Hrest Hr). rewrite length_app.
    destruct Hfirst as [-> | [(a & answer & ->) | (a & k & s & o & -> & _)]];
      cbn; try lia.
    apply Forall_cons in Hf as [_ Hf]. by apply Forall_cons in Hf as [Hf _].
Qed.

(** X11: a call of [sendMonadMintTx] with a history file that is absent
    or parses ends with exactly one verdict in the chat, after the retry
    notices 1 to [k] for some [k] of at most 2: [Mint successful] when it
    returns a receipt, the one of its last submission; [Final attempt
    failed] after both retries otherwise. A call that is fulfilled has
    appended one entry for the address of the key as the last entry of the
    history file (of which the last 100 are kept), stamped with the clock: a
    success with the hash of the receipt, or a failure whose message, the
    same as in the chat, is the error of the last attempt: the answer of the
    node when the node refused the count or the submission, otherwise the
    missing contract or the signature. A call is rejected only for a key the
    library refuses: it then asked nothing of the node, the chat gets the
    message of that refusal, and the history is not touched. *)
Theorem sendMonadMintTx_ends_with_one_verdict (key : string) (msg : Message) (w : World) :
  readable (store w) ->
  let run := exec (sendMonadMintTx key msg 0) w in
  let appended record :=
    {| txHistoryFile :=
         Holds (keep_last 100 (stored_history (store w) ++ [mkEntry record (clock w)]));
       logged := logged (store w) |} in
  exists k verdict new,
    k <= 2 /\
    outbox run.1 = outbox w ++ retry_notices (chat_id msg) 1 k ++ [(chat_id msg, verdict)] /\
    calls run.1 = calls w ++ new /\
    match run.2 with
    | inr (Some receipt) =>
        verdict = MintSuccessful (EXPLORER_URL (config w)) (transactionHash receipt) /\
        (exists s, last new = Some (Submitted s (inr receipt))) /\
        exists acct,
          privateKeyToAccount key = inr acct /\
          store run.1 = appended (success_record (address acct) receipt)
    | inr None =>
        k = 2 /\
        exists error acct,
          verdict = FinalAttemptFailed (message error) /\
          privateKeyToAccount key = inr acct /\
          last_error (contract w) (config w) (sign_failure acct) new error /\
          store run.1 = appended (failure_record (address acct) error)
    | inl e =>
        k = 2 /\ privateKeyToAccount key = inl e /\
        verdict = FinalAttemptFailed (message e) /\ new = [] /\
        store run.1 = store w
    end.
Proof.
  intros Hst run appended. destruct run as [w' result] eqn:Hrun.
  apply (sendMonadMintTx_effect key msg 2 0) in Hrun; [|done].
  destruct Hrun as (_ & _ & _ & k & verdict & new & Hk & Hout & Hcalls & _ & _ & Hres).
  exists k, verdict, new. cbn [fst snd]. split_and!; [done|done|done|].
  destruct result as [e|[receipt|]].
  - destruct Hres as (? & ? & ? & ? & ?). by split_and!.
  - destruct Hres as (? & _ & ? & acct & ? & ->). split_and!; [done|done|].
    exists acct. split; [done|]. by apply saveTxHistory_readable.
  - destruct Hres as (? & error & acct & ? & ? & ? & ->). split; [done|].
    exists error, acct. split_and!; try done. by apply saveTxHistory_readable.
Qed.

(** X12: whatever the node answers, a call of [sendMonadMintTx] makes the
    requests of at most three attempts, each attempt asking for the pending
    count and then submitting at most one transaction with that count as
    its nonce: at most three nonce requests, at most three submissions,
    never more submissions than nonce requests, and no balance request. *)
Theorem sendMonadMintTx_asks_at_most_three_times (key : string) (msg : Message)
    (w : World) :
  let run := exec (sendMonadMintTx key msg 0) w in
  exists new,
    calls run.1 = calls w ++ new /\
    requests_of 3 new /\
    length (List.filter is_nonce_request new) <= 3 /\
    length (List.filter is_submission new) <= 3 /\
    length (List.filter is_submission new) <= length (List.filter is_nonce_request new) /\
    balance_requests new = [].
Proof.
  intros run. destruct run as [w' result] eqn:Hrun.
  apply (sendMonadMintTx_effect key msg 2 0) in Hrun; [|done].
  destruct Hrun as (_ & _ & _ & k & verdict & new & Hk & _ & Hcalls & Hnew & _).
  exists new. cbn [fst].
  assert (H3 : requests_of 3 new) by (apply (requests_of_le (S k)); [lia|done]).
  split; [done|]. split; [done|]. by apply requests_of_count.
Qed.

(** X13: with the contract not initialised ([initializeContract] returned
    [false]), a call of [sendMonadMintTx] never submits anything: every
    attempt fails, at the latest when the call data is built, so the chat
    gets both retry notices and the final failure, no receipt is returned,
    and the node is asked for the pending count at most three times. *)
Theorem sendMonadMintTx_without_contract (key : string) (msg : Message) (w : World) :
  contract w = None ->
  let run := exec (sendMonadMintTx key msg 0) w in
  (exists new,
     calls run.1 = calls w ++ new /\
     List.filter is_submission new = [] /\
     length new <= 3) /\
  (exists error,
     outbox run.1 = outbox w ++
       [(chat_id msg, Retrying 1); (chat_id msg, Retrying 2);
        (chat_id msg, FinalAttemptFailed (message error))]) /\
  (forall receipt, run.2 <> inr (Some receipt)).
Proof.
  intros Hnone run. destruct run as [w' result] eqn:Hrun.
  apply (sendMonadMintTx_effect key msg 2 0) in Hrun; [|done].
  destruct Hrun as (_ & _ & _ & k & verdict & new & Hk & Hout & Hcalls & Hnew & Hsub & Hres).
  specialize (Hsub Hnone). cbn [fst snd].
  assert (Hnosub : List.filter is_submission new = []).
  { clear -Hsub. induction Hsub as [|c cs Hc _ IH]; [done|]. cbn. by rewrite Hc. }
  assert (Hk2 : k = 2 /\ exists error, verdict = FinalAttemptFailed (message error)).
  { destruct result as [e|[receipt|]].
    - destruct Hres as (? & _ & _ & ? & _). eauto.
    - destruct Hres as (_ & [c Hc] & _). congruence.
    - destruct Hres as (? & error & acct & ? & _). eauto. }
  destruct Hk2 as [-> [error ->]].
  split_and!.
  - exists new. split_and!; [done|done|].
    by apply (requests_without_submission 3).
  - by exists error.
  - intros receipt ->. destruct Hres as (_ & [c Hc] & _). congruence.
Qed.

(** *** Nonces *)

Lemma non_decreasing_sublist (l l' : list Z) :
  l' `sublist_of` l -> non_decreasing l -> non_decreasing l'.
Proof.
  induction 1 as [|x l1 l2 Hsub IH|x l1 l2 Hsub IH]; cbn; [done| |].
  - intros [Hx Hl]. split; [|by apply IH].
    apply Forall_forall. intros y Hy.
    apply (proj1 (Forall_forall _ _) Hx).
    eapply elem_of_submseteq; [exact Hy|]. by apply sublist_submseteq.
  - intros [_ Hl]. by apply IH.
Qed.

(** A call submits the nonces it fetches, in the order it fetches them. *)
Lemma requests_of_sublist (n : nat) (a : string) (cs : list RemoteCall) :
  requests_of n cs -> submitted_nonces a cs `sublist_of` fetched_nonces a cs.
Proof.
  revert cs. induction n as [|n IH]; intros cs.
  - by intros ->.
  - intros (first & rest & -> & Hfirst & Hrest).
    unfold submitted_nonces, fetched_nonces. rewrite !omap_app.
    apply sublist_app; [|by apply IH].
    destruct Hfirst as [-> | [(b & answer & ->) | (b & m & s & o & -> & <- & Hs)]]; cbn.
    + done.
    + apply sublist_nil_l.
    + rewrite Hs. by destruct (decide (signed_by s = a)).
Qed.

(** C3 (as amended). Whatever the node does and however the calls of a
    batch are interleaved, every transaction submitted carries a nonce that
    the node handed out for its sender earlier in the run; and a call that
    runs alone submits the nonces it fetched in the order it fetched them,
    each at most once. For a node whose pending count never decreases: no
    transaction of a batch is submitted with a nonce above the pending
    count its sender has at the end of the run, and the nonces a call
    submits when it runs alone never go down from one attempt to the next.
    Nothing makes the nonces differ, and nothing orders the submissions of
    different calls. *)
Theorem batch_nonces_follow_node_count (keys : list string) (msg : Message)
    (w : World) (schedule : list nat) :
  calls w = [] ->
  let final := (run schedule (mint_batch keys msg w)).2 in
  let alone key := calls (exec (sendMonadMintTx key msg 0) w).1 in
  (forall pre s o post,
      calls final = pre ++ Submitted s o :: post ->
      exists n, tx_nonce (rawTransaction s) = Some n /\
                FetchedNonce (signed_by s) (inr n) ∈ pre) /\
  (forall key a,
      submitted_nonces a (alone key) `sublist_of` fetched_nonces a (alone key)) /\
  (forall pending_count : Remote -> string -> Z,
      count_never_decreases pending_count ->
      forall a,
        Forall (fun n => (n <= pending_count (remote final) a)%Z)
          (submitted_nonces a (calls final)) /\
        forall key, non_decreasing (submitted_nonces a (alone key))).
Proof.
  intros Hfresh final alone.
  assert (Hheld : pool_held (run schedule (mint_batch keys msg w))).
  { apply run_held, spawn_all_held; [by rewrite Hfresh|].
    apply Forall_map, Forall_forall. intros key _.
    apply sendMonadMintTx_submits_own_nonce. }
  destruct Hheld as [Hfirst _]. fold final in Hfirst.
  assert (Halone : forall key a,
            submitted_nonces a (alone key) `sublist_of` fetched_nonces a (alone key)).
  { intros key a. unfold alone.
    destruct (exec (sendMonadMintTx key msg 0) w) as [w' result] eqn:Hrun.
    apply (sendMonadMintTx_effect key msg 2 0) in Hrun; [|done].
    destruct Hrun as (_ & _ & _ & k & verdict & new & _ & _ & Hcalls & Hnew & _).
    cbn [fst]. rewrite Hcalls, Hfresh. cbn [app].
    by apply (requests_of_sublist (S k)). }
  split_and!; [|done|].
  - intros pre s o post Hat.
    exact (nonces_fetched_first_at [] _ pre post s o Hfirst Hat).
  - intros pending_count (H1 & H2 & H3 & H4) a.
    assert (Hstart : counts_ok pending_count w).
    { intros b. rewrite Hfresh. by split. }
    split.
    + assert (Hcounts : counts_ok pending_count final).
      { by apply run_counts, spawn_all_counts. }
      destruct (Hcounts a) as [_ Hbound].
      apply Forall_forall. intros n Hn.
      apply (proj1 (Forall_forall _ _) Hbound).
      by apply submitted_were_fetched.
    + intros key.
      apply (non_decreasing_sublist (fetched_nonces a (alone key))); [done|].
      by destruct (exec_counts pending_count H1 H2 H3 H4
                     (sendMonadMintTx key msg 0) w Hstart a).
Qed.

End SenderMore.

(** ** The batch of [/mint], whatever the schedule *)

Section PoolMore.

Context `{Web3}.








(** The calls of a started batch: call [i] is the [i]-th function run up
    to its first [await]. *)
Lemma spawn_all_snoc {A : Type} (ps : list (prog A)) (p : prog A) (w : World) :
  spawn_all (ps ++ [p]) w =
    ((spawn_all ps w).1 ++ [(settle p (spawn_all ps w).2).1],
     (settle p (spawn_all ps w).2).2).
Proof.
  unfold spawn_all. rewrite foldl_app. cbn [foldl].
  by destruct (settle p _).
Qed.

Lemma spawn_all_length {A : Type} (ps : list (prog A)) (w : World) :
  length (spawn_all ps w).1 = length ps.
Proof.
  induction ps as [|p ps IH] using rev_ind; [done|].
  rewrite spawn_all_snoc. cbn [fst]. rewrite !length_app, IH. done.
Qed.

Lemma spawn_all_lookup {A : Type} (ps : list (prog A)) (w : World) (i : nat) (q : prog A) :
  (spawn_all ps w).1 !! i = Some q ->
  exists p w', ps !! i = Some p /\ q = (settle p w').1.
Proof.
  induction ps as [|p ps IH] using rev_ind; [done|].
  rewrite spawn_all_snoc. cbn [fst]. intros Hq.
  apply lookup_app_Some in Hq as [Hq | [Hge Hq]].
  - destruct (IH Hq) as (p0 & w' & Hp0 & ->).
    exists p0, w'. split; [|done]. by apply lookup_app_l_Some.
  - rewrite spawn_all_length in Hge, Hq.
    apply list_lookup_singleton_Some in Hq as [Hi <-].
    exists p, (spawn_all ps w).2. split; [|done].
    replace i with (length ps + 0) by lia.
    by rewrite lookup_app_r, Nat.add_comm, Nat.add_sub by lia.
Qed.



(** *** Every call settles *)

Lemma awaits_at_most_le {A : Type} (p : prog A) (n m : nat) :
  n <= m -> awaits_at_most n p -> awaits_at_most m p.
Proof.
  revert n m. induction p as [a|e|X ev k IH|X ev k IH]; intros n m Hnm; cbn; try done.
  - intros Hp w. by apply (IH _ n m).
  - destruct n as [|n]; [done|]. destruct m as [|m]; [lia|].
    intros Hp w. apply (IH _ n m); [lia|done].
Qed.

Lemma awaits_at_most_bind {A B : Type} (p : prog A) (f : A -> prog B) (n m : nat) :
  awaits_at_most n p ->
  (forall a, awaits_at_most m (f a)) ->
  awaits_at_most (n + m) (bind p f).
Proof.
  intros Hp Hf. revert n Hp.
  induction p as [a|e|X ev k IH|X ev k IH]; intros n Hp; cbn.
  - apply (awaits_at_most_le _ m); [lia|done].
  - done.
  - intros w. by apply IH.
  - destruct n as [|n]; [done|]. intros w. by apply IH.
Qed.

Lemma awaits_at_most_try_catch {A : Type} (p : prog A) (h : Error -> prog A) (n m : nat) :
  awaits_at_most n p ->
  (forall e, awaits_at_most m (h e)) ->
  awaits_at_most (n + m) (try_catch p h).
Proof.
  intros Hp Hh. revert n Hp.
  induction p as [a|e|X ev k IH|X ev k IH]; intros n Hp; cbn.
  - done.
  - apply (awaits_at_most_le _ m); [lia|done].
  - intros w. by apply IH.
  - destruct n as [|n]; [done|]. intros w. by apply IH.
Qed.

Lemma awaits_at_most_call {X : Type} (ev : Event X) : awaits_at_most 0 (call ev).
Proof. cbn. intros w. by destruct (handle ev w).2. Qed.

Lemma awaits_at_most_await {X : Type} (ev : Event X) : awaits_at_most 1 (await ev).
Proof. cbn. intros w. by destruct (handle ev w).2. Qed.

(** An attempt suspends three times at most: for the pending count, for the
    signature and for the receipt. *)
Lemma attempt_awaits (key : string) (msg : Message) : awaits_at_most 3 (attempt key msg).
Proof.
  unfold attempt.
  apply (awaits_at_most_bind _ _ 0 3); [apply awaits_at_most_call|]. intros account.
  apply (awaits_at_most_bind _ _ 1 2); [apply awaits_at_most_await|]. intros nonce.
  apply (awaits_at_most_bind _ _ 0 2); [apply awaits_at_most_call|]. intros cfg.
  apply (awaits_at_most_bind _ _ 0 2); [apply awaits_at_most_call|]. intros data.
  apply (awaits_at_most_bind _ _ 1 1); [apply awaits_at_most_await|]. intros signedTx.
  apply (awaits_at_most_bind _ _ 1 0); [apply awaits_at_most_await|]. intros receipt.
  apply (awaits_at_most_bind _ _ 0 0); [apply awaits_at_most_call|]. intros _.
  apply (awaits_at_most_bind _ _ 0 0); [apply awaits_at_most_call|]. intros _.
  done.
Qed.

Lemma final_failure_awaits (key : string) (msg : Message) (error : Error) :
  awaits_at_most 0 (final_failure key msg error).
Proof.
  unfold final_failure.
  apply (awaits_at_most_bind _ _ 0 0); [apply awaits_at_most_call|]. intros _.
  apply (awaits_at_most_bind _ _ 0 0); [apply awaits_at_most_call|]. intros account.
  apply (awaits_at_most_bind _ _ 0 0); [apply awaits_at_most_call|]. intros _.
  done.
Qed.

Lemma sendMonadMintTx_from_awaits (key : string) (msg : Message) (budget retryCount : nat) :
  awaits_at_most (3 + 3 * budget) (sendMonadMintTx_from budget key msg retryCount).
Proof.
  revert retryCount. induction budget as [|budget IH]; intros retryCount;
    cbn [sendMonadMintTx_from]; apply awaits_at_most_try_catch;
    try (apply (awaits_at_most_bind _ _ 3 0); [apply attempt_awaits|done]);
    intros error; destruct (retryCount <? 2)%nat;
    try (apply (awaits_at_most_le _ 0); [lia|apply final_failure_awaits]).
  - apply (awaits_at_most_bind _ _ 0 0); [apply awaits_at_most_call|]. done.
  - apply (awaits_at_most_bind _ _ 0 (3 * S budget)); [apply awaits_at_most_call|].
    intros _. apply (awaits_at_most_le _ (3 + 3 * budget)); [lia|apply IH].
Qed.

Lemma settle_at_rest {A : Type} (p : prog A) (w : World) : at_rest (settle p w).1.
Proof.
  revert w. induction p as [a|e|X ev k IH|X ev k IH]; intros w; try done.
  cbn [settle]. destruct (handle ev w) as [w' r]. apply IH.
Qed.

Lemma settle_awaits {A : Type} (p : prog A) (w : World) (n : nat) :
  awaits_at_most n p -> awaits_at_most n (settle p w).1.
Proof.
  revert w. induction p as [a|e|X ev k IH|X ev k IH]; intros w Hp; try done.
  cbn [settle]. specialize (Hp w). destruct (handle ev w) as [w' r]. by apply IH.
Qed.

(** Resuming a call uses up one of its suspensions, unless it is settled. *)
Lemma resume_awaits {A : Type} (p : prog A) (w : World) (n : nat) :
  at_rest p -> awaits_at_most n p ->
  at_rest (resume p w).1 /\ awaits_at_most (n - 1) (resume p w).1.
Proof.
  destruct p as [a|e|X ev k|X ev k]; intros Hrest Hp; try done.
  cbn [resume]. destruct n as [|n]; [done|]. specialize (Hp w).
  destruct (handle ev w) as [w' r]. split; [apply settle_at_rest|].
  replace (S n - 1) with n by lia. by apply settle_awaits.
Qed.

Lemma resumptions_cons (i j : nat) (schedule : list nat) :
  resumptions i (j :: schedule) =
    (if Nat.eqb i j then 1 else 0) + resumptions i schedule.
Proof. unfold resumptions. cbn. by destruct (Nat.eqb i j). Qed.

Lemma run_awaits {A : Type} (i : nat) (schedule : list nat) :
  forall (st : Pool A) (p : prog A) (n : nat),
    st.1 !! i = Some p -> at_rest p -> awaits_at_most n p ->
    exists p', (run schedule st).1 !! i = Some p' /\ at_rest p' /\
               awaits_at_most (n - resumptions i schedule) p'.
Proof.
  induction schedule as [|j schedule IH]; intros st p n Hp Hrest Hn.
  - exists p. cbn. by rewrite Nat.sub_0_r.
  - rewrite resumptions_cons. cbn [run foldl]. fold (run schedule (step st j)).
    destruct (Nat.eqb_spec i j) as [<-|Hij].
    + destruct (resume_awaits p st.2 n Hrest Hn) as [Hrest' Hn'].
      destruct (IH (step st i) (resume p st.2).1 (n - 1)) as (p' & ? & ? & ?);
        [|done|done|].
      * unfold step. rewrite Hp. destruct (resume p st.2) as [q w']. cbn [fst].
        apply list_lookup_insert_eq. by eapply lookup_lt_Some.
      * exists p'. split_and!; [done|done|].
        by replace (n - (1 + resumptions i schedule))
             with (n - 1 - resumptions i schedule) by lia.
    + destruct (IH (step st j) p n) as (p' & ? & ? & ?); [|done|done|].
      * unfold step. destruct (st.1 !! j) as [q|]; [|done].
        destruct (resume q st.2) as [q' w']. cbn [fst].
        by rewrite list_lookup_insert_ne.
      * by exists p'.
Qed.

(** X15: every call of a batch settles after it was resumed nine times at
    most (three attempts of three suspensions each), whatever the node
    answers and however the other calls are interleaved with it. The
    retries are bounded, so no call stays pending for ever. *)
Theorem every_call_settles_within_nine_resumptions (keys : list string) (msg : Message)
    (w : World) (schedule : list nat) (i : nat) :
  i < length keys ->
  9 <= resumptions i schedule ->
  exists p, (run schedule (mint_batch keys msg w)).1 !! i = Some p /\
            is_Some (settled p).
Proof.
  intros Hi Hresumed.
  assert (Hlen : length (mint_batch keys msg w).1 = length keys).
  { unfold mint_batch. by rewrite spawn_all_length, length_map. }
  destruct (lookup_lt_is_Some_2 (mint_batch keys msg w).1 i) as [q Hq]; [lia|].
  pose proof Hq as Hq'.
  apply spawn_all_lookup in Hq' as (p & w' & Hp & ->).
  apply list_lookup_fmap_Some in Hp as (key & -> & Hkey).
  destruct (run_awaits i schedule (mint_batch keys msg w) _ 9 Hq) as (p' & Hp' & Hrest & Hn).
  - apply settle_at_rest.
  - apply settle_awaits. apply (sendMonadMintTx_from_awaits key msg 2 0).
  - exists p'. split; [done|].
    replace (9 - resumptions i schedule) with 0 in Hn by lia.
    destruct p'; cbn in *; try done; eauto.
Qed.

End PoolMore.

(** ** [mintNFT] and the sequential [/mint] of the second variant *)

Section MintMore.

Context `{Web3}.

(** Signing a transaction that has no nonce: the library asks the node
    for the count first. *)
Lemma exec_signTransaction_without_nonce (acct : Account) (tx : Tx) (w : World) :
  tx_nonce tx = None ->
  exec (signTransaction acct tx) w =
    let '(r, answer) := eth_getTransactionCount (remote w) (address acct) in
    let w' := with_remote r (FetchedNonce (address acct) answer) w in
    match answer with
    | inl e => (w', inl e)
    | inr nonce =>
        let tx' := {| tx_from := tx_from tx; tx_to := tx_to tx; tx_data := tx_data tx;
                      tx_gas := tx_gas tx; tx_gasPrice := tx_gasPrice tx;
                      tx_chainId := tx_chainId tx; tx_nonce := Some nonce |} in
        match sign_failure acct tx' with
        | Some e => (w', inl e)
        | None => (w', inr (mkSigned (address acct) tx'))
        end
    end.
Proof.
  intros Hnonce. unfold signTransaction. rewrite Hnonce.
  rewrite exec_bind, exec_await. cbn [handle].
  destruct (eth_getTransactionCount (remote w) (address acct)) as [r [e|nonce]];
    [done|].
  rewrite exec_await. cbn [handle]. by destruct (sign_failure acct _).
Qed.

(** One call of [mintNFT], whatever the node does. *)
Lemma mintNFT_effect (key : string) (chatId : Z) (w w' : World) (r : Error + unit) :
  exec (mintNFT key chatId) w = (w', r) ->
  r = inr tt /\
  config w' = config w /\ contract w' = contract w /\ clock w' = clock w /\
  store w' = store w /\
  (exists notes verdict,
     outbox w' = outbox w ++ notes ++ [(chatId, verdict)] /\
     is_mint_verdict verdict = true /\
     (notes = [] \/ exists a, notes = [(chatId, MintingFrom a)]) /\
     (verdict = ContractNotInitialized <-> contract w = None) /\
     (forall text, verdict = MintFailed text -> String.length text <= 103)) /\
  (exists new,
     calls w' = calls w ++ new /\
     mint_requests (GAS_LIMIT (config w) * GAS_PRICE (config w)) new /\
     (forall s receipt, Submitted s (inr receipt) ∈ new ->
        exists a e,
          last (outbox w') = Some (chatId, MintSuccessfulFrom a e (transactionHash receipt)))).
Proof.
  assert (Hshort : forall v e, v = MintFailed (shorten (message e)) ->
            forall text, v = MintFailed text -> String.length text <= 103).
  { intros v e -> text [= <-]. apply shorten_length. }
  unfold mintNFT.
  rewrite exec_bind, exec_call. cbn [handle].
  destruct (contract w) as [c|] eqn:Hc.
  2: { rewrite exec_await. cbn [handle]. intros [= <- <-].
       cbn. split_and!; try done.
       - exists [], ContractNotInitialized. split_and!; try done. by left.
       - exists []. rewrite app_nil_r. split_and!; try done; [by left|].
         by intros s receipt ?%elem_of_nil. }
  rewrite exec_try_catch.
  rewrite exec_bind, exec_call. cbn [handle].
  destruct (privateKeyToAccount (normalize_key key)) as [e|acct] eqn:Hkey.
  { rewrite exec_await. cbn [handle]. intros [= <- <-].
    cbn. split_and!; try done.
    - exists [], (MintFailed (shorten (message e))).
      split_and!; try done; [by left|by apply (Hshort _ e)].
    - exists []. rewrite app_nil_r. split_and!; try done; [by left|].
      by intros s receipt ?%elem_of_nil. }
  rewrite exec_bind, exec_await. cbn [handle].
  destruct (eth_getBalance (remote w) (address acct)) as [r1 [e|balance]] eqn:Hbal.
  { rewrite exec_await. cbn [handle]. intros [= <- <-].
    cbn. split_and!; try done.
    - exists [], (MintFailed (shorten (message e))).
      split_and!; try done; [by left|by apply (Hshort _ e)].
    - exists [FetchedBalance (address acct) (inl e)]. split_and!; try done.
      + right; left; eauto.
      + by intros s receipt [?|?%elem_of_nil]%elem_of_cons. }
  rewrite exec_bind, exec_call. cbn [handle with_remote config].
  destruct (balance <? GAS_LIMIT (config w) * GAS_PRICE (config w))%Z eqn:Hlt.
  { rewrite exec_await. cbn [handle]. intros [= <- <-].
    cbn. split_and!; try done.
    - eexists [], (InsufficientBalance _ _ _).
      split_and!; try done. by left.
    - exists [FetchedBalance (address acct) (inr balance)]. split_and!; try done.
      + right; left; eauto.
      + by intros s receipt [?|?%elem_of_nil]%elem_of_cons. }
  apply Z.ltb_ge in Hlt.
  rewrite exec_bind, exec_call. cbn [handle with_remote contract]. rewrite Hc.
  rewrite exec_bind, exec_await. cbn [handle].
  rewrite exec_bind, exec_signTransaction_without_nonce by done.
  cbn [with_message with_remote remote].
  destruct (eth_getTransactionCount r1 (address acct)) as [r2 [e|nonce]] eqn:Hcount.
  { rewrite exec_await. cbn [handle]. intros [= <- <-].
    cbn. split_and!; try done.
    - exists [(chatId, MintingFrom (address acct))], (MintFailed (shorten (message e))).
      rewrite <- app_assoc.
      split_and!; try done; [right; eauto|by apply (Hshort _ e)].
    - exists [FetchedBalance (address acct) (inr balance);
              FetchedNonce (address acct) (inl e)].
      rewrite <- app_assoc. split_and!; try done.
      + right; right; left. by eexists _, _, _.
      + intros s receipt [?|[?|?%elem_of_nil]%elem_of_cons]%elem_of_cons; done. }
  cbv zeta. cbn [tx_from tx_to tx_data tx_gas tx_gasPrice tx_chainId].
  destruct (sign_failure acct _) as [e|] eqn:Hsign.
  { rewrite exec_await. cbn [handle]. intros [= <- <-].
    cbn. split_and!; try done.
    - exists [(chatId, MintingFrom (address acct))], (MintFailed (shorten (message e))).
      rewrite <- app_assoc.
      split_and!; try done; [right; eauto|by apply (Hshort _ e)].
    - exists [FetchedBalance (address acct) (inr balance);
              FetchedNonce (address acct) (inr nonce)].
      rewrite <- app_assoc. split_and!; try done.
      + right; right; left. by eexists _, _, _.
      + intros s receipt [?|[?|?%elem_of_nil]%elem_of_cons]%elem_of_cons; done. }
  rewrite exec_bind, exec_await. cbn [handle with_remote with_message remote].
  destruct (eth_sendSignedTransaction r2 _) as [[r3 latency] outcome] eqn:Hsend.
  cbn [race].
  destruct outcome as [e|receipt].
  { rewrite exec_await. cbn [handle]. intros [= <- <-].
    cbn. split_and!; try done.
    - exists [(chatId, MintingFrom (address acct))], (MintFailed (shorten (message e))).
      rewrite <- app_assoc.
      split_and!; try done; [right; eauto|by apply (Hshort _ e)].
    - eexists [FetchedBalance (address acct) (inr balance);
               FetchedNonce (address acct) (inr nonce); Submitted _ (inl e)].
      rewrite <- !app_assoc. split_and!; try done.
      + right; right; right. by eexists _, _, _, _, _.
      + intros s receipt
          [?|[?|[?|?%elem_of_nil]%elem_of_cons]%elem_of_cons]%elem_of_cons; done. }
  rewrite exec_await. cbn [handle]. intros [= <- <-].
  cbn. split_and!; try done.
  - eexists [(chatId, MintingFrom (address acct))], (MintSuccessfulFrom _ _ _).
    rewrite <- app_assoc.
    split_and!; try done. right; eauto.
  - eexists [FetchedBalance (address acct) (inr balance);
             FetchedNonce (address acct) (inr nonce); Submitted _ (inr receipt)].
    rewrite <- !app_assoc. split_and!; try done.
    + right; right; right. by eexists _, _, _, _, _.
    + intros s receipt'
        [?|[?|[E|?%elem_of_nil]%elem_of_cons]%elem_of_cons]%elem_of_cons; try done.
      injection E as -> ->. rewrite last_app. cbn. eauto.
Qed.

(** X16: [mintNFT] never rejects and never writes to the history. It ends
    with exactly one verdict in the chat ([Contract not properly
    initialized], [Insufficient balance], [Mint successful] or [Mint
    failed]), preceded by at most the [Minting from] notice; the first of
    these exactly when the contract is not initialised; the text of a
    failure is at most 103 code units long. *)
Theorem mintNFT_always_ends_with_a_verdict (key : string) (chatId : Z) (w : World) :
  let run := exec (mintNFT key chatId) w in
  run.2 = inr tt /\
  store run.1 = store w /\
  exists notes verdict,
    outbox run.1 = outbox w ++ notes ++ [(chatId, verdict)] /\
    is_mint_verdict verdict = true /\
    (notes = [] \/ exists a, notes = [(chatId, MintingFrom a)]) /\
    (verdict = ContractNotInitialized <-> contract w = None) /\
    (forall text, verdict = MintFailed text -> String.length text <= 103).
Proof.
  intros run. destruct run as [w' r] eqn:Hrun.
  apply mintNFT_effect in Hrun as (? & _ & _ & _ & ? & ? & _). done.
Qed.

(** X17: what [mintNFT] asks of the node, in this order: nothing; or the
    balance only; or the balance and then the transaction count, which the
    library asks for while it signs the transaction built without a nonce;
    or these two and then one submission, which carries that count as its
    nonce. It goes past the balance request only when the node reported a
    balance of at least [GAS_LIMIT * GAS_PRICE] for the sender, and it
    makes each of the three requests at most once (no retry); when the
    submission is accepted the last message in the chat is the success
    notice with the hash of the receipt. *)
Theorem mintNFT_submits_only_with_enough_balance (key : string) (chatId : Z) (w : World) :
  let run := exec (mintNFT key chatId) w in
  exists new,
    calls run.1 = calls w ++ new /\
    mint_requests (GAS_LIMIT (config w) * GAS_PRICE (config w)) new /\
    length (balance_requests new) <= 1 /\
    length (List.filter is_nonce_request new) <= 1 /\
    length (List.filter is_submission new) <= 1 /\
    (forall s receipt, Submitted s (inr receipt) ∈ new ->
       exists a e,
         last (outbox run.1) = Some (chatId, MintSuccessfulFrom a e (transactionHash receipt))).
Proof.
  intros run. destruct run as [w' r] eqn:Hrun.
  apply mintNFT_effect in Hrun as (_ & _ & _ & _ & _ & _ & new & Hcalls & Hnew & Hok).
  exists new. cbn [fst]. split_and!; try done;
    destruct Hnew as [-> | [(a & answer & ->) | [(a & b & answer & -> & _)
                      | (a & b & n & s & o & -> & _)]]]; cbn; lia.
Qed.




End MintMore.

(** ** The saved settings of the second variant *)

Lemma is_channel_not_empty (s : string) : Bot.is_channel s = true -> s <> "".
Proof. by intros Hs ->. Qed.

Lemma or_else_saved (s current : string) : s <> "" -> Bot.or_else (Some s) current = s.
Proof. intros Hs. unfold Bot.or_else. by apply String.eqb_neq in Hs as ->. Qed.

(** X19: [saveConfig] and [loadConfig]. Loading what was just saved into
    the same settings changes nothing. Loading it into other settings (a
    restart with the defaults of the environment) brings back the saved
    contract address and channel, each one only if it is not the empty
    string: an empty saved value leaves the current one in place. The
    admins and the wallets are never taken from the file. A write that
    fails leaves the file as it was, and a file that does not parse leaves
    the settings as they were. *)
Theorem saved_settings_load_back (cfg current : Bot.Settings)
    (file : File Bot.SavedConfig) (e : Error) :
  let saved := (Bot.saveConfig None cfg file).1 in
  let loaded := (Bot.loadConfig saved current).1 in
  (Bot.loadConfig saved cfg).1 = cfg /\
  (Bot.CONTRACT_ADDRESS cfg <> "" -> Bot.CONTRACT_ADDRESS loaded = Bot.CONTRACT_ADDRESS cfg) /\
  (Bot.CHANNEL_ID cfg <> "" -> Bot.CHANNEL_ID loaded = Bot.CHANNEL_ID cfg) /\
  (Bot.CONTRACT_ADDRESS cfg = "" ->
     Bot.CONTRACT_ADDRESS loaded = Bot.CONTRACT_ADDRESS current) /\
  (Bot.CHANNEL_ID cfg = "" -> Bot.CHANNEL_ID loaded = Bot.CHANNEL_ID current) /\
  Bot.ADMIN_IDS loaded = Bot.ADMIN_IDS current /\
  Bot.WALLETS loaded = Bot.WALLETS current /\
  (Bot.saveConfig (Some e) cfg file).1 = file /\
  (Bot.loadConfig (Corrupt e) current).1 = current /\
  (Bot.loadConfig Missing current).1 = current.
Proof.
  intros saved loaded. unfold loaded, saved. cbn.
  split_and!; try done.
  - destruct cfg as [admins channel address wallets]. cbn. unfold Bot.or_else.
    by destruct (String.eqb channel ""), (String.eqb address "").
  - apply or_else_saved.
  - apply or_else_saved.
  - by intros ->.
  - by intros ->.
Qed.

Lemma sendMessage_never_more_than_three (deliver : Bot.Target -> Bot.Reply -> option Error)
    (cfg : Bot.Settings) (chatId : Z) (body : Bot.Reply) :
  exists rest,
    (Bot.sendMessage deliver cfg chatId body).1 =
      Bot.mkSent (Bot.ToChat chatId) body (deliver (Bot.ToChat chatId) body) :: rest /\
    length rest <= 2.
Proof.
  unfold Bot.sendMessage, Bot.sendMessage_try.
  destruct (deliver (Bot.ToChat chatId) body) as [e|] eqn:Hchat;
    [|destruct (Bot.repeats_to_channel cfg chatId);
        [destruct (deliver (Bot.ToChannel _) body) as [e|]|]];
    try (destruct (Bot.includes _ _); [destruct (deliver _ (Bot.ChannelFailed _))|]);
    cbn [fst app]; eexists; (split; [reflexivity|cbn; lia]).
Qed.

(** X20: [/setchannel]; [deliver] is what Telegram answers to a send.
    For an admin and an argument that, trimmed, starts with [@] or [-]: the
    trimmed argument becomes [CHANNEL_ID] and is what [loadConfig] finds
    after a restart, whatever the defaults then are (the write succeeding);
    the handler is fulfilled whatever Telegram answers; it sends the
    confirmation to the chat first and makes at most two more sends. When
    the chat send is delivered and the new channel is not the chat itself
    the confirmation goes to the channel just set as well; when that send is
    rejected with a message that names the channel, a warning with that
    message goes to the chat, and otherwise nothing more is sent. For
    anyone else, or another argument, the handler makes one send (the
    refusal or the complaint), is rejected when that send is, and changes
    neither the settings nor the file. Admins, wallets and contract address
    are never changed. *)
Theorem setchannel_survives_a_restart (deliver : Bot.Target -> Bot.Reply -> option Error)
    (msg : Message) (arg : string) (cfg current : Bot.Settings)
    (file : File Bot.SavedConfig) :
  let out := Bot.on_setchannel deliver None msg arg cfg file in
  let chat := Bot.ToChat (chat_id msg) in
  let channel := trim arg in
  let note := Bot.ChannelUpdated channel in
  let settled (body : Bot.Reply) : Error + unit :=
    match deliver chat body with Some e => inl e | None => inr tt end in
  (Bot.isAdmin cfg (from_id msg) = true -> Bot.is_channel channel = true ->
     Bot.result out = inr tt /\
     Bot.CHANNEL_ID (Bot.settings out) = channel /\
     Bot.CHANNEL_ID (Bot.loadConfig (Bot.config_file out) current).1 = channel /\
     (exists rest,
        Bot.sent out = Bot.mkSent chat note (deliver chat note) :: rest /\
        length rest <= 2) /\
     (deliver chat note = None -> channel <> pretty (chat_id msg) ->
        exists rest,
          Bot.sent out =
            Bot.mkSent chat note None ::
            Bot.mkSent (Bot.ToChannel channel) note (deliver (Bot.ToChannel channel) note) ::
            rest /\
          match deliver (Bot.ToChannel channel) note with
          | None => rest = [] /\ Bot.console out = [Bot.ConfigSaved]
          | Some e =>
              if Bot.includes channel (message e) then
                rest = [Bot.mkSent chat (Bot.ChannelFailed (message e))
                          (deliver chat (Bot.ChannelFailed (message e)))]
              else rest = []
          end) /\
     (deliver chat note = None -> channel = pretty (chat_id msg) ->
        Bot.sent out = [Bot.mkSent chat note None])) /\
  (Bot.isAdmin cfg (from_id msg) = true -> Bot.is_channel channel = false ->
     out = Bot.mkOutcome cfg file
             [Bot.mkSent chat Bot.InvalidChannel (deliver chat Bot.InvalidChannel)] []
             (settled Bot.InvalidChannel)) /\
  (Bot.isAdmin cfg (from_id msg) = false ->
     out = Bot.mkOutcome cfg file
             [Bot.mkSent chat Bot.NotAuthorized (deliver chat Bot.NotAuthorized)] []
             (settled Bot.NotAuthorized)) /\
  Bot.ADMIN_IDS (Bot.settings out) = Bot.ADMIN_IDS cfg /\
  Bot.WALLETS (Bot.settings out) = Bot.WALLETS cfg /\
  Bot.CONTRACT_ADDRESS (Bot.settings out) = Bot.CONTRACT_ADDRESS cfg.
Proof.
  intros out chat channel note settled.
  unfold out, Bot.on_setchannel, Bot.raw_send. fold channel chat.
  destruct (Bot.isAdmin cfg (from_id msg)) eqn:Hadmin; [|by split_and!].
  assert (Hch : negb (String.prefix "@" channel) && negb (String.prefix "-" channel)
                = negb (Bot.is_channel channel)).
  { unfold Bot.is_channel. by destruct (String.prefix "@" channel). }
  rewrite Hch.
  destruct (Bot.is_channel channel) eqn:Hchannel; cbn [negb]; [|by split_and!].
  cbn [Bot.saveConfig].
  set (cfg' := {| Bot.ADMIN_IDS := Bot.ADMIN_IDS cfg; Bot.CHANNEL_ID := channel;
                  Bot.CONTRACT_ADDRESS := Bot.CONTRACT_ADDRESS cfg;
                  Bot.WALLETS := Bot.WALLETS cfg |}).
  fold note.
  destruct (Bot.sendMessage deliver cfg' (chat_id msg) note) as [sends logged] eqn:Hsend.
  cbn [Bot.result Bot.settings Bot.config_file Bot.sent Bot.console].
  split_and!; try done.
  intros _ _. split_and!; try done.
  - cbn. apply or_else_saved. by apply is_channel_not_empty.
  - destruct (sendMessage_never_more_than_three deliver cfg' (chat_id msg) note)
      as (rest & Hrest & Hlen).
    rewrite Hsend in Hrest. cbn [fst] in Hrest. by exists rest.
  - intros Hchat Hother. revert Hsend.
    unfold Bot.sendMessage, Bot.sendMessage_try. fold chat. rewrite Hchat.
    assert (Bot.repeats_to_channel cfg' (chat_id msg) = true) as ->.
    { unfold Bot.repeats_to_channel. cbn [Bot.CHANNEL_ID cfg']. rewrite Hchannel.
      apply is_channel_not_empty in Hchannel.
      apply String.eqb_neq in Hchannel, Hother. by rewrite Hchannel, Hother. }
    cbn [Bot.CHANNEL_ID cfg'].
    destruct (deliver (Bot.ToChannel channel) note) as [e|].
    + destruct (Bot.includes channel (message e)).
      * destruct (deliver chat (Bot.ChannelFailed (message e))) eqn:Hwarn;
          intros [= <- <-]; by eexists.
      * intros [= <- <-]. by eexists.
    + intros [= <- <-]. by eexists.
  - intros Hchat Hsame. revert Hsend.
    unfold Bot.sendMessage, Bot.sendMessage_try. fold chat. rewrite Hchat.
    assert (Bot.repeats_to_channel cfg' (chat_id msg) = false) as ->.
    { unfold Bot.repeats_to_channel. cbn [Bot.CHANNEL_ID cfg'].
      rewrite <- Hsame, String.eqb_refl. by rewrite andb_false_r. }
    by intros [= <- <-].
Qed.

(** ** The further properties on the sample data *)

Module MoreScenarios.

Import TestNet Samples.
#[local] Existing Instance web3.

(** Four results appended to a fresh store. *)
Lemma ledger_holds_the_latest_witness :
  txHistoryFile (saveAll (take 3 sample_results ++ [entry 7]) fresh_store) =
    Holds (keep_last 100
             (stored_history fresh_store ++ entries (take 3 sample_results ++ [entry 7]))) /\
  ledger_size (saveAll (take 3 sample_results ++ [entry 7]) fresh_store) =
    Nat.min 100 (ledger_size fresh_store + length (take 3 sample_results) + 1) /\
  last (stored_history (saveAll (take 3 sample_results ++ [entry 7]) fresh_store)) =
    Some (mkEntry (entry 7).1 (entry 7).2) /\
  logged (saveAll (take 3 sample_results ++ [entry 7]) fresh_store) = logged fresh_store.
Proof.
  apply (ledger_holds_the_latest (take 3 sample_results) (entry 7) fresh_store).
  intros e. discriminate.
Defined.

(** Two results and a history file that does not parse. *)
Lemma unreadable_ledger_loses_every_result_witness :
  txHistoryFile (saveAll (take 2 sample_results) broken_store) = Corrupt parse_error /\
  logged (saveAll (take 2 sample_results) broken_store) =
    logged broken_store ++
      replicate (length (take 2 sample_results)) (ErrorHistorySave (message parse_error)) /\
  (getTxHistory 10 (saveAll (take 2 sample_results) broken_store)).1 = [] /\
  txHistoryFile (getTxHistory 10 (saveAll (take 2 sample_results) broken_store)).2 =
    Corrupt parse_error.
Proof.
  apply (unreadable_ledger_loses_every_result (take 2 sample_results) parse_error 10
           broken_store).
  reflexivity.
Defined.

(** [/history] by the admin right after a first result was saved. *)
Lemma history_shows_the_latest_first_witness :
  (from_id msg = ADMIN_ID CONFIG ->
   exists older,
     on_history msg CONFIG (saveTxHistory (entry 7).1 7 fresh_store) =
       ([(chat_id msg,
          RecentTransactions (history_line CONFIG 0 (mkEntry (entry 7).1 7) :: older))],
        saveTxHistory (entry 7).1 7 fresh_store) /\
     length older <= 9) /\
  (from_id msg <> ADMIN_ID CONFIG ->
   on_history msg CONFIG (saveTxHistory (entry 7).1 7 fresh_store) =
     ([], saveTxHistory (entry 7).1 7 fresh_store)).
Proof.
  apply (history_shows_the_latest_first msg CONFIG (entry 7).1 7 fresh_store).
  intros e. discriminate.
Defined.

(** Two keys, the second written with a space before it. *)
Lemma WALLETS_of_env_round_trip_witness :
  Bot.WALLETS_of_env (Some (text (Bot.join "," (map chars spaced_keys)))) = spaced_keys /\
  (forall env,
     Forall (fun key => (","%char ∉ chars key) /\ trim key <> "") (Bot.WALLETS_of_env env)) /\
  Bot.WALLETS_of_env None = [] /\ Bot.WALLETS_of_env (Some "") = [].
Proof.
  apply (WALLETS_of_env_round_trip spaced_keys).
  apply (bool_decide_unpack _). vm_compute. exact I.
Defined.

(** The stand-in vault written to the file and loaded into an empty
    keyring. *)
Lemma saved_wallets_load_back_witness :
  wallets (@saveWallets string Standin.crypto Standin.iv Standin.salt Standin.password
             loaded_keyring).2 = wallets loaded_keyring /\
  logs (@saveWallets string Standin.crypto Standin.iv Standin.salt Standin.password
          loaded_keyring).2 = logs loaded_keyring ++ [InfoSaved] /\
  @loadWallets string Standin.crypto Standin.password
    (@saveWallets string Standin.crypto Standin.iv Standin.salt Standin.password
       loaded_keyring).1 Standin.empty_keyring =
    {| wallets := wallets loaded_keyring;
       logs := logs Standin.empty_keyring ++ [InfoLoaded (length (wallets loaded_keyring))] |}.
Proof.
  apply (saved_wallets_load_back (H := Standin.crypto) Standin.password Standin.iv
           Standin.salt loaded_keyring Standin.empty_keyring);
    vm_compute; reflexivity.
Defined.

(** Three rejected submissions, on a fresh history. *)
Lemma sendMonadMintTx_ends_with_one_verdict_witness :
  let w := world (unfunded []) in
  let run := exec (sendMonadMintTx alice_key msg 0) w in
  let appended record :=
    {| txHistoryFile :=
         Holds (keep_last 100 (stored_history (store w) ++ [mkEntry record (clock w)]));
       logged := logged (store w) |} in
  exists k verdict new,
    k <= 2 /\
    outbox run.1 = outbox w ++ retry_notices (chat_id msg) 1 k ++ [(chat_id msg, verdict)] /\
    calls run.1 = calls w ++ new /\
    match run.2 with
    | inr (Some receipt) =>
        verdict = MintSuccessful (EXPLORER_URL (config w)) (transactionHash receipt) /\
        (exists s, last new = Some (Submitted s (inr receipt))) /\
        exists acct,
          privateKeyToAccount alice_key = inr acct /\
          store run.1 = appended (success_record (address acct) receipt)
    | inr None =>
        k = 2 /\
        exists error acct,
          verdict = FinalAttemptFailed (message error) /\
          privateKeyToAccount alice_key = inr acct /\
          last_error (contract w) (config w) (sign_failure acct) new error /\
          store run.1 = appended (failure_record (address acct) error)
    | inl e =>
        k = 2 /\ privateKeyToAccount alice_key = inl e /\
        verdict = FinalAttemptFailed (message e) /\ new = [] /\
        store run.1 = store w
    end.
Proof.
  apply (sendMonadMintTx_ends_with_one_verdict (H := web3) alice_key msg
           (world (unfunded []))).
  intros e. discriminate.
Defined.

(** What that run leaves in the history: one failed entry with the answer
    of the node to the third submission. *)
Example three_rejections_recorded :
  store (exec (sendMonadMintTx alice_key msg 0) (world (unfunded []))).1 =
    {| txHistoryFile := Holds [mkEntry (failure_record alice funds_error) 1700000000000];
       logged := [] |}.
Proof. reflexivity. Qed.

(** The amended nonce property on the run of [double_mint]; the small node
    is one whose pending count never decreases. *)
Lemma batch_nonces_follow_node_count_witness :
  (forall pre s o post,
      calls double_mint.2 = pre ++ Submitted s o :: post ->
      exists n, tx_nonce (rawTransaction s) = Some n /\
                FetchedNonce (signed_by s) (inr n) ∈ pre) /\
  (forall key a,
      submitted_nonces a
        (calls (exec (sendMonadMintTx key msg 0) (world (funded [alice] []))).1)
      `sublist_of`
      fetched_nonces a
        (calls (exec (sendMonadMintTx key msg 0) (world (funded [alice] []))).1)) /\
  count_never_decreases pending_of /\
  (forall a,
     Forall (fun n => (n <= pending_of (remote double_mint.2) a)%Z)
       (submitted_nonces a (calls double_mint.2)) /\
     forall key,
       non_decreasing
         (submitted_nonces a
            (calls (exec (sendMonadMintTx key msg 0) (world (funded [alice] []))).1))).
Proof.
  assert (Hnode : count_never_decreases (H := web3) pending_of).
  { split_and!.
    - intros r a r' n [= <- <-]. lia.
    - intros r a r' answer b [= <- _]. lia.
    - intros r a r' answer b [= <- _]. lia.
    - intros r s r' latency outcome b. apply Scenarios.submit_kept. }
  destruct (batch_nonces_follow_node_count (H := web3) [alice_key; alice_key] msg
              (world (funded [alice] [])) [0; 1; 0; 1; 0; 1; 1; 1; 1] eq_refl)
    as (Hfirst & Halone & Hcount).
  split_and!; [exact Hfirst|exact Halone|exact Hnode|exact (Hcount pending_of Hnode)].
Defined.

(** Nothing orders the submissions of different calls: of three calls for
    one wallet, the one that fetched nonce 0 second submits it after
    nonce 1 went out. *)
Example submissions_out_of_nonce_order :
  fetched_nonces alice (calls triple_mint.2) = [0; 0; 1]%Z /\
  submitted_nonces alice (calls triple_mint.2) = [0; 1; 0]%Z /\
  ~ non_decreasing (submitted_nonces alice (calls triple_mint.2)).
Proof.
  assert (E : submitted_nonces alice (calls triple_mint.2) = [0; 1; 0]%Z)
    by (vm_compute; reflexivity).
  split_and!; [vm_compute; reflexivity|exact E|].
  rewrite E. cbn. intros (_ & Hlt & _). apply Forall_cons in Hlt as [Hlt _]. lia.
Qed.

(** A mint requested before the contract was initialised. *)
Lemma sendMonadMintTx_without_contract_witness :
  (exists new,
     calls (exec (sendMonadMintTx alice_key msg 0)
              (world_without_contract (funded [alice] []))).1 =
       calls (world_without_contract (funded [alice] [])) ++ new /\
     List.filter is_submission new = [] /\
     length new <= 3) /\
  (exists error,
     outbox (exec (sendMonadMintTx alice_key msg 0)
               (world_without_contract (funded [alice] []))).1 =
       outbox (world_without_contract (funded [alice] [])) ++
         [(chat_id msg, Retrying 1); (chat_id msg, Retrying 2);
          (chat_id msg, FinalAttemptFailed (message error))]) /\
  (forall receipt,
     (exec (sendMonadMintTx alice_key msg 0)
        (world_without_contract (funded [alice] []))).2 <> inr (Some receipt)).
Proof.
  apply (sendMonadMintTx_without_contract (H := web3) alice_key msg
           (world_without_contract (funded [alice] []))).
  reflexivity.
Defined.


(** One call resumed nine times. *)
Lemma every_call_settles_within_nine_resumptions_witness :
  exists p,
    (run [0; 0; 0; 0; 0; 0; 0; 0; 0]
       (mint_batch [alice_key] msg (world (unfunded [])))).1 !! 0 = Some p /\
    is_Some (settled p).
Proof.
  apply (every_call_settles_within_nine_resumptions (H := web3) [alice_key] msg
           (world (unfunded [])) [0; 0; 0; 0; 0; 0; 0; 0; 0] 0).
  - simpl. lia.
  - vm_compute. lia.
Defined.

(** What the samples give. The key written with a space is kept with it;
    a key of 66 characters is logged as 13; a reply with angle brackets and
    backticks is cleaned. *)
Example text_samples :
  Bot.WALLETS_of_env (Some "abc, def ,,  ,ghi") = ["abc"; " def "; "ghi"] /\
  maskSensitiveData (Some alice_key) = Some "0x0000...11ce" /\
  maskSensitiveData (Some "0x1234") = Some "0x1234" /\
  sanitizeInput "  <b>`rm -rf`</b> " = "b'rm -rf'/b".
Proof. vm_compute. done. Qed.

(** The sequential [/mint] over a funded wallet, a key the library refuses
    and an unfunded wallet: three verdicts; the node is asked for two
    balances, one transaction count and one submission. With the starting
    message refused, nothing is minted. *)
Example sequential_mint_sample :
  map snd (outbox (Bot.on_mint delivered settings msg (world (funded [alice] []))).2.1) =
    [MintingFrom alice;
     MintSuccessfulFrom alice (EXPLORER_URL CONFIG) ("0xtx:" ++ alice ++ ":0");
     MintFailed "Private key must be 32 bytes long";
     InsufficientBalance bob 0 500000000000000] /\
  map is_nonce_request
    (calls (Bot.on_mint delivered settings msg (world (funded [alice] []))).2.1) =
    [false; true; false; false] /\
  (Bot.on_mint (fun _ _ => Some key_error) settings msg (world (funded [alice] []))).2 =
    (world (funded [alice] []), inl key_error).
Proof. split_and!; reflexivity. Qed.

(** [/setchannel @news] in chat 7: delivered, the confirmation goes to the
    chat and to [@news]; with the channel gone, the chat gets the
    confirmation and the warning. *)
Example setchannel_sample :
  map Bot.sent_to (Bot.sent (Bot.on_setchannel delivered None msg " @news " settings Missing))
    = [Bot.ToChat 7; Bot.ToChannel "@news"] /\
  map Bot.sent_text
    (Bot.sent (Bot.on_setchannel channel_gone None msg " @news " settings Missing))
    = [Bot.ChannelUpdated "@news"; Bot.ChannelUpdated "@news";
       Bot.ChannelFailed "chat not found: @news"] /\
  map Bot.sent_to
    (Bot.sent (Bot.on_setchannel channel_gone None msg " @news " settings Missing))
    = [Bot.ToChat 7; Bot.ToChannel "@news"; Bot.ToChat 7].
Proof. vm_compute. done. Qed.

End MoreScenarios.
